(** * NanaIA: the audio engine, the composer service and the segment scheduler

    A shallow embedding of the TypeScript sources
      - [services/audioEngine] (class [AudioEngine]),
      - [services/geminiService.ts] ([generateLullaby]),
      - [App.tsx] ([playMusicLoop], [generateNextSegment], [savePreset],
        [loadPreset], the effects that read the library and that keep the
        engine in step with the component, [handleMagicAgent]),
    followed by the properties established about them.

    JavaScript numbers are IEEE 754 binary64 values; they are modelled by
    Rocq's primitive floats, whose operations are the same binary64
    operations, so [NaN], the infinities and the rounding of literals such
    as [0.3] are the ones the program sees. *)

From Stdlib Require Import ZArith Floats String Ascii List Bool Lia.
From stdpp Require Import base option list.
Import ListNotations.

Set Warnings "-inexact-float,-register-all".

(** ** JavaScript numbers and the [Math] functions the sources call *)

Module JS.

Local Open Scope float_scope.

Definition number := float.
Bind Scope float_scope with number.

(** [ToBoolean] on a number: [+0], [-0] and [NaN] are falsy. *)
Definition truthy (x : number) : bool :=
  negb (PrimFloat.is_zero x || PrimFloat.is_nan x).

(** [a || b] on numbers. *)
Definition or_else (a b : number) : number :=
  if truthy a then a else b.

Definition is_pos_zero (x : number) : bool :=
  PrimFloat.is_zero x && negb (PrimFloat.get_sign x).

Definition is_neg_zero (x : number) : bool :=
  PrimFloat.is_zero x && PrimFloat.get_sign x.

(** [Math.min(...args)]: [NaN] if an argument is [NaN]; otherwise the
    running [lowest] starts at [+Infinity], and [-0] is below [+0]. *)
Definition min_step (lowest n : number) : number :=
  if is_neg_zero n && is_pos_zero lowest then n
  else if n <? lowest then n else lowest.

Definition Math_min (args : list number) : number :=
  if existsb PrimFloat.is_nan args then nan
  else fold_left min_step args infinity.

(** [Math.max(...args)]: [NaN] if an argument is [NaN]; otherwise the
    running [highest] starts at [-Infinity], and [+0] is above [-0]. *)
Definition max_step (highest n : number) : number :=
  if is_pos_zero n && is_neg_zero highest then n
  else if highest <? n then n else highest.

Definition Math_max (args : list number) : number :=
  if existsb PrimFloat.is_nan args then nan
  else fold_left max_step args neg_infinity.

(** A number that converts to a Web IDL [float]: it is finite and single
    precision does not round it to [2^128]. Handing any other number to an
    attribute or an argument of type [float] throws a [TypeError]. *)
Definition is_float (x : number) : bool :=
  PrimFloat.abs x <? 0x1.ffffffp+127.


(** The number with the value of an integer, rounded to nearest-even when
    it is not representable. *)
Definition of_Z (z : Z) : number :=
  SF2Prim (binary_normalize prec emax z 0 false).

(** The number of a [Uint8Array] element and of an array length. *)
Definition of_byte (b : Byte.byte) : number :=
  of_Z (Z.of_N (Byte.to_N b)).

Definition of_length {A} (l : list A) : number :=
  of_Z (Z.of_nat (length l)).

(** [Math.pow(base, exponent)]. ECMAScript fixes the result when an argument
    is [NaN] or the exponent is a zero, and otherwise asks for "an
    implementation-approximated value" of the power: that approximation,
    [approx], is the platform's. *)
Definition Math_pow (approx : number -> number -> number)
    (base exponent : number) : number :=
  if PrimFloat.is_nan exponent then nan
  else if PrimFloat.is_zero exponent then 1
  else if PrimFloat.is_nan base then nan
  else approx base exponent.

(** One admissible approximation, used to run the model: the integer part
    of the exponent by repeated multiplication, its fractional part by the
    square roots [base^(1/2)], [base^(1/4)], ... of a positive base. *)
Fixpoint pow_int (n : nat) (x e acc : number) : number * number :=
  match n with
  | O => (acc, e)
  | S n => if 1 <=? e then pow_int n x (e - 1) (acc * x) else (acc, e)
  end.

Fixpoint pow_frac (n : nat) (root e acc : number) : number :=
  match n with
  | O => acc
  | S n =>
      let root := PrimFloat.sqrt root in
      let e := e * 2 in
      if 1 <=? e then pow_frac n root (e - 1) (acc * root)
      else pow_frac n root e acc
  end.

Definition pow_sqrt (base exponent : number) : number :=
  let '(ip, r) := pow_int 2048 base (PrimFloat.abs exponent) 1 in
  let p := pow_frac 64 base r ip in
  if exponent <? 0 then 1 / p else p.

(** *** Strings

    A JavaScript string is a sequence of UTF-16 code units, and the indices
    of [slice] count code units. A [string] of the model holds the UTF-8
    encoding of the JavaScript string, so that the literals of the sources
    read the same; a surrogate that is not part of a pair is held as the
    three bytes of its generalised encoding. [units] gives the code units
    and [of_units] the encoding. A byte that begins no well-formed sequence
    encodes nothing; it counts as one unit. *)

Local Open Scope Z_scope.

Definition byte_of (c : ascii) : Z := Z.of_N (N_of_ascii c).

Definition ascii_of (z : Z) : ascii := ascii_of_N (Z.to_N z).

(** A continuation byte [10xxxxxx]. *)
Definition is_cont (c : ascii) : bool :=
  (128 <=? byte_of c) && (byte_of c <? 192).

Definition low6 (c : ascii) : Z := Z.land (byte_of c) 63.

Fixpoint units (s : string) : list Z :=
  match s with
  | EmptyString => []
  | String c0 rest =>
      let b0 := byte_of c0 in
      match rest with
      | String c1 rest1 =>
          if (192 <=? b0) && (b0 <? 224) && is_cont c1 then
            (Z.land b0 31 * 64 + low6 c1) :: units rest1
          else
            match rest1 with
            | String c2 rest2 =>
                if (224 <=? b0) && (b0 <? 240) && is_cont c1 && is_cont c2
                then
                  (Z.land b0 15 * 4096 + low6 c1 * 64 + low6 c2)
                  :: units rest2
                else
                  match rest2 with
                  | String c3 rest3 =>
                      if (240 <=? b0) && (b0 <? 248) && is_cont c1
                         && is_cont c2 && is_cont c3
                      then
                        (* a code point above U+FFFF is a surrogate pair *)
                        let cp :=
                          Z.land b0 7 * 262144 + low6 c1 * 4096
                          + low6 c2 * 64 + low6 c3 - 65536 in
                        (55296 + cp / 1024) :: (56320 + cp mod 1024)
                        :: units rest3
                      else b0 :: units rest
                  | EmptyString => b0 :: units rest
                  end
            | EmptyString => b0 :: units rest
            end
      | EmptyString => [b0]
      end
  end.

Definition is_high (u : Z) : bool := (55296 <=? u) && (u <? 56320).

Definition is_low (u : Z) : bool := (56320 <=? u) && (u <? 57344).

Definition three_bytes (u : Z) (rest : string) : string :=
  String (ascii_of (224 + u / 4096))
    (String (ascii_of (128 + (u / 64) mod 64))
       (String (ascii_of (128 + u mod 64)) rest)).

Fixpoint of_units (us : list Z) : string :=
  match us with
  | [] => EmptyString
  | u :: rest =>
      if u <? 128 then String (ascii_of u) (of_units rest)
      else if u <? 2048 then
        String (ascii_of (192 + u / 64))
          (String (ascii_of (128 + u mod 64)) (of_units rest))
      else
        match rest with
        | v :: rest' =>
            if is_high u && is_low v then
              let cp := 65536 + (u - 55296) * 1024 + (v - 56320) in
              String (ascii_of (240 + cp / 262144))
                (String (ascii_of (128 + (cp / 4096) mod 64))
                   (String (ascii_of (128 + (cp / 64) mod 64))
                      (String (ascii_of (128 + cp mod 64))
                         (of_units rest'))))
            else three_bytes u (of_units rest)
        | [] => three_bytes u EmptyString
        end
  end.

(** Clamping of a relative index, as in [String.prototype.slice]. *)
Definition rel_index (len k : Z) : Z :=
  if k <? 0 then Z.max (len + k) 0 else Z.min k len.

(** [s.slice(from)] and [s.slice(from, to)]. *)
Definition slice (s : string) (from : Z) (to : option Z) : string :=
  let us := units s in
  let len := Z.of_nat (length us) in
  let a := rel_index len from in
  let b := match to with Some t => rel_index len t | None => len end in
  of_units (take (Z.to_nat (Z.max (b - a) 0)) (drop (Z.to_nat a) us)).

(** [arr.indexOf(x)] on an array of strings: [-1] when [x] is absent. *)
Fixpoint indexOf_from (i : Z) (arr : list string) (x : string) : Z :=
  match arr with
  | [] => -1
  | y :: rest => if String.eqb y x then i else indexOf_from (i + 1) rest x
  end.

Definition indexOf (arr : list string) (x : string) : Z :=
  indexOf_from 0 arr x.

(** [parseInt(s)] without a radix: leading white space is skipped, a sign
    is read, then the longest prefix of decimal digits (hexadecimal digits
    after [0x]); [NaN] when there is no digit. The sources call it on one
    code unit: of the white space beyond ASCII, which is not told apart
    here, one unit gives [NaN] as any other unit that is no digit. *)
Definition is_white (c : ascii) : bool :=
  match nat_of_ascii c with
  | 9 | 10 | 11 | 12 | 13 | 32 => true
  | _ => false
  end%nat.

Definition digit_value (c : ascii) : option Z :=
  let n := Z.of_nat (nat_of_ascii c) in
  if (48 <=? n) && (n <=? 57) then Some (n - 48)
  else if (97 <=? n) && (n <=? 102) then Some (n - 87)
  else if (65 <=? n) && (n <=? 70) then Some (n - 55)
  else None.

Fixpoint skip_white (s : string) : string :=
  match s with
  | String c rest => if is_white c then skip_white rest else s
  | EmptyString => s
  end.

(** The value of the longest prefix of digits below [radix], if any. *)
Fixpoint read_digits (radix : Z) (acc : option Z) (s : string) : option Z :=
  match s with
  | String c rest =>
      match digit_value c with
      | Some d =>
          if d <? radix
          then read_digits radix
                 (Some (match acc with Some a => a * radix + d | None => d end))
                 rest
          else acc
      | None => acc
      end
  | EmptyString => acc
  end.

Definition parseInt (s : string) : number :=
  let s := skip_white s in
  let '(neg, s) :=
    match s with
    | String "-" rest => (true, rest)
    | String "+" rest => (false, rest)
    | _ => (false, s)
    end in
  let '(radix, s) :=
    match s with
    | String "0" (String "x" rest) | String "0" (String "X" rest) => (16, rest)
    | _ => (10, s)
    end in
  match read_digits radix None s with
  | Some v => if neg then (- of_Z v)%float else of_Z v
  | None => nan
  end.

End JS.

Bind Scope float_scope with JS.number.

(** ** [types.ts] *)

Inductive NoiseType := OFF | WHITE | GREY | BROWN.

Record NoteEvent := mkNote {
  note : string;
  duration : JS.number;
  startTime : JS.number;
  velocity : JS.number
}.

Record Composition := mkComposition {
  name : string;
  bpm : JS.number;
  key : option string;
  notes : list NoteEvent;
  description : string;
  tags : option (list string)
}.

Record AgenticConfig := mkConfig {
  stationName : string;
  carrierFreq : JS.number;
  beatFreq : JS.number;
  noiseType : NoiseType;
  noiseVolume : JS.number;
  musicPrompt : string;
  reasoning : string
}.

(** ** [services/audioEngine]: the Web Audio graph and class [AudioEngine] *)

Module AudioEngine.

(** The fields of [AudioEngine] that hold a node, and the local variables
    its methods bind a fresh node to. [ctx] stands for the context and
    holds the id of [ctx.destination]. *)
Inductive slot :=
  | ctx | masterGain
  | reverbNode | reverbGain | delayNode | delayGain | delayFeedback
  | leftOsc | rightOsc | binauralGain | merger | leftChGain | rightChGain
  | musicGain | osc1 | osc1Gain | osc2 | osc2Gain | noteMerger
  | noiseSource | noiseFilter | noiseGain
  | micSource | micAnalyser.

#[global] Instance slot_eq_dec : EqDecision slot.
Proof. solve_decision. Defined.

Inductive node_kind :=
  | Destination | Gain | Convolver | Delay | Oscillator | ChannelMerger
  | BufferSource | BiquadFilter | MediaStreamSource | Analyser.

#[global] Instance node_kind_eq_dec : EqDecision node_kind.
Proof. solve_decision. Defined.

(** A source node is [Idle] until [start], then [Playing] until a [stop()]
    without a time, after which it has [Ended]. *)
Inductive run_state := Idle | Playing | Ended.

#[global] Instance run_state_eq_dec : EqDecision run_state.
Proof. solve_decision. Defined.

(** Calls that are scheduled on the audio clock. *)
Inductive scheduled :=
  | SetValueAtTime (v t : JS.number)
  | LinearRampToValueAtTime (v t : JS.number)
  | SetTargetAtTime (v t timeConstant : JS.number)
  | StartAt (t : JS.number)
  | StopAt (t : JS.number).

(** A node of the graph. [value] is the [.value] of the node's main
    parameter ([gain] of a gain node, [frequency] of an oscillator or a
    filter, [delayTime] of a delay); [origin] records the variable the node
    was created for. An [AudioParam] is taken to hold the number assigned
    to it. The sample data of buffers is not represented. *)
Record node := mkNode {
  kind : node_kind;
  origin : slot;
  ntype : string;
  value : JS.number;
  Q : JS.number;
  detune : JS.number;
  loop : bool;
  fftSize : nat;
  run : run_state;
  calls : list scheduled
}.

(** [src.connect(dst, 0, input)]. *)
Record edge := mkEdge { src : nat; dst : nat; input : nat }.

Record engine := mkEngine {
  nodes : list node;               (* a node's id is its index *)
  edges : list edge;
  refs : slot -> option nat;       (* [this.f], [None] for [null] *)
  baseNoiseVolume : JS.number;
  micStream : option nat;
  adaptiveInterval : option nat;
  isAdaptive : bool;
  (* the platform *)
  currentTime : JS.number;         (* [ctx.currentTime] *)
  micRequests : nat;               (* pending [getUserMedia] calls *)
  streams : nat;                   (* media streams handed out so far *)
  timers : nat;                    (* interval ids handed out so far *)
  restores : nat                   (* pending [setTimeout]s of [stopAll] *)
}.

Definition init : engine :=
  {| nodes := []; edges := []; refs := fun _ => None;
     baseNoiseVolume := 0.1%float; micStream := None;
     adaptiveInterval := None; isAdaptive := false;
     currentTime := 0%float; micRequests := 0; streams := 0; timers := 0;
     restores := 0 |}.

(** *** Field updates *)

Definition with_nodes (f : list node -> list node) (s : engine) : engine :=
  mkEngine (f (nodes s)) (edges s) (refs s) (baseNoiseVolume s) (micStream s)
    (adaptiveInterval s) (isAdaptive s) (currentTime s) (micRequests s)
    (streams s) (timers s) (restores s).

Definition with_edges (f : list edge -> list edge) (s : engine) : engine :=
  mkEngine (nodes s) (f (edges s)) (refs s) (baseNoiseVolume s) (micStream s)
    (adaptiveInterval s) (isAdaptive s) (currentTime s) (micRequests s)
    (streams s) (timers s) (restores s).

(** [this.f = v] *)
Definition set_ref (f : slot) (v : option nat) (s : engine) : engine :=
  mkEngine (nodes s) (edges s)
    (fun g => if decide (g = f) then v else refs s g)
    (baseNoiseVolume s) (micStream s)
    (adaptiveInterval s) (isAdaptive s) (currentTime s) (micRequests s)
    (streams s) (timers s) (restores s).

Definition set_baseNoiseVolume (v : JS.number) (s : engine) : engine :=
  mkEngine (nodes s) (edges s) (refs s) v (micStream s)
    (adaptiveInterval s) (isAdaptive s) (currentTime s) (micRequests s)
    (streams s) (timers s) (restores s).

Definition set_micStream (v : option nat) (s : engine) : engine :=
  mkEngine (nodes s) (edges s) (refs s) (baseNoiseVolume s) v
    (adaptiveInterval s) (isAdaptive s) (currentTime s) (micRequests s)
    (streams s) (timers s) (restores s).

Definition set_adaptiveInterval (v : option nat) (s : engine) : engine :=
  mkEngine (nodes s) (edges s) (refs s) (baseNoiseVolume s) (micStream s)
    v (isAdaptive s) (currentTime s) (micRequests s)
    (streams s) (timers s) (restores s).

Definition set_isAdaptive (v : bool) (s : engine) : engine :=
  mkEngine (nodes s) (edges s) (refs s) (baseNoiseVolume s) (micStream s)
    (adaptiveInterval s) v (currentTime s) (micRequests s)
    (streams s) (timers s) (restores s).

Definition set_currentTime (v : JS.number) (s : engine) : engine :=
  mkEngine (nodes s) (edges s) (refs s) (baseNoiseVolume s) (micStream s)
    (adaptiveInterval s) (isAdaptive s) v (micRequests s)
    (streams s) (timers s) (restores s).

Definition set_micRequests (v : nat) (s : engine) : engine :=
  mkEngine (nodes s) (edges s) (refs s) (baseNoiseVolume s) (micStream s)
    (adaptiveInterval s) (isAdaptive s) (currentTime s) v
    (streams s) (timers s) (restores s).

Definition set_streams (v : nat) (s : engine) : engine :=
  mkEngine (nodes s) (edges s) (refs s) (baseNoiseVolume s) (micStream s)
    (adaptiveInterval s) (isAdaptive s) (currentTime s) (micRequests s)
    v (timers s) (restores s).

Definition set_timers (v : nat) (s : engine) : engine :=
  mkEngine (nodes s) (edges s) (refs s) (baseNoiseVolume s) (micStream s)
    (adaptiveInterval s) (isAdaptive s) (currentTime s) (micRequests s)
    (streams s) v (restores s).

Definition set_restores (v : nat) (s : engine) : engine :=
  mkEngine (nodes s) (edges s) (refs s) (baseNoiseVolume s) (micStream s)
    (adaptiveInterval s) (isAdaptive s) (currentTime s) (micRequests s)
    (streams s) (timers s) v.

(** *** The Web Audio operations the engine uses *)

(** Initial value of a node's main parameter, as Web Audio defines it. *)
Definition default_value (k : node_kind) : JS.number :=
  match k with
  | Gain => 1%float
  | Oscillator => 440%float
  | BiquadFilter => 350%float
  | _ => 0%float
  end.

Definition default_type (k : node_kind) : string :=
  match k with
  | Oscillator => "sine"
  | BiquadFilter => "lowpass"
  | _ => EmptyString
  end.

Definition fresh (k : node_kind) (o : slot) : node :=
  {| kind := k; origin := o; ntype := default_type k;
     value := default_value k; Q := 1%float; detune := 0%float;
     loop := false; fftSize := 2048; run := Idle; calls := [] |}.

(** [ctx.createX()]: the new node takes the next free id, [next_id]. *)
Definition next_id (s : engine) : nat := length (nodes s).

Definition create (k : node_kind) (o : slot) (s : engine) : engine :=
  with_nodes (fun l => l ++ [fresh k o]) s.

Definition update (i : nat) (f : node -> node) (s : engine) : engine :=
  with_nodes (alter f i) s.

Definition set_value (v : JS.number) (n : node) : node :=
  mkNode (kind n) (origin n) (ntype n) v (Q n) (detune n) (loop n)
    (fftSize n) (run n) (calls n).

Definition set_type (t : string) (n : node) : node :=
  mkNode (kind n) (origin n) t (value n) (Q n) (detune n) (loop n)
    (fftSize n) (run n) (calls n).

Definition set_Q (v : JS.number) (n : node) : node :=
  mkNode (kind n) (origin n) (ntype n) (value n) v (detune n) (loop n)
    (fftSize n) (run n) (calls n).

Definition set_detune (v : JS.number) (n : node) : node :=
  mkNode (kind n) (origin n) (ntype n) (value n) (Q n) v (loop n)
    (fftSize n) (run n) (calls n).

Definition set_loop (b : bool) (n : node) : node :=
  mkNode (kind n) (origin n) (ntype n) (value n) (Q n) (detune n) b
    (fftSize n) (run n) (calls n).

Definition set_fftSize (k : nat) (n : node) : node :=
  mkNode (kind n) (origin n) (ntype n) (value n) (Q n) (detune n) (loop n)
    k (run n) (calls n).

Definition set_run (r : run_state) (n : node) : node :=
  mkNode (kind n) (origin n) (ntype n) (value n) (Q n) (detune n) (loop n)
    (fftSize n) r (calls n).

Definition schedule (c : scheduled) (n : node) : node :=
  mkNode (kind n) (origin n) (ntype n) (value n) (Q n) (detune n) (loop n)
    (fftSize n) (run n) (calls n ++ [c]).

(** [a.connect(b, 0, i)] *)
Definition connect (a b i : nat) (s : engine) : engine :=
  with_edges (fun l => l ++ [mkEdge a b i]) s.

(** [a.disconnect()]: every outgoing connection of [a] is removed. *)
Definition disconnect (a : nat) (s : engine) : engine :=
  with_edges (filter (fun e => src e ≠ a)) s.

(** [a.start()] / [a.start(t)] *)
Definition starter (t : option JS.number) (n : node) : node :=
  let n := set_run Playing n in
  match t with Some t => schedule (StartAt t) n | None => n end.

Definition start (a : nat) (t : option JS.number) (s : engine) : engine :=
  update a (starter t) s.

(** [a.stop()]: throws [InvalidStateError] ([None]) on a source that was
    never started. *)
Definition stop (a : nat) (s : engine) : option engine :=
  match nodes s !! a with
  | Some n =>
      match run n with
      | Idle => None
      | _ => Some (update a (set_run Ended) s)
      end
  | None => None
  end.

(** [a.stop(t)] on a started source: the stop is scheduled. *)
Definition stop_at (a : nat) (t : JS.number) (s : engine) : engine :=
  update a (schedule (StopAt t)) s.

(** [try { a.stop(); a.disconnect(); } catch {}] *)
Definition try_stop_disconnect (a : nat) (s : engine) : engine :=
  match stop a s with
  | Some s' => disconnect a s'
  | None => s
  end.

(** [p.setTargetAtTime(v, ctx.currentTime, tc)] on the main parameter. *)
Definition setTargetAtTime (a : nat) (v tc : JS.number) (s : engine) : engine :=
  update a (schedule (SetTargetAtTime v (currentTime s) tc)) s.

(** [a.connect(this.f!, 0, i)]; the field is never [null] where the source
    asserts it (see [links_initContext]). *)
Definition connect_ref (a : nat) (f : slot) (i : nat) (s : engine) : engine :=
  match refs s f with
  | Some b => connect a b i s
  | None => s
  end.

(** How a call ends: it returns, or an exception leaves it; in both cases
    what it did before stays done. *)
Inductive outcome :=
  | Returned (s : engine)
  | Threw (s : engine).

Definition state_of (o : outcome) : engine :=
  match o with
  | Returned s => s
  | Threw s => s
  end.

Definition returned (o : outcome) : bool :=
  match o with
  | Returned _ => true
  | Threw _ => false
  end.

(** [Q] holds of the state a call returns with, and [E] of the state an
    exception leaves. *)
Definition ends (Q E : engine -> Prop) (o : outcome) : Prop :=
  match o with
  | Returned s => Q s
  | Threw s => E s
  end.

(** A time that [setValueAtTime], [linearRampToValueAtTime], [start] and
    [stop] take: a finite number that is not negative. They throw on any
    other. *)
Definition valid_time (t : JS.number) : bool :=
  ((0 <=? t) && (t <? infinity))%float.

(** *** The methods of [AudioEngine]

    The exceptions of the platform on a number that is no [float] and on a
    time that is not valid are part of [playComposition]: its notes come
    from the composer, unchecked, and for a name such as "C#" the code
    itself computes [NaN] and assigns it. The volumes, the carrier and the
    beat that the other methods are handed are taken to be numbers the
    platform accepts. *)

Section Methods.

(** The platform's approximation of powers, used by [Math.pow]. *)
Variable pow_approx : JS.number -> JS.number -> JS.number.

Local Open Scope float_scope.

Definition initContext (s : engine) : engine :=
  match refs s ctx with
  | Some _ => s
  | None =>
      let d := next_id s in
      let s := set_ref ctx (Some d) (create Destination ctx s) in
      let m := next_id s in
      let s := set_ref masterGain (Some m) (create Gain masterGain s) in
      let s := connect m d 0 s in
      (* FX chain *)
      let rv := next_id s in
      let s := set_ref reverbNode (Some rv) (create Convolver reverbNode s) in
      let rg := next_id s in
      let s := set_ref reverbGain (Some rg) (create Gain reverbGain s) in
      let s := update rg (set_value 0.3) s in
      let dn := next_id s in
      let s := set_ref delayNode (Some dn) (create Delay delayNode s) in
      let s := update dn (set_value 0.5) s in
      let df := next_id s in
      let s := create Gain delayFeedback s in
      let s := update df (set_value 0.4) s in
      let s := connect dn df 0 s in
      let s := connect df dn 0 s in
      let dg := next_id s in
      let s := set_ref delayGain (Some dg) (create Gain delayGain s) in
      let s := update dg (set_value 0.2) s in
      let s := connect rv rg 0 s in
      let s := connect rg m 0 s in
      let s := connect dn dg 0 s in
      connect dg m 0 s
  end.

(** [resume]: the running state of the context is the platform's. *)
Definition resume (s : engine) : engine := initContext s.

Definition updateNoiseGain (vol : JS.number) (s : engine) : engine :=
  match refs s noiseGain, refs s ctx with
  | Some g, Some _ => setTargetAtTime g vol 0.2 s
  | _, _ => s
  end.

Definition stopAdaptiveLoop (s : engine) : engine :=
  match adaptiveInterval s with
  | Some _ => set_adaptiveInterval None s
  | None => s
  end.

(** [setInterval] hands out a fresh positive id; a previous interval is
    cleared by the assignment. *)
Definition startAdaptiveLoop (s : engine) : engine :=
  set_adaptiveInterval (Some (S (timers s))) (set_timers (S (timers s)) s).

(** The mapping of the interval callback, from the average of the analyser's
    byte data to the boost and to the gain target. *)
Definition boost (average : JS.number) : JS.number :=
  if 20 <? average then JS.Math_min [(average - 20) / 200; 0.3] else 0.

Definition targetVol (base average : JS.number) : JS.number :=
  JS.Math_min [base + boost average; 0.8].

Definition average (dataArray : list Byte.byte) : JS.number :=
  fold_left (fun sum b => sum + JS.of_byte b) dataArray 0
  / JS.of_length dataArray.

(** The callback of [startAdaptiveLoop], on the data that
    [getByteFrequencyData] wrote. *)
Definition adaptiveCallback (dataArray : list Byte.byte) (s : engine) : engine :=
  match refs s micAnalyser, isAdaptive s, refs s noiseGain with
  | Some _, true, Some g =>
      let target := targetVol (baseNoiseVolume s) (average dataArray) in
      match refs s ctx with
      | Some _ => setTargetAtTime g target 0.5 s
      | None => s
      end
  | _, _, _ => s
  end.

(** [enableAdaptiveNoise] after [getUserMedia] resolved (or with the cached
    stream). *)
Definition enableAdaptiveNoise_granted (s : engine) : engine :=
  let s := initContext s in
  let s :=
    match refs s ctx, refs s micSource with
    | Some _, None =>
        let ms := next_id s in
        let s := set_ref micSource (Some ms) (create MediaStreamSource micSource s) in
        let an := next_id s in
        let s := set_ref micAnalyser (Some an) (create Analyser micAnalyser s) in
        let s := update an (set_fftSize 256) s in
        (* the microphone is not connected to the destination *)
        connect ms an 0 s
    | _, _ => s
    end in
  startAdaptiveLoop s.

(** [enableAdaptiveNoise] up to its first suspension: without a cached
    stream the call waits for [getUserMedia]. *)
Definition enableAdaptiveNoise (enable : bool) (s : engine) : engine :=
  let s := set_isAdaptive enable s in
  if enable then
    match micStream s with
    | None => set_micRequests (S (micRequests s)) s
    | Some _ => enableAdaptiveNoise_granted s
    end
  else
    let s := stopAdaptiveLoop s in
    updateNoiseGain (baseNoiseVolume s) s.

(** A pending [getUserMedia] resolves with a new stream. *)
Definition micGranted (s : engine) : engine :=
  match micRequests s with
  | O => s
  | S k =>
      let s := set_micRequests k s in
      let s := set_micStream (Some (streams s)) (set_streams (S (streams s)) s) in
      enableAdaptiveNoise_granted s
  end.

(** A pending [getUserMedia] rejects: the [catch] branch. *)
Definition micDenied (s : engine) : engine :=
  match micRequests s with
  | O => s
  | S k => set_isAdaptive false (set_micRequests k s)
  end.

Definition setNoiseVolume (val : JS.number) (s : engine) : engine :=
  let s := set_baseNoiseVolume val s in
  if isAdaptive s then s else updateNoiseGain val s.

Definition stopNoise (s : engine) : engine :=
  let s :=
    match refs s noiseSource with
    | Some a => try_stop_disconnect a s
    | None => s
    end in
  set_ref noiseSource None s.

Definition startNoise (type : NoiseType) (volume : JS.number) (s : engine) : engine :=
  let s := initContext s in
  match refs s ctx with
  | None => s
  | Some _ =>
      let s := set_baseNoiseVolume volume s in
      let s := stopNoise s in
      match type with
      | OFF => s
      | _ =>
          let ns := next_id s in
          let s := set_ref noiseSource (Some ns) (create BufferSource noiseSource s) in
          let s := update ns (set_loop true) s in
          let nf := next_id s in
          let s := set_ref noiseFilter (Some nf) (create BiquadFilter noiseFilter s) in
          let s :=
            match type with
            | GREY =>
                update nf (set_Q 0.5) (update nf (set_value 500)
                  (update nf (set_type "lowpass") s))
            | BROWN =>
                update nf (set_Q 1) (update nf (set_value 150)
                  (update nf (set_type "lowpass") s))
            | _ => update nf (set_type "allpass") s
            end in
          let ng := next_id s in
          let s := set_ref noiseGain (Some ng) (create Gain noiseGain s) in
          let s := update ng (set_value volume) s in
          let s := connect ns nf 0 s in
          let s := connect nf ng 0 s in
          let s := connect_ref ng masterGain 0 s in
          start ns None s
      end
  end.

Definition setMusicVolume (val : JS.number) (s : engine) : engine :=
  match refs s musicGain, refs s ctx with
  | Some g, Some _ => setTargetAtTime g val 0.1 s
  | _, _ => s
  end.

Definition note_names : list string :=
  ["C"; "C#"; "D"; "D#"; "E"; "F"; "F#"; "G"; "G#"; "A"; "A#"; "B"]%string.

Definition getFrequency (note : string) : JS.number :=
  let octave := JS.parseInt (JS.slice note (-1) None) in
  let key := JS.slice note 0 (Some (-1)%Z) in
  let semitone := JS.indexOf note_names key in
  if (semitone =? -1)%Z then 200
  else
    let midiBase := (octave + 1) * 12 + JS.of_Z semitone in
    440 * JS.Math_pow pow_approx 2 ((midiBase - 69) / 12).

(** The body of [notes.forEach] in [playComposition]. The assignment to
    [osc1.frequency.value] throws when [getFrequency] gave a number that is
    no [float] (it gives [NaN] for a name such as "C#"), and the first
    call of the envelope on a time that is not valid throws; the times of
    the calls after the first envelope have then been accepted. *)
Definition playNote (now : JS.number) (s : engine) (n : NoteEvent) : outcome :=
  let freq := getFrequency (note n) in
  let o1 := next_id s in
  let s := create Oscillator osc1 s in
  let g1 := next_id s in
  let s := create Gain osc1Gain s in
  if JS.is_float freq then
    let s := update o1 (set_value freq) s in
    let s := update o1 (set_type "sine") s in
    let o2 := next_id s in
    let s := create Oscillator osc2 s in
    let g2 := next_id s in
    let s := create Gain osc2Gain s in
    let s := update o2 (set_value freq) s in
    let s := update o2 (set_detune 8) s in
    let s := update o2 (set_type "triangle") s in
    let s := connect o1 g1 0 s in
    let s := connect o2 g2 0 s in
    let m := next_id s in
    let s := create ChannelMerger noteMerger s in
    let s := connect g1 m 0 s in
    let s := connect g2 m 1 s in
    let s := connect_ref m musicGain 0 s in
    let startTime := now + startTime n in
    let duration := duration n in
    let attack := duration * 0.3 in
    let release := duration * 0.3 in
    if valid_time startTime then
      let s := update g1 (schedule (SetValueAtTime 0 startTime)) s in
      if valid_time (startTime + attack) then
        let s := update g1 (schedule (LinearRampToValueAtTime 0.2 (startTime + attack))) s in
        if valid_time (startTime + duration - release) then
          let s := update g1 (schedule (SetValueAtTime 0.2 (startTime + duration - release))) s in
          if valid_time (startTime + duration) then
            let s := update g1 (schedule (LinearRampToValueAtTime 0 (startTime + duration))) s in
            let s := update g2 (schedule (SetValueAtTime 0 startTime)) s in
            let s := update g2 (schedule (LinearRampToValueAtTime 0.1 (startTime + attack))) s in
            let s := update g2 (schedule (SetValueAtTime 0.1 (startTime + duration - release))) s in
            let s := update g2 (schedule (LinearRampToValueAtTime 0 (startTime + duration))) s in
            let s := start o1 (Some startTime) s in
            let s := stop_at o1 (startTime + duration) s in
            let s := start o2 (Some startTime) s in
            Returned (stop_at o2 (startTime + duration) s)
          else Threw s
        else Threw s
      else Threw s
    else Threw s
  else Threw s.

(** [notes.forEach(n => ...)]: an exception ends the loop. *)
Fixpoint playNotes (now : JS.number) (notes : list NoteEvent) (s : engine)
    : outcome :=
  match notes with
  | [] => Returned s
  | n :: notes =>
      match playNote now s n with
      | Returned s => playNotes now notes s
      | Threw s => Threw s
      end
  end.

Definition playComposition (notes : list NoteEvent) (s : engine) : outcome :=
  let s := initContext s in
  match refs s ctx with
  | None => Returned s
  | Some _ =>
      let s :=
        match refs s musicGain with
        | Some _ => s
        | None =>
            let mg := next_id s in
            let s := set_ref musicGain (Some mg) (create Gain musicGain s) in
            let s := update mg (set_value 0.3) s in
            let s := connect_ref mg masterGain 0 s in
            let s :=
              match refs s reverbNode, refs s reverbGain with
              | Some rv, Some _ => connect mg rv 0 s
              | _, _ => s
              end in
            match refs s delayNode, refs s delayGain with
            | Some dn, Some _ => connect mg dn 0 s
            | _, _ => s
            end
        end in
      let now := currentTime s in
      playNotes now notes s
  end.

Definition setReverbMix (val : JS.number) (s : engine) : engine :=
  match refs s reverbGain, refs s ctx with
  | Some g, Some _ => setTargetAtTime g val 0.1 s
  | _, _ => s
  end.

Definition setDelayMix (val : JS.number) (s : engine) : engine :=
  match refs s delayGain, refs s ctx with
  | Some g, Some _ => setTargetAtTime g val 0.1 s
  | _, _ => s
  end.

Definition setBinauralVolume (val : JS.number) (s : engine) : engine :=
  match refs s binauralGain, refs s ctx with
  | Some g, Some _ => setTargetAtTime g val 0.1 s
  | _, _ => s
  end.

Definition stopBinaural (s : engine) : engine :=
  let s :=
    match refs s leftOsc with
    | Some a => try_stop_disconnect a s
    | None => s
    end in
  let s :=
    match refs s rightOsc with
    | Some a => try_stop_disconnect a s
    | None => s
    end in
  set_ref rightOsc None (set_ref leftOsc None s).

Definition startBinaural (carrierFreq beatFreq volume : JS.number)
    (s : engine) : engine :=
  let s := initContext s in
  match refs s ctx with
  | None => s
  | Some _ =>
      let s := stopBinaural s in
      let mr := next_id s in
      let s := set_ref merger (Some mr) (create ChannelMerger merger s) in
      let bg := next_id s in
      let s := set_ref binauralGain (Some bg) (create Gain binauralGain s) in
      let s := update bg (set_value volume) s in
      let s := connect mr bg 0 s in
      let s := connect_ref bg masterGain 0 s in
      let lo := next_id s in
      let s := set_ref leftOsc (Some lo) (create Oscillator leftOsc s) in
      let s := update lo (set_type "sine") s in
      let s := update lo (set_value carrierFreq) s in
      let lg := next_id s in
      let s := create Gain leftChGain s in
      let s := update lg (set_value 0.5) s in
      let s := connect lo lg 0 s in
      let s := connect lg mr 0 s in
      let ro := next_id s in
      let s := set_ref rightOsc (Some ro) (create Oscillator rightOsc s) in
      let s := update ro (set_type "sine") s in
      let s := update ro (set_value (carrierFreq + beatFreq)) s in
      let rg := next_id s in
      let s := create Gain rightChGain s in
      let s := update rg (set_value 0.5) s in
      let s := connect ro rg 0 s in
      let s := connect rg mr 1 s in
      let s := start lo (Some (currentTime s)) s in
      start ro (Some (currentTime s)) s
  end.

Definition stopAll (s : engine) : engine :=
  let s := stopBinaural s in
  let s := stopNoise s in
  let s := stopAdaptiveLoop s in
  let s :=
    match micStream s with
    | Some _ => set_ref micSource None (set_micStream None s)
    | None => s
    end in
  match refs s masterGain, refs s ctx with
  | Some m, Some _ =>
      set_restores (S (restores s)) (setTargetAtTime m 0 0.5 s)
  | _, _ => s
  end.

(** The [setTimeout] callback of [stopAll]. *)
Definition restoreMaster (s : engine) : engine :=
  match restores s with
  | O => s
  | S k =>
      let s := set_restores k s in
      match refs s masterGain with
      | Some m => update m (set_value 1) s
      | None => s
      end
  end.

(** *** Executions of the engine *)

(** What can happen to the engine: a call of a public method, a callback
    of the platform, or the audio clock moving on. A call of
    [playComposition] that an exception ends leaves the engine as it was
    when the exception was thrown. *)
Inductive event :=
  | Resume
  | EnableAdaptiveNoise (enable : bool)
  | MicGranted
  | MicDenied
  | AdaptiveCallback (dataArray : list Byte.byte)
  | SetNoiseVolume (val : JS.number)
  | StartNoise (type : NoiseType) (volume : JS.number)
  | StopNoise
  | SetMusicVolume (val : JS.number)
  | PlayComposition (notes : list NoteEvent)
  | SetReverbMix (val : JS.number)
  | SetDelayMix (val : JS.number)
  | SetBinauralVolume (val : JS.number)
  | StartBinaural (carrierFreq beatFreq volume : JS.number)
  | StopBinaural
  | StopAll
  | RestoreMaster
  | ClockAdvance (t : JS.number).

Definition step (s : engine) (e : event) : engine :=
  match e with
  | Resume => resume s
  | EnableAdaptiveNoise enable => enableAdaptiveNoise enable s
  | MicGranted => micGranted s
  | MicDenied => micDenied s
  | AdaptiveCallback dataArray =>
      match adaptiveInterval s with
      | Some _ => adaptiveCallback dataArray s
      | None => s
      end
  | SetNoiseVolume val => setNoiseVolume val s
  | StartNoise type volume => startNoise type volume s
  | StopNoise => stopNoise s
  | SetMusicVolume val => setMusicVolume val s
  | PlayComposition notes => state_of (playComposition notes s)
  | SetReverbMix val => setReverbMix val s
  | SetDelayMix val => setDelayMix val s
  | SetBinauralVolume val => setBinauralVolume val s
  | StartBinaural c b v => startBinaural c b v s
  | StopBinaural => stopBinaural s
  | StopAll => stopAll s
  | RestoreMaster => restoreMaster s
  | ClockAdvance t => set_currentTime t s
  end.

Definition exec (evs : list event) : engine := fold_left step evs init.

(** A state is reachable when an execution of the engine ends in it. *)
Definition reachable (s : engine) : Prop := exists evs, s = exec evs.

End Methods.

(** *** What the properties speak about *)

(** The ids of the sources created for [f] that are playing. *)
Definition is_active (f : slot) (n : node) : bool :=
  bool_decide (origin n = f) && bool_decide (run n = Playing).

Fixpoint positions {A} (p : A -> bool) (i : nat) (l : list A) : list nat :=
  match l with
  | [] => []
  | x :: l => if p x then i :: positions p (S i) l else positions p (S i) l
  end.

Definition active (f : slot) (s : engine) : list nat :=
  positions (is_active f) 0 (nodes s).

(** Source [a] was stopped and has no outgoing connection left. *)
Definition released (a : nat) (s : engine) : Prop :=
  (exists n, nodes s !! a = Some n /\ run n = Ended) /\
  forall e, e ∈ edges s -> src e <> a.

(** The source a field held in [s], if any, is released in [s']. *)
Definition prior_released (f : slot) (s s' : engine) : Prop :=
  match refs s f with
  | Some a => released a s'
  | None => True
  end.

(** Signal can flow from node [a] to node [b]. *)
Inductive path (s : engine) : nat -> nat -> Prop :=
  | path_here a : path s a a
  | path_edge a e b : e ∈ edges s -> src e = a -> path s (dst e) b -> path s a b.

(** The number of nodes of a kind. *)
Definition count_kind (k : node_kind) (s : engine) : nat :=
  length (filter (fun n => kind n = k) (nodes s)).

(** The MIDI number of the pitch class [semitone] (C is 0, A is 9) in
    [octave]: A4 is 69 and an octave is 12 semitones. *)
Definition midi_number (semitone octave : Z) : Z :=
  (69 + (semitone - 9) + 12 * (octave - 4))%Z.

(** The one-character string of a decimal digit. *)
Definition digit (d : nat) : string :=
  String (ascii_of_nat (48 + d)) EmptyString.

(** *** The invariant of the graph *)

(** Updates of a node that leave its kind, origin and running state alone. *)
Definition keeps (g : node -> node) : Prop :=
  forall n, kind (g n) = kind n /\ origin (g n) = origin n /\ run (g n) = run n.

(** Updates that may start or end a node. *)
Definition keeps_kind (g : node -> node) : Prop :=
  forall n, kind (g n) = kind n /\ origin (g n) = origin n.

(** Node [a] exists and satisfies [P]. *)
Definition node_at (a : nat) (P : node -> Prop) (s : engine) : Prop :=
  exists n, nodes s !! a = Some n /\ P n.

(** Node [a] exists and was created for the variable or field [o]. *)
Definition born (a : nat) (o : slot) : engine -> Prop :=
  node_at a (fun n => origin n = o).

(** The kind of node each variable or field holds. *)
Definition slot_kind (o : slot) : node_kind :=
  match o with
  | ctx => Destination
  | masterGain | reverbGain | delayGain | delayFeedback | binauralGain
  | leftChGain | rightChGain | musicGain | osc1Gain | osc2Gain | noiseGain => Gain
  | reverbNode => Convolver
  | delayNode => Delay
  | leftOsc | rightOsc | osc1 | osc2 => Oscillator
  | merger | noteMerger => ChannelMerger
  | noiseSource => BufferSource
  | noiseFilter => BiquadFilter
  | micSource => MediaStreamSource
  | micAnalyser => Analyser
  end.

(** Every node has the kind of the variable it was created for. *)
Definition kinded (s : engine) : Prop :=
  forall i n, nodes s !! i = Some n -> kind n = slot_kind (origin n).

(** A field that is set holds a node created for it. *)
Definition typed (s : engine) : Prop :=
  forall f a, refs s f = Some a -> born a f s.

(** No source created for [f] is playing. *)
Definition quiet (f : slot) (s : engine) : Prop :=
  forall i n, nodes s !! i = Some n -> origin n = f -> run n <> Playing.

(** The only source created for [f] that may be playing is the one the
    field [f] holds. *)
Definition exclusive (f : slot) (s : engine) : Prop :=
  forall i n, nodes s !! i = Some n -> origin n = f -> run n = Playing ->
    refs s f = Some i.

(** The source the field [f] holds is playing. *)
Definition live (f : slot) (s : engine) : Prop :=
  forall a n, refs s f = Some a -> nodes s !! a = Some n -> run n = Playing.

(** Every connection leaves an existing node; none leaves an analyser of
    the microphone, and those that leave the microphone's source end in
    such an analyser. *)
Definition mic_isolated (s : engine) : Prop :=
  forall e, e ∈ edges s ->
    node_at (src e) (fun n =>
      origin n <> micAnalyser /\
      (origin n = micSource -> born (dst e) micAnalyser s)) s.

(** Two states with the same graph and fields. *)
Definition same_graph (s' s : engine) : Prop :=
  nodes s' = nodes s /\ edges s' = edges s /\ refs s' = refs s.

(** The invariant of the engine. *)
Definition inv (s : engine) : Prop :=
  kinded s /\ typed s /\ mic_isolated s /\
  (exclusive noiseSource s /\ live noiseSource s) /\
  (exclusive leftOsc s /\ live leftOsc s) /\
  (exclusive rightOsc s /\ live rightOsc s).

(** The fields that hold a source. *)
Definition source_slot (f : slot) : bool :=
  match f with
  | noiseSource | leftOsc | rightOsc => true
  | _ => false
  end.

(** A session that turns adaptive noise on, is granted the microphone, and
    starts the noise bed and the binaural pair. *)
Definition adaptive_session : list event :=
  [EnableAdaptiveNoise true; MicGranted; StartNoise WHITE 0.15;
   StartBinaural 150 2.5 0.5].

End AudioEngine.

(** ** [services/geminiService.ts] *)

Module GeminiService.

Local Open Scope string_scope.

(** *** [JSON.parse] *)

(** The value [JSON.parse] builds. A number keeps the exact decimal value of
    its token, [mantissa * 10 ^ exponent]; the members of an object are kept
    in the order of the text, a later member of the same name overriding an
    earlier one when the object is read. Strings are byte strings: a
    [\uXXXX] escape is stored as the UTF-8 bytes of its code unit. *)
Inductive json :=
  | JNull
  | JBool (b : bool)
  | JNumber (mantissa exponent : Z)
  | JString (s : string)
  | JArray (items : list json)
  | JObject (members : list (string * json)).

Definition quote : ascii := "034".
Definition backslash : ascii := "092".

Definition is_ws (c : ascii) : bool :=
  match nat_of_ascii c with
  | 9 | 10 | 13 | 32 => true
  | _ => false
  end.

Fixpoint skip_ws (s : string) : string :=
  match s with
  | String c rest => if is_ws c then skip_ws rest else s
  | EmptyString => s
  end.

Definition is_digit (c : ascii) : bool :=
  let n := nat_of_ascii c in (48 <=? n)%nat && (n <=? 57)%nat.

(** The digits at the head of [s]: their value after [acc], how many they
    are, and the rest of [s]. *)
Fixpoint digits (acc : Z) (count : nat) (s : string) : Z * nat * string :=
  match s with
  | String c rest =>
      if is_digit c
      then digits (acc * 10 + (Z.of_nat (nat_of_ascii c) - 48)) (S count) rest
      else (acc, count, s)
  | EmptyString => (acc, count, s)
  end.

(** [-? int frac? exp?], where [int] has no leading zero. *)
Definition parse_number (s : string) : option (json * string) :=
  let '(neg, s) :=
    match s with
    | String "-" rest => (true, rest)
    | _ => (false, s)
    end in
  let int_part :=
    match s with
    | String "0" rest => Some (0%Z, rest)
    | _ => match digits 0 0 s with
           | (_, O, _) => None
           | (v, _, rest) => Some (v, rest)
           end
    end in
  match int_part with
  | None => None
  | Some (m, s) =>
      let frac :=
        match s with
        | String "." rest =>
            match digits m 0 rest with
            | (_, O, _) => None
            | (v, k, rest) => Some (v, Z.of_nat k, rest)
            end
        | _ => Some (m, 0%Z, s)
        end in
      match frac with
      | None => None
      | Some (m, k, s) =>
          let exp :=
            match s with
            | String "e" rest | String "E" rest =>
                let '(eneg, rest) :=
                  match rest with
                  | String "-" r => (true, r)
                  | String "+" r => (false, r)
                  | _ => (false, rest)
                  end in
                match digits 0 0 rest with
                | (_, O, _) => None
                | (v, _, rest) => Some (if eneg then (- v)%Z else v, rest)
                end
            | _ => Some (0%Z, s)
            end in
          match exp with
          | None => None
          | Some (e, s) =>
              Some (JNumber (if neg then (- m)%Z else m) (e - k), s)
          end
      end
  end.

Definition utf8 (u : Z) : string :=
  let byte (z : Z) := ascii_of_nat (Z.to_nat z) in
  if (u <? 128)%Z then String (byte u) EmptyString
  else if (u <? 2048)%Z then
    String (byte (192 + u / 64)%Z) (String (byte (128 + u mod 64)%Z) EmptyString)
  else
    String (byte (224 + u / 4096)%Z)
      (String (byte (128 + (u / 64) mod 64)%Z)
         (String (byte (128 + u mod 64)%Z) EmptyString)).

Definition hex4 (a b c d : ascii) : option Z :=
  match JS.digit_value a, JS.digit_value b, JS.digit_value c, JS.digit_value d with
  | Some a, Some b, Some c, Some d => Some (((a * 16 + b) * 16 + c) * 16 + d)%Z
  | _, _, _, _ => None
  end.

(** The characters of a string token up to its closing quote. *)
Fixpoint parse_chars (s : string) : option (string * string) :=
  let cons (c : string) (r : option (string * string)) :=
    match r with
    | Some (str, rest) => Some (append c str, rest)
    | None => None
    end in
  match s with
  | EmptyString => None
  | String c rest =>
      if Ascii.eqb c quote then Some (EmptyString, rest)
      else if Ascii.eqb c backslash then
        match rest with
        | String e rest' =>
            if Ascii.eqb e quote then cons (String quote EmptyString) (parse_chars rest')
            else if Ascii.eqb e backslash then
              cons (String backslash EmptyString) (parse_chars rest')
            else
              match e, rest' with
              | "/"%char, _ => cons "/" (parse_chars rest')
              | "b"%char, _ => cons (String "008" EmptyString) (parse_chars rest')
              | "f"%char, _ => cons (String "012" EmptyString) (parse_chars rest')
              | "n"%char, _ => cons (String "010" EmptyString) (parse_chars rest')
              | "r"%char, _ => cons (String "013" EmptyString) (parse_chars rest')
              | "t"%char, _ => cons (String "009" EmptyString) (parse_chars rest')
              | "u"%char,
                String h1 (String h2 (String h3 (String h4 rest''))) =>
                  match hex4 h1 h2 h3 h4 with
                  | Some u => cons (utf8 u) (parse_chars rest'')
                  | None => None
                  end
              | _, _ => None
              end
        | EmptyString => None
        end
      else if (nat_of_ascii c <? 32)%nat then None
      else cons (String c EmptyString) (parse_chars rest)
  end.

Definition expect (lit : string) (v : json) (s : string) : option (json * string) :=
  if String.prefix lit s
  then Some (v, substring (String.length lit) (String.length s) s)
  else None.

(** A value, the items of an array after its bracket, and the members of
    an object after its brace; [fuel] bounds the nesting and the number of
    items. *)
Fixpoint parse_value (fuel : nat) (s : string) : option (json * string) :=
  match fuel with
  | O => None
  | S fuel =>
      match skip_ws s with
      | String "{" rest =>
          match skip_ws rest with
          | String "}" rest' => Some (JObject [], rest')
          | rest' =>
              match parse_members fuel rest' with
              | Some (ms, rest'') => Some (JObject ms, rest'')
              | None => None
              end
          end
      | String "[" rest =>
          match skip_ws rest with
          | String "]" rest' => Some (JArray [], rest')
          | rest' =>
              match parse_items fuel rest' with
              | Some (vs, rest'') => Some (JArray vs, rest'')
              | None => None
              end
          end
      | String "t" _ as s' => expect "true" (JBool true) s'
      | String "f" _ as s' => expect "false" (JBool false) s'
      | String "n" _ as s' => expect "null" JNull s'
      | String c rest as s' =>
          if Ascii.eqb c quote then
            match parse_chars rest with
            | Some (str, rest') => Some (JString str, rest')
            | None => None
            end
          else parse_number s'
      | EmptyString => None
      end
  end
with parse_items (fuel : nat) (s : string) : option (list json * string) :=
  match fuel with
  | O => None
  | S fuel =>
      match parse_value fuel s with
      | Some (v, rest) =>
          match skip_ws rest with
          | String "," rest' =>
              match parse_items fuel rest' with
              | Some (vs, rest'') => Some (v :: vs, rest'')
              | None => None
              end
          | String "]" rest' => Some ([v], rest')
          | _ => None
          end
      | None => None
      end
  end
with parse_members (fuel : nat) (s : string)
    : option (list (string * json) * string) :=
  match fuel with
  | O => None
  | S fuel =>
      match skip_ws s with
      | String c rest =>
          if Ascii.eqb c quote then
            match parse_chars rest with
            | Some (k, rest') =>
                match skip_ws rest' with
                | String ":" rest'' =>
                    match parse_value fuel rest'' with
                    | Some (v, r) =>
                        match skip_ws r with
                        | String "," r' =>
                            match parse_members fuel r' with
                            | Some (ms, r'') => Some ((k, v) :: ms, r'')
                            | None => None
                            end
                        | String "}" r' => Some ([(k, v)], r')
                        | _ => None
                        end
                    | None => None
                    end
                | _ => None
                end
            | None => None
            end
          else None
      | EmptyString => None
      end
  end.

(** [JSON.parse(text)]: [None] when it throws a [SyntaxError]. *)
Definition JSON_parse (text : string) : option json :=
  match parse_value (2 * String.length text + 2) text with
  | Some (v, rest) =>
      match skip_ws rest with
      | EmptyString => Some v
      | _ => None
      end
  | None => None
  end.

(** [obj[k] !== undefined] on a parsed value. *)
Definition has_field (k : string) (v : json) : bool :=
  match v with
  | JObject ms => existsb (fun m => String.eqb (fst m) k) ms
  | _ => false
  end.

(** *** The composer *)

Definition getApproximateKey (hz : JS.number) : string :=
  if (hz <? 155)%float then "D3"
  else if (hz <? 165)%float then "Eb3"
  else if (hz <? 175)%float then "E3"
  else if (hz <? 185)%float then "F3"
  else if (hz <? 196)%float then "F#3"
  else if (hz <? 208)%float then "G3"
  else if (hz <? 220)%float then "Ab3"
  else "A3".

Definition getTargetBPM (beatFreq : JS.number) : string :=
  if (beatFreq <=? 4)%float then "30-50 BPM (Largo)"
  else if (beatFreq <=? 8)%float then "50-70 BPM (Adagio)"
  else "70-90 BPM (Andante)".

(** What is interpolated into the prompt of [generateLullaby]. *)
Record prompt := mkPrompt {
  prompt_carrier : JS.number;
  prompt_key : string;
  prompt_bpm : string;
  prompt_mood : string;
  prompt_variation : option string   (* "Evolve from previous track ..." *)
}.

Definition lullabyPrompt (mood : string) (previousContext : option string)
    (carrierFreq beatFreq : JS.number) : prompt :=
  {| prompt_carrier := carrierFreq;
     prompt_key := getApproximateKey carrierFreq;
     prompt_bpm := getTargetBPM beatFreq;
     prompt_mood := mood;
     prompt_variation :=
       match previousContext with
       | Some EmptyString | None => None
       | Some p => Some p
       end |}.

(** What [ai.models.generateContent] does: it throws (or rejects), or it
    answers with a response whose [text] may be [undefined]. *)
Inductive answer :=
  | Throws
  | Responds (text : option string).

(** The value [generateLullaby] resolves to, [None] for [null]. The promise
    never rejects: the body is one [try] whose [catch] returns [null]. *)
Definition generateLullaby (mood : string) (previousContext : option string)
    (carrierFreq beatFreq : option JS.number) (a : answer) : option json :=
  let carrierFreq := default 200%float carrierFreq in
  let beatFreq := default 4%float beatFreq in
  let _ := lullabyPrompt mood previousContext carrierFreq beatFreq in
  match a with
  | Throws => None
  | Responds text =>
      match text with
      | None | Some EmptyString => None
      | Some text =>
          match JSON_parse text with
          | Some JNull => None
          | Some v => Some v
          | None => None
          end
      end
  end.

(** The answers [generateLullaby] has no composition for. *)
Definition unusable (a : answer) : Prop :=
  match a with
  | Throws => True
  | Responds None => True
  | Responds (Some text) => text = EmptyString \/ JSON_parse text = None
  end.

(** The text [{"name":"x","bpm":60,"description":"d"}], an object without
    [notes]. *)
Definition without_notes : string :=
  let dq := String quote EmptyString in
  "{" ++ dq ++ "name" ++ dq ++ ":" ++ dq ++ "x" ++ dq ++ ","
  ++ dq ++ "bpm" ++ dq ++ ":60,"
  ++ dq ++ "description" ++ dq ++ ":" ++ dq ++ "d" ++ dq ++ "}".

End GeminiService.

(** ** [App.tsx]: the segment scheduler and the presets *)

Module App.

Local Open Scope string_scope.

Record Station := mkStation {
  station_id : string;
  station_name : string;
  carrier : JS.number;
  beat : JS.number;
  desc : string;
  mood : string
}.

Record SavedPreset := mkPreset {
  preset_id : string;
  preset_name : string;
  config : AgenticConfig;
  composition : Composition;
  date : JS.number
}.

(** The state of the component that the scheduler and the presets read.
    Its values have the shapes of their interfaces: a composition has a
    list of notes, and a note a name and its numbers. *)
Record state := mkState {
  isPlaying : bool;
  currentStation : Station;
  volNoise : JS.number;
  noise : NoiseType;                          (* [noiseType] *)
  current : option Composition;               (* [composition] *)
  nextComposition : option Composition;
  isGenerating : bool;
  library : list SavedPreset;
  showLibrary : bool;
  musicLoopRef : option nat                   (* [musicLoopRef.current] *)
}.

(** What a callback asks of React, of the engine and of the platform, in the
    order of the calls. A state setter takes effect at the next render: the
    callback goes on reading the values it captured. [Uncaught] ends the
    list when an exception leaves the callback: what follows in its source
    is not run. *)
Inductive effect :=
  | SetIsGenerating (b : bool)
  | SetComposition (c : option Composition)
  | SetNextComposition (c : option Composition)
  | GenerateLullaby (mood previousContext : string) (carrierFreq beatFreq : JS.number)
  | PlayComposition (notes : list NoteEvent)
  | ClearTimeout (timer : nat)
  | SetTimeout (ms : JS.number)
  | Uncaught.

(** [generateNextSegment] up to its [await]. *)
Definition generateNextSegment (st : state) : list effect :=
  let prevContext :=
    match current st with
    | Some c => name c
    | None => EmptyString
    end in
  [ SetIsGenerating true;
    GenerateLullaby (mood (currentStation st)) prevContext
      (carrier (currentStation st)) (beat (currentStation st)) ].

(** [generateNextSegment] after [generateLullaby] resolved with [newComp]. *)
Definition generateNextSegment_resolved (st : state)
    (newComp : option Composition) : list effect :=
  match newComp with
  | Some c =>
      match current st with
      | None => [SetComposition (Some c)]
      | Some _ => [SetNextComposition (Some c)]
      end
  | None => []
  end ++ [SetIsGenerating false].

(** [Math.max(...track.notes.map(n => n.startTime + n.duration)) || 15] *)
Definition maxDuration (track : Composition) : JS.number :=
  JS.or_else
    (JS.Math_max (map (fun n => (startTime n + duration n)%float) (notes track)))
    15%float.

Definition loopTimeMs (track : Composition) : JS.number :=
  (maxDuration track * 1000)%float.

(** One call of [playMusicLoop], on the state it captured, when the engine
    is in state [eng]. [audioEngine.playComposition] is not called in a
    [try]: when it throws, the exception leaves [playMusicLoop] before the
    pending timer is cleared and the next one armed. A composition of the
    model has the fields of the interface [Composition]. *)
Definition playMusicLoop (pow_approx : JS.number -> JS.number -> JS.number)
    (eng : AudioEngine.engine) (st : state) : list effect :=
  if negb (isPlaying st) then []
  else
    let track :=
      match nextComposition st with
      | Some n => Some n
      | None => current st
      end in
    match track with
    | Some track =>
        match nextComposition st with
        | Some n =>
            [SetComposition (Some n); SetNextComposition None]
            ++ generateNextSegment st
        | None =>
            if negb (isGenerating st) then generateNextSegment st else []
        end
        ++ [PlayComposition (notes track)]
        ++ (if AudioEngine.returned
                 (AudioEngine.playComposition pow_approx (notes track) eng)
            then
              match musicLoopRef st with
              | Some t => [ClearTimeout t]
              | None => []
              end
              ++ [SetTimeout (loopTimeMs track)]
            else [Uncaught])
    | None =>
        (if negb (isGenerating st) && negb (bool_decide (is_Some (current st)))
         then generateNextSegment st else [])
        ++ [SetTimeout 1000%float]
    end.

(** The delay of the tick a call arms, and the composer requests it fires. *)
Definition armed (effs : list effect) : list JS.number :=
  omap (fun e => match e with SetTimeout ms => Some ms | _ => None end) effs.

Definition requested_contexts (effs : list effect) : list string :=
  omap (fun e => match e with
                 | GenerateLullaby _ previousContext _ _ => Some previousContext
                 | _ => None
                 end) effs.

(** The state after a render applied the setters of [effs]. *)
Definition apply_effect (st : state) (e : effect) : state :=
  match e with
  | SetIsGenerating b =>
      mkState (isPlaying st) (currentStation st) (volNoise st) (noise st)
        (current st) (nextComposition st) b (library st) (showLibrary st)
        (musicLoopRef st)
  | SetComposition c =>
      mkState (isPlaying st) (currentStation st) (volNoise st) (noise st)
        c (nextComposition st) (isGenerating st) (library st) (showLibrary st)
        (musicLoopRef st)
  | SetNextComposition c =>
      mkState (isPlaying st) (currentStation st) (volNoise st) (noise st)
        (current st) c (isGenerating st) (library st) (showLibrary st)
        (musicLoopRef st)
  | _ => st
  end.

Definition render (st : state) (effs : list effect) : state :=
  fold_left apply_effect effs st.











Definition loadPreset (preset : SavedPreset) (st : state) : state :=
  mkState (isPlaying st)
    {| station_id := "saved";
       station_name := stationName (config preset);
       carrier := carrierFreq (config preset);
       beat := beatFreq (config preset);
       desc := "Desde Biblioteca";
       mood := musicPrompt (config preset) |}
    (volNoise st)
    (noiseType (config preset))
    (Some (composition preset))
    (nextComposition st) (isGenerating st) (library st)
    false
    (musicLoopRef st).

(** The first station of [STATIONS], which the component starts with, and a
    state in which a two-note composition is playing on it. *)
Definition delta_station : Station :=
  mkStation "delta" "Estación Profunda" 150 2.5 "Ondas Delta (1-3Hz)"
    "Deep sleep, cosmic, heavy slow pads".

Definition two_notes : Composition :=
  mkComposition "Drift" 40 (Some "D Major")
    [mkNote "D3" 8 0 0.5; mkNote "A3" 6.5 6 0.5] "slow pad" None.

Definition playing : state :=
  mkState true delta_station 0.15 BROWN (Some two_notes) None false [] false
    None.



End App.

(** ** The routing of the engine *)

Module Routing.

Import AudioEngine.

(** The fields of the mix bus and of the FX bus that [initContext] fills. *)
Definition bus_fields : list slot :=
  [masterGain; reverbNode; reverbGain; delayNode; delayGain].

(** No field is set before the context exists; once it exists, the buses
    exist. *)
Definition complete (s : engine) : Prop :=
  match refs s ctx with
  | Some _ => forall f, f ∈ bus_fields -> refs s f <> None
  | None => forall f, refs s f = None
  end.

(** The node in [this.f] is connected to input [i] of the node in
    [this.g], whenever both fields are set. *)
Definition linked (f g : slot) (i : nat) (s : engine) : Prop :=
  forall a b, refs s f = Some a -> refs s g = Some b -> mkEdge a b i ∈ edges s.

(** The variables that hold a node with a [start] method. *)
Definition startable (o : slot) : bool :=
  match o with
  | noiseSource | leftOsc | rightOsc | osc1 | osc2 => true
  | _ => false
  end.

(** No connection ends in a node that can be started. *)
Definition no_input (s : engine) : Prop :=
  forall e, e ∈ edges s ->
    node_at (dst e) (fun n => startable (origin n) = false) s.

(** No node is playing. *)
Definition silent (s : engine) : Prop :=
  forall i n, nodes s !! i = Some n -> run n <> Playing.

(** Every node that is playing has a path to node [d]. *)
Definition routed (d : nat) (s : engine) : Prop :=
  forall i n, nodes s !! i = Some n -> run n = Playing -> path s i d.

(** Every node that is playing has a path to the destination of the
    context; without a context nothing plays. *)
Definition audible (s : engine) : Prop :=
  match refs s ctx with
  | Some d => routed d s
  | None => silent s
  end.

(** The nodes created for [o] are the same in [s'] as in [s]. *)
Definition unchanged (o : slot) (s s' : engine) : Prop :=
  forall i n, origin n = o ->
    (nodes s' !! i = Some n <-> nodes s !! i = Some n).

(** Two states with the same settings: what is not part of the graph. *)
Definition same_settings (s' s : engine) : Prop :=
  baseNoiseVolume s' = baseNoiseVolume s /\ micStream s' = micStream s /\
  adaptiveInterval s' = adaptiveInterval s /\ isAdaptive s' = isAdaptive s /\
  currentTime s' = currentTime s /\ micRequests s' = micRequests s /\
  streams s' = streams s /\ timers s' = timers s /\ restores s' = restores s.

(** The calls that start or stop the sources of a variable. *)
Definition drives (e : event) (o : slot) : bool :=
  match e, o with
  | (StartNoise _ _ | StopNoise | StopAll), noiseSource => true
  | (StartBinaural _ _ _ | StopBinaural | StopAll), (leftOsc | rightOsc) => true
  | PlayComposition _, (osc1 | osc2) => true
  | _, _ => false
  end.

(** The connections of the buses. *)
Definition wired (s : engine) : Prop :=
  linked masterGain ctx 0 s /\
  linked reverbNode reverbGain 0 s /\ linked reverbGain masterGain 0 s /\
  linked delayNode delayGain 0 s /\ linked delayGain masterGain 0 s /\
  linked musicGain masterGain 0 s /\
  linked musicGain reverbNode 0 s /\ linked musicGain delayNode 0 s.

(** What holds of the routing in every state of the engine. *)
Definition sound (s : engine) : Prop :=
  complete s /\ wired s /\ no_input s /\ audible s.

(** What [playComposition] creates for a note. *)
Section Notes.

Variable pow_approx : JS.number -> JS.number -> JS.number.

Local Open Scope string_scope.



End Notes.

End Routing.

(** ** [App.tsx]: the audio sync effect and the agent *)

Module Playback.

Import App.

Local Open Scope string_scope.

(** The settings of the mixer that [state] does not hold. *)
Record mixer := mkMixer {
  volBinaural : JS.number;
  volMusic : JS.number;
  reverbMix : JS.number;
  delayMix : JS.number;
  isAdaptive : bool
}.

(** The calls of the engine among the effects of a callback. *)
Definition engine_calls (effs : list effect) : list AudioEngine.event :=
  omap (fun e => match e with
                 | PlayComposition notes => Some (AudioEngine.PlayComposition notes)
                 | _ => None
                 end) effs.

(** The note lists a callback hands to [playComposition]. *)
Definition played (effs : list effect) : list (list NoteEvent) :=
  omap (fun e => match e with
                 | PlayComposition notes => Some notes
                 | _ => None
                 end) effs.

(** The effect on [isPlaying], [currentStation], [noiseType], [reverbMix],
    [delayMix] and [isAdaptive]: the calls it makes on the engine, which is
    in state [eng] when the effect runs, with those of the [playMusicLoop]
    it runs last. *)
Definition audioSync (pow_approx : JS.number -> JS.number -> JS.number)
    (eng : AudioEngine.engine) (st : state) (m : mixer)
    : list AudioEngine.event :=
  if isPlaying st then
    let calls :=
      [ AudioEngine.Resume;
        AudioEngine.StartBinaural (carrier (currentStation st))
          (beat (currentStation st)) (volBinaural m);
        AudioEngine.StartNoise (noise st) (volNoise st);
        AudioEngine.SetMusicVolume (volMusic m);
        AudioEngine.SetReverbMix (reverbMix m);
        AudioEngine.SetDelayMix (delayMix m);
        AudioEngine.EnableAdaptiveNoise (isAdaptive m) ] in
    calls
    ++ engine_calls
         (playMusicLoop pow_approx
            (fold_left (AudioEngine.step pow_approx) calls eng) st)
  else [AudioEngine.Resume; AudioEngine.StopAll].

(** [musicLoopRef.current] is read when a callback runs, not when it was
    created. *)
Definition with_musicLoopRef (timer : option nat) (st : state) : state :=
  mkState (isPlaying st) (currentStation st) (volNoise st) (noise st)
    (current st) (nextComposition st) (isGenerating st) (library st)
    (showLibrary st) timer.


(** Whether an exception left the callback. *)
Definition uncaught (effs : list effect) : bool :=
  existsb (fun e => match e with Uncaught => true | _ => false end) effs.

(** The calls of [playMusicLoop] that a first call leads to through its
    timer. The function handed to [setTimeout] calls the [playMusicLoop] of
    the scope in which the running one was made, and that is the running
    one: every tick reads the state [st] the first call captured. Only
    [musicLoopRef.current], a ref, and the engine are read as they are
    when the tick runs. *)
Definition timer_tick (pow_approx : JS.number -> JS.number -> JS.number)
    (eng : AudioEngine.engine) (timer : option nat) (st : state)
    : list effect :=
  playMusicLoop pow_approx eng (with_musicLoopRef timer st).





(** The composition [playMusicLoop] plays on a state, if any. *)
Definition track (st : state) : option Composition :=
  match nextComposition st with
  | Some n => Some n
  | None => current st
  end.

(** The settings of the mixer the component starts with, a state with a
    prefetched segment and a pending tick, and a configuration of the
    agent. *)
Definition default_mixer : mixer := mkMixer 0.5 0.4 0.3 0.2 false.

Definition one_note : Composition :=
  mkComposition "Tide" 40 (Some "D Major") [mkNote "F#3" 10 0 0.5]
    "slow pad" None.

Definition prefetched : state :=
  mkState true delta_station 0.15 BROWN (Some two_notes) (Some one_note)
    false [] false (Some 1).


End Playback.

(** * Properties *)

(** ** Comparisons of JavaScript numbers *)

Module NumberFacts.

Local Open Scope float_scope.

Lemma SFcompare_antisym x y :
  SFcompare y x = option_map CompOpp (SFcompare x y).
Proof.
  destruct x as [sx|sx| |sx mx ex], y as [sy|sy| |sy my ey]; simpl; try done;
    try (by destruct sx); try (by destruct sy); try (by destruct sx, sy).
  destruct sx, sy; simpl; try done; f_equal.
  - rewrite (Z.compare_antisym ex ey). destruct (ex ?= ey)%Z; simpl; try done.
    by rewrite (Pos.compare_cont_antisym mx my Eq).
  - rewrite (Z.compare_antisym ex ey). destruct (ex ?= ey)%Z; simpl; try done.
    by rewrite (Pos.compare_cont_antisym mx my Eq).
Qed.

Lemma SFcompare_refl x : x <> S754_nan -> SFcompare x x = Some Eq.
Proof.
  destruct x as [s|s| |s m e]; simpl; try done; intros _.
  - by destruct s.
  - rewrite Z.compare_refl, Pos.compare_cont_refl. by destruct s.
Qed.

Lemma is_nan_spec x : PrimFloat.is_nan x = false <-> Prim2SF x <> S754_nan.
Proof.
  unfold PrimFloat.is_nan. rewrite FloatAxioms.eqb_spec. unfold SFeqb. split.
  - intros H E. rewrite E in H. done.
  - intros H. by rewrite SFcompare_refl.
Qed.

(** A number that compares with another is not [NaN]. *)
Lemma leb_true_not_nan x y :
  (x <=? y) = true -> PrimFloat.is_nan x = false /\ PrimFloat.is_nan y = false.
Proof.
  rewrite leb_spec, !is_nan_spec. unfold SFleb.
  destruct (Prim2SF x), (Prim2SF y); simpl; done.
Qed.

(** On numbers, [x <= y] is the negation of [y < x]. *)
Lemma leb_negb_ltb x y :
  PrimFloat.is_nan x = false -> PrimFloat.is_nan y = false ->
  (x <=? y) = negb (y <? x).
Proof.
  intros Hx%is_nan_spec Hy%is_nan_spec. rewrite leb_spec, ltb_spec.
  unfold SFleb, SFltb. rewrite (SFcompare_antisym (Prim2SF x) (Prim2SF y)).
  destruct (SFcompare (Prim2SF x) (Prim2SF y)) as [[]|] eqn:E; simpl; try done.
  destruct (Prim2SF x), (Prim2SF y); simpl in E; done.
Qed.

(** [Math.min(x, 0.8)] is never above [0.8]. *)
Lemma Math_min_cap x : (0.8 <? JS.Math_min [x; 0.8]) = false.
Proof.
  unfold JS.Math_min. cbn [existsb].
  destruct (PrimFloat.is_nan x) eqn:Hn; [done|].
  change (PrimFloat.is_nan 0.8 || false) with false. cbn [orb fold_left].
  unfold JS.min_step at 2.
  change (JS.is_pos_zero infinity) with false. rewrite andb_false_r.
  unfold JS.min_step. change (JS.is_neg_zero 0.8) with false. cbn [andb].
  destruct (x <? infinity) eqn:Hx.
  - destruct (0.8 <? x) eqn:H8; [done|exact H8].
  - done.
Qed.

End NumberFacts.

(** ** The graph of the audio engine *)

Module EngineFacts.

Import AudioEngine.

(** ** How the primitive operations act on the graph *)

Lemma keeps_keeps_kind g : keeps g -> keeps_kind g.
Proof. intros H n. destruct (H n) as (? & ? & ?). done. Qed.

Lemma keeps_set_value v : keeps (set_value v). Proof. done. Qed.
Lemma keeps_set_type t : keeps (set_type t). Proof. done. Qed.
Lemma keeps_set_Q v : keeps (set_Q v). Proof. done. Qed.
Lemma keeps_set_detune v : keeps (set_detune v). Proof. done. Qed.
Lemma keeps_set_loop b : keeps (set_loop b). Proof. done. Qed.
Lemma keeps_set_fftSize k : keeps (set_fftSize k). Proof. done. Qed.
Lemma keeps_schedule c : keeps (schedule c). Proof. done. Qed.

Create HintDb keeps.
#[export] Hint Resolve keeps_set_value keeps_set_type keeps_set_Q keeps_set_detune
  keeps_set_loop keeps_set_fftSize keeps_schedule : keeps.

Lemma starter_kind t : keeps_kind (starter t).
Proof. intros n. by destruct t. Qed.

Lemma starter_run t n : run (starter t n) = Playing.
Proof. by destruct t. Qed.

(** [nodes], [edges], [refs] and [next_id] after each operation. *)

Lemma lookup_create k o s i :
  nodes (create k o s) !! i =
  if decide (i = next_id s) then Some (fresh k o) else nodes s !! i.
Proof.
  unfold create, next_id. cbn. case_decide as E.
  - subst. by rewrite list_lookup_middle.
  - destruct (decide (i < length (nodes s))).
    + by rewrite lookup_app_l.
    + rewrite !lookup_ge_None_2; [done|lia|rewrite length_app; simpl; lia].
Qed.

Lemma lookup_update j g s i :
  nodes (update j g s) !! i =
  if decide (i = j) then g <$> nodes s !! i else nodes s !! i.
Proof.
  unfold update. cbn. case_decide as E.
  - subst. by rewrite list_lookup_alter_eq.
  - by rewrite list_lookup_alter_ne.
Qed.

Lemma next_id_create k o s : next_id (create k o s) = S (next_id s).
Proof. unfold next_id, create. cbn. rewrite length_app. simpl. lia. Qed.

Lemma next_id_update j g s : next_id (update j g s) = next_id s.
Proof. unfold next_id, update. cbn. by rewrite length_alter. Qed.

Lemma stop_cases a s :
  (stop a s = None /\
     forall n, nodes s !! a = Some n -> run n = Idle) \/
  (stop a s = Some (update a (set_run Ended) s) /\
     exists n, nodes s !! a = Some n /\ run n <> Idle).
Proof.
  unfold stop. destruct (nodes s !! a) as [n|] eqn:E.
  - destruct (run n) eqn:R.
    + left. split; [done|]. intros ? [= <-]. done.
    + right. split; [done|]. exists n. by rewrite R.
    + right. split; [done|]. exists n. by rewrite R.
  - left. done.
Qed.

Lemma keeps_kind_ended : keeps_kind (set_run Ended).
Proof. done. Qed.

(** The node lists a [try { stop; disconnect } catch {}] can leave. *)
Lemma try_stop_disconnect_cases a s :
  (try_stop_disconnect a s = s /\
     forall n, nodes s !! a = Some n -> run n = Idle) \/
  (try_stop_disconnect a s = disconnect a (update a (set_run Ended) s) /\
     exists n, nodes s !! a = Some n /\ run n <> Idle).
Proof.
  unfold try_stop_disconnect.
  destruct (stop_cases a s) as [[-> H]|[-> H]]; [by left|by right].
Qed.

(** ** Facts about single nodes *)

Lemma node_at_weaken a (P R : node -> Prop) s :
  (forall n, P n -> R n) -> node_at a P s -> node_at a R s.
Proof. intros H (n & ? & ?). exists n. eauto. Qed.

Lemma node_at_create_new k o (P : node -> Prop) s :
  P (fresh k o) -> node_at (next_id s) P (create k o s).
Proof.
  intros H. exists (fresh k o). rewrite lookup_create.
  case_decide; done.
Qed.

Lemma node_at_lt a P s : node_at a P s -> a < next_id s.
Proof. intros (n & H & _). by apply lookup_lt_Some in H. Qed.

Lemma node_at_create_old a k o P s :
  node_at a P s -> node_at a P (create k o s).
Proof.
  intros H. pose proof (node_at_lt _ _ _ H) as Hlt.
  destruct H as (n & H & HP). exists n. rewrite lookup_create.
  case_decide; [lia|done].
Qed.

Lemma node_at_update_same a g (P : node -> Prop) s :
  node_at a (fun n => P (g n)) s -> node_at a P (update a g s).
Proof.
  intros (n & H & HP). exists (g n). rewrite lookup_update, H.
  case_decide; done.
Qed.

Lemma node_at_update_other a b g (P : node -> Prop) s :
  a <> b -> node_at a P s -> node_at a P (update b g s).
Proof.
  intros Hne (n & H & HP). exists n. rewrite lookup_update.
  case_decide; done.
Qed.

Lemma node_at_update_stable a b g (P : node -> Prop) s :
  (forall n, P n -> P (g n)) -> node_at a P s -> node_at a P (update b g s).
Proof.
  intros Hg (n & H & HP). unfold node_at. rewrite lookup_update, H.
  case_decide; simpl; eauto.
Qed.

Lemma born_create_new k o s : born (next_id s) o (create k o s).
Proof. by apply node_at_create_new. Qed.

Lemma born_create_old a o k o' s : born a o s -> born a o (create k o' s).
Proof. apply node_at_create_old. Qed.

Lemma born_update a o b g s :
  keeps_kind g -> born a o s -> born a o (update b g s).
Proof.
  intros Hg. apply node_at_update_stable. intros n <-. apply Hg.
Qed.

Lemma born_try_stop a o b s :
  born a o s -> born a o (try_stop_disconnect b s).
Proof.
  intros H. destruct (try_stop_disconnect_cases b s) as [[-> _]|[-> _]]; [done|].
  by apply (born_update a o b (set_run Ended) s keeps_kind_ended).
Qed.

(** ** Invariants of the graph *)

(** *** [kinded] *)

Lemma kinded_create k o s :
  k = slot_kind o -> kinded s -> kinded (create k o s).
Proof.
  intros -> H i n. rewrite lookup_create. case_decide; [|by apply H].
  by intros [= <-].
Qed.

Lemma kinded_update b g s :
  keeps_kind g -> kinded s -> kinded (update b g s).
Proof.
  intros Hg H i n. rewrite lookup_update. case_decide; [|by apply H].
  destruct (nodes s !! i) as [m|] eqn:E; [|done]. intros [= <-].
  destruct (Hg m) as [-> ->]. by apply (H i).
Qed.

Lemma kinded_try_stop b s : kinded s -> kinded (try_stop_disconnect b s).
Proof.
  intros H. destruct (try_stop_disconnect_cases b s) as [[-> _]|[-> _]]; [done|].
  by apply (kinded_update b (set_run Ended) s keeps_kind_ended).
Qed.

(** *** [typed] *)

Lemma typed_create k o s : typed s -> typed (create k o s).
Proof. intros H f a E. apply node_at_create_old. by apply H. Qed.

Lemma typed_update b g s : keeps_kind g -> typed s -> typed (update b g s).
Proof. intros Hg H f a E. apply born_update; [done|]. by apply H. Qed.

Lemma typed_try_stop b s : typed s -> typed (try_stop_disconnect b s).
Proof.
  intros H. destruct (try_stop_disconnect_cases b s) as [[-> _]|[-> _]]; [done|].
  by apply (typed_update b (set_run Ended) s keeps_kind_ended).
Qed.

Lemma typed_set_ref_Some f a s :
  born a f s -> typed s -> typed (set_ref f (Some a) s).
Proof.
  intros Hb H g c. cbn. case_decide as E; [|apply H].
  subst. by intros [= <-].
Qed.

Lemma typed_set_ref_None f s : typed s -> typed (set_ref f None s).
Proof. intros H g c. cbn. case_decide; [done|apply H]. Qed.

(** *** [quiet] *)

Lemma quiet_create f k o s : quiet f s -> quiet f (create k o s).
Proof.
  intros H i n. rewrite lookup_create. case_decide; [|by apply H].
  by intros [= <-].
Qed.

Lemma quiet_update f b g s : keeps g -> quiet f s -> quiet f (update b g s).
Proof.
  intros Hg H i n. rewrite lookup_update. case_decide; [|by apply H].
  destruct (nodes s !! i) as [m|] eqn:E; [|done]. intros [= <-].
  destruct (Hg m) as (_ & -> & ->). by apply (H i).
Qed.

Lemma quiet_start f b o t s :
  born b o s -> o <> f -> quiet f s -> quiet f (update b (starter t) s).
Proof.
  intros (m & Eb & Ho) Hne H i n. rewrite lookup_update.
  case_decide as E; [|by apply H].
  subst i. rewrite Eb. intros [= <-].
  destruct (starter_kind t m) as [_ ->]. congruence.
Qed.

Lemma quiet_try_stop f b s : quiet f s -> quiet f (try_stop_disconnect b s).
Proof.
  intros H. destruct (try_stop_disconnect_cases b s) as [[-> _]|[-> _]]; [done|].
  intros i n. change (nodes (disconnect b ?x)) with (nodes x).
  rewrite lookup_update. case_decide; [|by apply H].
  destruct (nodes s !! i) as [m|]; [|done]. by intros [= <-].
Qed.

(** Stopping the source a field holds leaves no source of that field
    playing. *)
Lemma quiet_try_stop_ref f a s :
  exclusive f s -> refs s f = Some a -> quiet f (try_stop_disconnect a s).
Proof.
  intros H Ha.
  destruct (try_stop_disconnect_cases a s) as [[-> Hidle]|[-> _]].
  - intros i n Hi Ho Hr. pose proof (H i n Hi Ho Hr) as Hi'.
    assert (i = a) as -> by congruence.
    rewrite (Hidle n Hi) in Hr. done.
  - intros i n. change (nodes (disconnect a ?x)) with (nodes x).
    rewrite lookup_update. case_decide as E.
    + destruct (nodes s !! i) as [m|]; [|done]. by intros [= <-].
    + intros Hi Ho Hr. pose proof (H i n Hi Ho Hr). congruence.
Qed.

Lemma quiet_no_ref f s : exclusive f s -> refs s f = None -> quiet f s.
Proof. intros H Hf i n Hi Ho Hr. pose proof (H i n Hi Ho Hr). congruence. Qed.

(** *** [exclusive] *)

Lemma exclusive_quiet f s : quiet f s -> exclusive f s.
Proof. intros H i n Hi Ho Hr. by destruct (H i n Hi Ho). Qed.

Lemma exclusive_create f k o s : exclusive f s -> exclusive f (create k o s).
Proof.
  intros H i n. rewrite lookup_create. case_decide; [|by apply H].
  by intros [= <-].
Qed.

Lemma exclusive_update f b g s :
  keeps g -> exclusive f s -> exclusive f (update b g s).
Proof.
  intros Hg H i n. rewrite lookup_update. case_decide; [|by apply H].
  destruct (nodes s !! i) as [m|] eqn:E; [|done]. intros [= <-].
  destruct (Hg m) as (_ & -> & ->). by apply (H i).
Qed.

Lemma exclusive_start_other f b o t s :
  born b o s -> o <> f -> exclusive f s -> exclusive f (update b (starter t) s).
Proof.
  intros (m & Eb & Ho) Hne H i n. rewrite lookup_update.
  case_decide as E; [|by apply H].
  subst i. rewrite Eb. intros [= <-].
  destruct (starter_kind t m) as [_ ->]. congruence.
Qed.

Lemma exclusive_start_ref f a t s :
  refs s f = Some a -> quiet f s -> exclusive f (update a (starter t) s).
Proof.
  intros Ha H i n. rewrite lookup_update. case_decide as E.
  - subst. done.
  - intros Hi Ho Hr. by destruct (H i n Hi Ho).
Qed.

Lemma exclusive_try_stop f b s :
  exclusive f s -> exclusive f (try_stop_disconnect b s).
Proof.
  intros H. destruct (try_stop_disconnect_cases b s) as [[-> _]|[-> _]]; [done|].
  intros i n. change (nodes (disconnect b ?x)) with (nodes x).
  rewrite lookup_update. case_decide; [|by apply H].
  destruct (nodes s !! i) as [m|]; [|done]. by intros [= <-].
Qed.

Lemma exclusive_set_ref_other f g v s :
  g <> f -> exclusive f s -> exclusive f (set_ref g v s).
Proof.
  intros Hne H i n Hi Ho Hr. cbn. case_decide; [congruence|]. by apply (H i n).
Qed.

Lemma exclusive_set_ref f v s : quiet f s -> exclusive f (set_ref f v s).
Proof. intros H. by apply exclusive_quiet. Qed.

(** *** [live] *)

Lemma live_create f k o s : typed s -> live f s -> live f (create k o s).
Proof.
  intros Ht H a n Ha. rewrite lookup_create.
  pose proof (node_at_lt _ _ _ (Ht f a Ha)).
  case_decide; [lia|]. by apply H.
Qed.

Lemma live_update f b g s : keeps g -> live f s -> live f (update b g s).
Proof.
  intros Hg H a n Ha. rewrite lookup_update. case_decide; [|by apply H].
  destruct (nodes s !! a) as [m|] eqn:E; [|done]. intros [= <-].
  destruct (Hg m) as (_ & _ & ->). by apply (H a).
Qed.

Lemma live_start f b t s : live f s -> live f (update b (starter t) s).
Proof.
  intros H a n Ha. rewrite lookup_update. case_decide; [|by apply H].
  destruct (nodes s !! a) as [m|] eqn:E; [|done]. intros [= <-].
  apply starter_run.
Qed.

Lemma live_start_ref f a t s :
  refs s f = Some a -> live f (update a (starter t) s).
Proof.
  intros Ha c n Hc. change (refs (update a (starter t) s)) with (refs s) in Hc.
  assert (c = a) as -> by congruence.
  rewrite lookup_update. case_decide; [|done].
  destruct (nodes s !! a) as [m|] eqn:E; [|done]. intros [= <-].
  apply starter_run.
Qed.

Lemma live_try_stop_ref f g b s :
  typed s -> refs s g = Some b -> g <> f ->
  live f s -> live f (try_stop_disconnect b s).
Proof.
  intros Ht Hb Hne H.
  destruct (try_stop_disconnect_cases b s) as [[-> _]|[-> _]]; [done|].
  intros a n Ha. change (nodes (disconnect b ?x)) with (nodes x).
  rewrite lookup_update. case_decide as E; [|by apply H].
  subst a. destruct (Ht f b Ha) as (m & Em & Hm).
  destruct (Ht g b Hb) as (m' & Em' & Hm'). congruence.
Qed.

Lemma live_set_ref_other f g v s : g <> f -> live f s -> live f (set_ref g v s).
Proof.
  intros Hne H a n. cbn. case_decide; [congruence|]. apply H.
Qed.

Lemma live_set_ref_None f s : live f (set_ref f None s).
Proof. intros a n. cbn. case_decide; done. Qed.

(** *** [mic_isolated] *)

Lemma mic_isolated_create k o s : mic_isolated s -> mic_isolated (create k o s).
Proof.
  intros H e He. destruct (H e He) as (n & Hn & Hok & Hmic).
  apply node_at_create_old. exists n. split; [done|]. split; [done|].
  intros Ho. apply node_at_create_old. exact (Hmic Ho).
Qed.

Lemma mic_isolated_update b g s :
  keeps_kind g -> mic_isolated s -> mic_isolated (update b g s).
Proof.
  intros Hg H e He. destruct (H e He) as (n & Hn & Hok & Hmic).
  unfold node_at. rewrite lookup_update, Hn.
  assert (forall m, origin m = origin n ->
            origin m <> micAnalyser /\
            (origin m = micSource -> born (dst e) micAnalyser (update b g s))) as Hm.
  { intros m Em. rewrite Em. split; [done|]. intros Ho.
    apply born_update; auto. }
  case_decide; simpl; eexists; split; try done; apply Hm; [apply Hg|done].
Qed.

Lemma mic_isolated_connect a b i o s :
  born a o s -> o <> micSource -> o <> micAnalyser ->
  mic_isolated s -> mic_isolated (connect a b i s).
Proof.
  intros (n & Hn & Ho) H1 H2 H e. cbn. rewrite elem_of_app, list_elem_of_singleton.
  intros [He| ->]; [by apply H|]. cbn. exists n. split; [done|]. subst o. done.
Qed.

Lemma mic_isolated_connect_mic a b i s :
  born a micSource s -> born b micAnalyser s ->
  mic_isolated s -> mic_isolated (connect a b i s).
Proof.
  intros (n & Hn & Ho) Hb H e. cbn. rewrite elem_of_app, list_elem_of_singleton.
  intros [He| ->]; [by apply H|]. cbn. exists n. split; [done|].
  split; [congruence|done].
Qed.

Lemma mic_isolated_disconnect a s : mic_isolated s -> mic_isolated (disconnect a s).
Proof.
  intros H e. cbn. rewrite list_elem_of_filter. intros [_ He]. by apply H.
Qed.

Lemma mic_isolated_try_stop b s :
  mic_isolated s -> mic_isolated (try_stop_disconnect b s).
Proof.
  intros H. destruct (try_stop_disconnect_cases b s) as [[-> _]|[-> _]]; [done|].
  apply mic_isolated_disconnect.
  by apply (mic_isolated_update b (set_run Ended) s keeps_kind_ended).
Qed.

(** *** Operations that leave part of the state alone *)

Lemma same_graph_baseNoiseVolume v s : same_graph (set_baseNoiseVolume v s) s.
Proof. done. Qed.
Lemma same_graph_micStream v s : same_graph (set_micStream v s) s.
Proof. done. Qed.
Lemma same_graph_adaptiveInterval v s : same_graph (set_adaptiveInterval v s) s.
Proof. done. Qed.
Lemma same_graph_isAdaptive v s : same_graph (set_isAdaptive v s) s.
Proof. done. Qed.
Lemma same_graph_currentTime v s : same_graph (set_currentTime v s) s.
Proof. done. Qed.
Lemma same_graph_micRequests v s : same_graph (set_micRequests v s) s.
Proof. done. Qed.
Lemma same_graph_streams v s : same_graph (set_streams v s) s.
Proof. done. Qed.
Lemma same_graph_timers v s : same_graph (set_timers v s) s.
Proof. done. Qed.
Lemma same_graph_restores v s : same_graph (set_restores v s) s.
Proof. done. Qed.

Lemma nodes_connect a b i s : nodes (connect a b i s) = nodes s.
Proof. done. Qed.
Lemma nodes_disconnect a s : nodes (disconnect a s) = nodes s.
Proof. done. Qed.
Lemma nodes_set_ref f v s : nodes (set_ref f v s) = nodes s.
Proof. done. Qed.
Lemma edges_set_ref f v s : edges (set_ref f v s) = edges s.
Proof. done. Qed.

Lemma born_ext a o s s' : nodes s' = nodes s -> born a o s -> born a o s'.
Proof. unfold born, node_at. by intros ->. Qed.

Lemma kinded_ext s s' : nodes s' = nodes s -> kinded s -> kinded s'.
Proof. unfold kinded. by intros ->. Qed.

Lemma quiet_ext f s s' : nodes s' = nodes s -> quiet f s -> quiet f s'.
Proof. unfold quiet. by intros ->. Qed.

Lemma typed_ext s s' :
  nodes s' = nodes s -> refs s' = refs s -> typed s -> typed s'.
Proof. unfold typed, born, node_at. by intros -> ->. Qed.

Lemma exclusive_ext f s s' :
  nodes s' = nodes s -> refs s' = refs s -> exclusive f s -> exclusive f s'.
Proof. unfold exclusive. by intros -> ->. Qed.

Lemma live_ext f s s' :
  nodes s' = nodes s -> refs s' = refs s -> live f s -> live f s'.
Proof. unfold live. by intros -> ->. Qed.

Lemma mic_isolated_ext s s' :
  nodes s' = nodes s -> edges s' = edges s ->
  mic_isolated s -> mic_isolated s'.
Proof. unfold mic_isolated, born, node_at. by intros -> ->. Qed.

(** ** The fields after each operation *)

Lemma refs_try_stop b s : refs (try_stop_disconnect b s) = refs s.
Proof.
  by destruct (try_stop_disconnect_cases b s) as [[-> _]|[-> _]].
Qed.

Lemma refs_connect_ref a f i s : refs (connect_ref a f i s) = refs s.
Proof. unfold connect_ref. by destruct (refs s f). Qed.

Lemma refs_create k o s : refs (create k o s) = refs s. Proof. done. Qed.
Lemma refs_update b g s : refs (update b g s) = refs s. Proof. done. Qed.
Lemma refs_connect a b i s : refs (connect a b i s) = refs s. Proof. done. Qed.
Lemma refs_disconnect a s : refs (disconnect a s) = refs s. Proof. done. Qed.
Lemma refs_set_ref f v s g :
  refs (set_ref f v s) g = if decide (g = f) then v else refs s g.
Proof. done. Qed.

Lemma next_id_try_stop b s : next_id (try_stop_disconnect b s) = next_id s.
Proof.
  destruct (try_stop_disconnect_cases b s) as [[-> _]|[-> _]]; [done|].
  apply next_id_update.
Qed.

Lemma next_id_connect a b i s : next_id (connect a b i s) = next_id s.
Proof. done. Qed.
Lemma next_id_set_ref f v s : next_id (set_ref f v s) = next_id s.
Proof. done. Qed.

Create Rewrite HintDb eng.
#[export] Hint Rewrite refs_try_stop refs_connect_ref refs_create refs_update
  refs_connect refs_disconnect refs_set_ref
  next_id_create next_id_update next_id_try_stop next_id_connect
  next_id_set_ref : eng.

(** ** Stepping an invariant back through a method body *)

(** A method body is brought into a chain of operations: the ids of new
    nodes are named, the [let]s of states are substituted, and the [match]es
    are decided by cases. *)
Ltac no_binder t :=
  lazymatch t with
  | context [match _ with _ => _ end] => fail
  | context [let _ := _ in _] => fail
  | _ => idtac
  end.

Ltac simp_state :=
  repeat first
    [ progress cbv beta
    | match goal with
      | |- context C [state_of (Returned ?s)] =>
          let g := context C [s] in change g
      | |- context C [state_of (Threw ?s)] =>
          let g := context C [s] in change g
      | |- context C [let x := next_id ?s in @?b x] =>
          no_binder s;
          let d := fresh "id" in
          pose (d := next_id s);
          let g := context C [b d] in change g
      | |- context C [let x := ?v in @?b x] =>
          no_binder v;
          let g := context C [b v] in change g
      | |- context [match ?x with _ => _ end] =>
          no_binder x; destruct x eqn:?
      end ].

(** Decides the comparisons of field names that reading a field leaves. *)
Ltac decide_slots :=
  repeat match goal with
  | |- context [decide (?a = ?b)] =>
      destruct (decide (a = b)) as [?|?]; [try discriminate | try congruence]
  end.

Ltac solve_refs :=
  first [ eassumption
        | autorewrite with eng; decide_slots;
          lazymatch goal with
          | |- Some ?x = Some ?y => constr_eq x y; reflexivity
          | |- _ => eassumption
          end ].

Ltac solve_keeps :=
  first [ solve [auto with keeps]
        | apply keeps_keeps_kind; solve [auto with keeps]
        | apply starter_kind
        | apply keeps_kind_ended ].

(** [a] is the id that [create] gives in state [s]. *)
Ltac is_next_id a s :=
  let b := eval cbv delta [a] in a in
  lazymatch b with
  | next_id ?s' => constr_eq s' s
  end.

Ltac solve_born :=
  repeat lazymatch goal with
  | |- born ?a _ (create _ _ ?s) =>
      first [is_next_id a s; apply born_create_new | apply born_create_old]
  | |- born _ _ (update _ _ _) => apply born_update; [solve_keeps|]
  | |- born _ _ (try_stop_disconnect _ _) => apply born_try_stop
  | |- born _ _ (set_ref _ _ _) => eapply born_ext; [apply nodes_set_ref|]
  | |- born _ _ (connect _ _ _ _) => eapply born_ext; [apply nodes_connect|]
  | |- born _ _ (disconnect _ _) => eapply born_ext; [apply nodes_disconnect|]
  | |- born _ _ (set_baseNoiseVolume _ _) =>
      eapply born_ext; [apply same_graph_baseNoiseVolume|]
  | |- born _ _ (set_isAdaptive _ _) =>
      eapply born_ext; [apply same_graph_isAdaptive|]
  | |- born _ _ (set_micStream _ _) =>
      eapply born_ext; [apply same_graph_micStream|]
  | |- born _ _ (set_micRequests _ _) =>
      eapply born_ext; [apply same_graph_micRequests|]
  | |- born _ _ (set_streams _ _) =>
      eapply born_ext; [apply same_graph_streams|]
  | |- born _ _ _ => eassumption
  end.

Lemma edges_create k o s : edges (create k o s) = edges s. Proof. done. Qed.
Lemma edges_update b g s : edges (update b g s) = edges s. Proof. done. Qed.
Lemma edges_connect a b i s :
  edges (connect a b i s) = edges s ++ [mkEdge a b i].
Proof. done. Qed.
Lemma edges_disconnect a s :
  edges (disconnect a s) = filter (fun e => src e ≠ a) (edges s).
Proof. done. Qed.

Lemma refs_set_baseNoiseVolume v s : refs (set_baseNoiseVolume v s) = refs s.
Proof. done. Qed.
Lemma next_id_set_baseNoiseVolume v s :
  next_id (set_baseNoiseVolume v s) = next_id s.
Proof. done. Qed.
Lemma nodes_set_baseNoiseVolume v s :
  nodes (set_baseNoiseVolume v s) = nodes s.
Proof. done. Qed.
Lemma edges_set_baseNoiseVolume v s :
  edges (set_baseNoiseVolume v s) = edges s.
Proof. done. Qed.

Lemma baseNoiseVolume_set v s : baseNoiseVolume (set_baseNoiseVolume v s) = v.
Proof. done. Qed.
Lemma baseNoiseVolume_set_ref f v s :
  baseNoiseVolume (set_ref f v s) = baseNoiseVolume s.
Proof. done. Qed.
Lemma baseNoiseVolume_try_stop a s :
  baseNoiseVolume (try_stop_disconnect a s) = baseNoiseVolume s.
Proof. by destruct (try_stop_disconnect_cases a s) as [[-> _]|[-> _]]. Qed.

#[export] Hint Rewrite edges_create edges_update edges_connect edges_set_ref
  refs_set_baseNoiseVolume next_id_set_baseNoiseVolume
  edges_set_baseNoiseVolume
  baseNoiseVolume_set baseNoiseVolume_set_ref baseNoiseVolume_try_stop : eng.

(** *** Counting the nodes of a kind *)

Lemma length_filter_alter {A} (P : A -> Prop) `{!forall x, Decision (P x)}
    (g : A -> A) b (l : list A) :
  (forall x, P (g x) <-> P x) ->
  length (filter P (alter g b l)) = length (filter P l).
Proof.
  intros Hg. revert b. induction l as [|x l IH]; intros b; [done|].
  destruct b as [|b]; simpl.
  - rewrite !filter_cons. pose proof (Hg x).
    destruct (decide (P (g x))); destruct (decide (P x)); simpl;
      try done; tauto.
  - change (alter g (S b) (x :: l)) with (x :: alter g b l).
    rewrite !filter_cons. destruct (decide (P x)); simpl;
      [f_equal|]; apply IH.
Qed.

Lemma count_kind_create k k' o s :
  k' <> k -> count_kind k (create k' o s) = count_kind k s.
Proof.
  intros Hne. unfold count_kind.
  change (nodes (create k' o s)) with (nodes s ++ [fresh k' o]).
  rewrite filter_app, length_app, filter_cons, filter_nil.
  destruct (decide _); [done|]. simpl. lia.
Qed.

Lemma count_kind_update k b g s :
  keeps_kind g -> count_kind k (update b g s) = count_kind k s.
Proof.
  intros Hg. unfold count_kind.
  change (nodes (update b g s)) with (alter g b (nodes s)).
  apply length_filter_alter. intros n. by destruct (Hg n) as [-> _].
Qed.

Lemma count_kind_try_stop k b s :
  count_kind k (try_stop_disconnect b s) = count_kind k s.
Proof.
  destruct (try_stop_disconnect_cases b s) as [[-> _]|[-> _]]; [done|].
  apply (count_kind_update k b (set_run Ended) s keeps_kind_ended).
Qed.

Lemma count_kind_ext k s s' : nodes s' = nodes s -> count_kind k s' = count_kind k s.
Proof. unfold count_kind. by intros ->. Qed.

#[global] Opaque create update connect disconnect set_ref try_stop_disconnect
  next_id set_baseNoiseVolume set_micStream set_adaptiveInterval
  set_isAdaptive set_currentTime set_micRequests set_streams set_timers
  set_restores.

(** An invariant passes an operation that leaves the parts it reads alone:
    [Hn], [He] and [Hr] say that the nodes, the connections and the fields
    are the same. *)
Ltac frame Hn He Hr :=
  lazymatch goal with
  | |- kinded _ => eapply kinded_ext; [exact Hn|]
  | |- quiet _ _ => eapply quiet_ext; [exact Hn|]
  | |- typed _ => eapply typed_ext; [exact Hn|exact Hr|]
  | |- exclusive _ _ => eapply exclusive_ext; [exact Hn|exact Hr|]
  | |- live _ _ => eapply live_ext; [exact Hn|exact Hr|]
  | |- mic_isolated _ => eapply mic_isolated_ext; [exact Hn|exact He|]
  end.

Ltac frame_all H :=
  frame (proj1 H) (proj1 (proj2 H)) (proj2 (proj2 H)).

(** One step back through the outermost operation of the state. *)
Ltac back_main :=
  lazymatch goal with
  | |- _ (set_baseNoiseVolume ?v ?s) => frame_all (same_graph_baseNoiseVolume v s)
  | |- _ (set_micStream ?v ?s) => frame_all (same_graph_micStream v s)
  | |- _ (set_adaptiveInterval ?v ?s) => frame_all (same_graph_adaptiveInterval v s)
  | |- _ (set_isAdaptive ?v ?s) => frame_all (same_graph_isAdaptive v s)
  | |- _ (set_currentTime ?v ?s) => frame_all (same_graph_currentTime v s)
  | |- _ (set_micRequests ?v ?s) => frame_all (same_graph_micRequests v s)
  | |- _ (set_streams ?v ?s) => frame_all (same_graph_streams v s)
  | |- _ (set_timers ?v ?s) => frame_all (same_graph_timers v s)
  | |- _ (set_restores ?v ?s) => frame_all (same_graph_restores v s)
  | |- mic_isolated (create _ _ _) => apply mic_isolated_create
  | |- mic_isolated (update _ _ _) => apply mic_isolated_update; [solve_keeps|]
  | |- mic_isolated (connect _ _ _ _) =>
      first [ eapply mic_isolated_connect;
                [solve [solve_born] | discriminate | discriminate | ]
            | apply mic_isolated_connect_mic;
                [solve [solve_born] | solve [solve_born] | ] ]
  | |- mic_isolated (disconnect _ _) => apply mic_isolated_disconnect
  | |- mic_isolated (try_stop_disconnect _ _) => apply mic_isolated_try_stop
  | |- kinded (create _ _ _) => apply kinded_create; [reflexivity|]
  | |- kinded (update _ _ _) => apply kinded_update; [solve_keeps|]
  | |- kinded (try_stop_disconnect _ _) => apply kinded_try_stop
  | |- typed (create _ _ _) => apply typed_create
  | |- typed (update _ _ _) => apply typed_update; [solve_keeps|]
  | |- typed (try_stop_disconnect _ _) => apply typed_try_stop
  | |- typed (set_ref _ (Some _) _) =>
      apply typed_set_ref_Some; [solve [solve_born]|]
  | |- typed (set_ref _ None _) => apply typed_set_ref_None
  | |- quiet _ (create _ _ _) => apply quiet_create
  | |- quiet _ (update _ (starter _) _) =>
      eapply quiet_start; [solve [solve_born] | discriminate | ]
  | |- quiet _ (update _ _ _) => apply quiet_update; [solve_keeps|]
  | |- quiet _ (try_stop_disconnect _ _) =>
      first [ apply quiet_try_stop_ref; [|eassumption]
            | apply quiet_try_stop ]
  | |- exclusive _ (create _ _ _) => apply exclusive_create
  | |- exclusive _ (update _ (starter _) _) =>
      first [ eapply exclusive_start_other;
                [solve [solve_born] | discriminate | ]
            | apply exclusive_start_ref; [solve_refs|] ]
  | |- exclusive _ (update _ _ _) => apply exclusive_update; [solve_keeps|]
  | |- exclusive _ (try_stop_disconnect _ _) => apply exclusive_try_stop
  | |- exclusive ?f (set_ref ?f _ _) => apply exclusive_set_ref
  | |- exclusive _ (set_ref _ _ _) =>
      apply exclusive_set_ref_other; [discriminate|]
  | |- live _ (create _ _ _) => apply live_create
  | |- live _ (update _ (starter _) _) =>
      first [ apply live_start_ref; solve_refs | apply live_start ]
  | |- live _ (update _ _ _) => apply live_update; [solve_keeps|]
  | |- live _ (try_stop_disconnect _ _) =>
      eapply live_try_stop_ref; [ | eassumption | discriminate | ]
  | |- live ?f (set_ref ?f None _) => apply live_set_ref_None
  | |- live _ (set_ref _ _ _) => apply live_set_ref_other; [discriminate|]
  | |- _ (set_ref ?f ?v ?s) =>
      frame (nodes_set_ref f v s) (edges_set_ref f v s) I
  | |- _ (connect ?a ?b ?i ?s) =>
      frame (nodes_connect a b i s) I (refs_connect a b i s)
  | |- _ (disconnect ?a ?s) =>
      frame (nodes_disconnect a s) I (refs_disconnect a s)
  | |- _ => assumption
  end.

Ltac back :=
  lazymatch goal with
  | |- quiet _ _ =>
      first [ assumption
            | apply quiet_no_ref; [|eassumption]
            | back_main ]
  | |- _ => back_main
  end.

Ltac inv_intro :=
  let H := fresh "Hinv" in
  intros H;
  pose proof H as (Hk & Ht & Hm & [Hn1 Hn2] & [Hl1 Hl2] & [Hr1 Hr2]).

Ltac inv_solve :=
  cbv beta delta [start stop_at setTargetAtTime connect_ref];
  simp_state;
  unfold inv; repeat apply conj; repeat back.

Lemma inv_init : inv init.
Proof.
  unfold inv, kinded, typed, mic_isolated, exclusive, live. cbn.
  repeat apply conj; intros; try done.
  by apply elem_of_nil in H.
Qed.

Lemma inv_initContext s : inv s -> inv (initContext s).
Proof. inv_intro. cbv beta delta [initContext]. inv_solve. Qed.

(** [initContext] leaves the fields of the sources alone. *)
Lemma refs_initContext f s :
  source_slot f = true -> refs (initContext s) f = refs s f.
Proof.
  intros Hf. cbv beta delta [initContext]. destruct (refs s ctx); [done|].
  cbv zeta. autorewrite with eng.
  destruct f; try discriminate Hf; reflexivity.
Qed.

Lemma count_kind_initContext s :
  count_kind BufferSource (initContext s) = count_kind BufferSource s.
Proof.
  cbv beta delta [initContext]. destruct (refs s ctx); [done|]. cbv zeta.
  repeat first
    [ rewrite count_kind_create by discriminate
    | rewrite count_kind_update by solve_keeps
    | rewrite (count_kind_ext _ _ _ (nodes_set_ref _ _ _))
    | rewrite (count_kind_ext _ _ _ (nodes_connect _ _ _ _)) ].
  done.
Qed.

(** [initContext] leaves a context. *)
Lemma initContext_ctx s : refs (initContext s) ctx <> None.
Proof.
  cbv beta delta [initContext]. destruct (refs s ctx) eqn:E; [congruence|].
  cbv zeta. autorewrite with eng. decide_slots; done.
Qed.

#[global] Opaque initContext.

(** The methods start from the state [initContext] leaves. *)
Ltac inv_intro_ctx :=
  inv_intro;
  lazymatch goal with
  | H : inv ?s |- _ =>
      pose proof (inv_initContext s H)
        as (Hk' & Ht' & Hm' & [Hn1' Hn2'] & [Hl1' Hl2'] & [Hr1' Hr2'])
  end.

Lemma inv_stopNoise s : inv s -> inv (stopNoise s).
Proof. inv_intro. cbv beta delta [stopNoise]. inv_solve. Qed.

Lemma inv_stopBinaural s : inv s -> inv (stopBinaural s).
Proof. inv_intro. cbv beta delta [stopBinaural]. inv_solve. Qed.

Lemma inv_startNoise type volume s : inv s -> inv (startNoise type volume s).
Proof. inv_intro_ctx. cbv beta delta [startNoise stopNoise]. inv_solve. Qed.

Lemma inv_startBinaural c b v s : inv s -> inv (startBinaural c b v s).
Proof. inv_intro_ctx. cbv beta delta [startBinaural stopBinaural]. inv_solve. Qed.

Lemma inv_stopAll s : inv s -> inv (stopAll s).
Proof.
  inv_intro.
  cbv beta delta [stopAll stopBinaural stopNoise stopAdaptiveLoop].
  inv_solve.
Qed.

Lemma inv_enableAdaptiveNoise_granted s :
  inv s -> inv (enableAdaptiveNoise_granted s).
Proof.
  inv_intro_ctx.
  cbv beta delta [enableAdaptiveNoise_granted startAdaptiveLoop].
  inv_solve.
Qed.

Lemma inv_same_graph s s' : same_graph s' s -> inv s -> inv s'.
Proof.
  intros (Hn & He & Hr) (Hk & Ht & Hm & [Hn1 Hn2] & [Hl1 Hl2] & [Hr1 Hr2]).
  unfold inv; repeat apply conj; frame Hn He Hr; assumption.
Qed.

Lemma inv_enableAdaptiveNoise enable s :
  inv s -> inv (enableAdaptiveNoise enable s).
Proof.
  intros H.
  assert (inv (set_isAdaptive enable s)) as H'
    by (eapply inv_same_graph; [apply same_graph_isAdaptive|done]).
  cbv beta delta [enableAdaptiveNoise]. cbv zeta. destruct enable.
  - destruct (micStream _).
    + by apply inv_enableAdaptiveNoise_granted.
    + eapply inv_same_graph; [apply same_graph_micRequests|done].
  - revert H'. generalize (set_isAdaptive false s). clear H. intros s'.
    inv_intro. cbv beta delta [stopAdaptiveLoop updateNoiseGain]. inv_solve.
Qed.

Lemma inv_micGranted s : inv s -> inv (micGranted s).
Proof.
  intros H. unfold micGranted. destruct (micRequests s); [done|].
  cbv zeta. apply inv_enableAdaptiveNoise_granted.
  eapply inv_same_graph; [apply same_graph_micStream|].
  eapply inv_same_graph; [apply same_graph_streams|].
  eapply inv_same_graph; [apply same_graph_micRequests|done].
Qed.

Lemma inv_micDenied s : inv s -> inv (micDenied s).
Proof.
  intros H. unfold micDenied. destruct (micRequests s); [done|].
  eapply inv_same_graph; [apply same_graph_isAdaptive|].
  eapply inv_same_graph; [apply same_graph_micRequests|done].
Qed.

Lemma inv_adaptiveCallback data s : inv s -> inv (adaptiveCallback data s).
Proof. inv_intro. cbv beta delta [adaptiveCallback]. inv_solve. Qed.

Lemma inv_setNoiseVolume val s : inv s -> inv (setNoiseVolume val s).
Proof. inv_intro. cbv beta delta [setNoiseVolume updateNoiseGain]. inv_solve. Qed.

Lemma inv_setMusicVolume val s : inv s -> inv (setMusicVolume val s).
Proof. inv_intro. cbv beta delta [setMusicVolume]. inv_solve. Qed.

Lemma inv_setReverbMix val s : inv s -> inv (setReverbMix val s).
Proof. inv_intro. cbv beta delta [setReverbMix]. inv_solve. Qed.

Lemma inv_setDelayMix val s : inv s -> inv (setDelayMix val s).
Proof. inv_intro. cbv beta delta [setDelayMix]. inv_solve. Qed.

Lemma inv_setBinauralVolume val s : inv s -> inv (setBinauralVolume val s).
Proof. inv_intro. cbv beta delta [setBinauralVolume]. inv_solve. Qed.

Lemma inv_restoreMaster s : inv s -> inv (restoreMaster s).
Proof. inv_intro. cbv beta delta [restoreMaster]. inv_solve. Qed.

Section WithPow.

Variable pow_approx : JS.number -> JS.number -> JS.number.

Lemma inv_playNote now s n :
  inv s -> inv (state_of (playNote pow_approx now s n)).
Proof. inv_intro. cbv beta delta [playNote]. inv_solve. Qed.

Lemma inv_playNotes now notes s :
  inv s -> inv (state_of (playNotes pow_approx now notes s)).
Proof.
  revert s. induction notes as [|n notes IH]; intros s H; [done|].
  simpl. pose proof (inv_playNote now s n H) as H'.
  destruct (playNote pow_approx now s n); [by apply IH|done].
Qed.

Lemma inv_playComposition notes s :
  inv s -> inv (state_of (playComposition pow_approx notes s)).
Proof.
  inv_intro_ctx. cbv beta delta [playComposition].
  cbv beta delta [start stop_at setTargetAtTime connect_ref].
  simp_state; try apply inv_playNotes;
  unfold inv; repeat apply conj; repeat back.
Qed.

Lemma inv_step s e : inv s -> inv (step pow_approx s e).
Proof.
  intros H. destruct e; simpl.
  - by apply inv_initContext.
  - by apply inv_enableAdaptiveNoise.
  - by apply inv_micGranted.
  - by apply inv_micDenied.
  - destruct (adaptiveInterval s); [by apply inv_adaptiveCallback|done].
  - by apply inv_setNoiseVolume.
  - by apply inv_startNoise.
  - by apply inv_stopNoise.
  - by apply inv_setMusicVolume.
  - by apply inv_playComposition.
  - by apply inv_setReverbMix.
  - by apply inv_setDelayMix.
  - by apply inv_setBinauralVolume.
  - by apply inv_startBinaural.
  - by apply inv_stopBinaural.
  - by apply inv_stopAll.
  - by apply inv_restoreMaster.
  - eapply inv_same_graph; [apply same_graph_currentTime|done].
Qed.

Lemma inv_steps evs s : inv s -> inv (fold_left (step pow_approx) evs s).
Proof.
  revert s. induction evs as [|e evs IH]; intros s H; [done|].
  simpl. apply IH. by apply inv_step.
Qed.

Lemma inv_reachable s : reachable pow_approx s -> inv s.
Proof. intros [evs ->]. apply inv_steps, inv_init. Qed.

End WithPow.

(** ** The sources that are playing *)

Lemma elem_of_positions {A} (p : A -> bool) i l j :
  j ∈ positions p i l <->
  exists x, i <= j /\ l !! (j - i) = Some x /\ p x = true.
Proof.
  revert i. induction l as [|y l IH]; intros i; simpl.
  - split; [by intros ?%elem_of_nil|]. by intros (x & _ & ? & _).
  - assert (j ∈ positions p (S i) l <->
            exists x, i <= j /\ j <> i /\ (y :: l) !! (j - i) = Some x /\ p x = true)
      as Htail.
    { rewrite IH. split.
      - intros (x & Hle & Hx & Hp). exists x. repeat split; try lia; [|done].
        replace (j - i) with (S (j - S i)) by lia. done.
      - intros (x & Hle & Hne & Hx & Hp). exists x. repeat split; try lia; [|done].
        replace (j - i) with (S (j - S i)) in Hx by lia. done. }
    destruct (p y) eqn:Hy.
    + rewrite elem_of_cons, Htail. split.
      * intros [->|(x & ? & ? & ? & ?)]; [|by eauto].
        exists y. rewrite Nat.sub_diag. done.
      * intros (x & Hle & Hx & Hp).
        destruct (decide (j = i)) as [->|]; [by left|right; eauto].
    + rewrite Htail. split; [intros (x & ? & ? & ? & ?); eauto|].
      intros (x & Hle & Hx & Hp). exists x. repeat split; try done.
      intros ->. rewrite Nat.sub_diag in Hx. simpl in Hx. congruence.
Qed.

Lemma NoDup_positions {A} (p : A -> bool) i l : NoDup (positions p i l).
Proof.
  revert i. induction l as [|y l IH]; intros i; simpl; [constructor|].
  destruct (p y); [|done]. constructor; [|done].
  rewrite elem_of_positions. intros (x & Hle & _). lia.
Qed.

Lemma elem_of_active f s j :
  j ∈ active f s <->
  node_at j (fun n => origin n = f /\ run n = Playing) s.
Proof.
  unfold active, node_at. rewrite elem_of_positions.
  rewrite Nat.sub_0_r. unfold is_active. split.
  - intros (x & _ & Hx & Hp). exists x. split; [done|].
    apply andb_true_iff in Hp as [H1 H2].
    by apply bool_decide_eq_true in H1, H2.
  - intros (x & Hx & Ho & Hr). exists x. repeat split; [lia|done|].
    apply andb_true_iff. by rewrite !bool_decide_eq_true.
Qed.

Lemma length_le_1 {A} (l : list A) :
  NoDup l -> (forall x y, x ∈ l -> y ∈ l -> x = y) -> length l <= 1.
Proof.
  intros Hnd Heq. destruct l as [|x [|y l]]; simpl; try lia.
  apply NoDup_cons in Hnd as [Hx _].
  destruct Hx. rewrite (Heq x y); [left|left|right; left].
Qed.

Lemma exclusive_active f s : exclusive f s -> length (active f s) <= 1.
Proof.
  intros H. apply length_le_1; [apply NoDup_positions|].
  intros x y (n & Hn & Ho & Hr)%elem_of_active (m & Hm & Ho' & Hr')%elem_of_active.
  pose proof (H x n Hn Ho Hr). pose proof (H y m Hm Ho' Hr'). congruence.
Qed.

Lemma quiet_active f s : quiet f s -> active f s = [].
Proof.
  intros H. destruct (active f s) as [|x l] eqn:E; [done|].
  assert (x ∈ active f s) as (n & Hn & Ho & Hr)%elem_of_active
    by (rewrite E; left).
  by destruct (H x n Hn Ho).
Qed.

Lemma playing_active f a s :
  exclusive f s ->
  node_at a (fun n => origin n = f /\ run n = Playing) s ->
  length (active f s) = 1.
Proof.
  intros H Ha. pose proof (exclusive_active f s H).
  apply elem_of_active in Ha. destruct (active f s); [|simpl in *; lia].
  by apply elem_of_nil in Ha.
Qed.

(** ** Releasing a source *)

Lemma released_ext a s s' :
  nodes s' = nodes s -> edges s' = edges s -> released a s -> released a s'.
Proof. unfold released. by intros -> ->. Qed.

Lemma released_create a k o s : released a s -> released a (create k o s).
Proof.
  intros [Hn He]. split; [|by rewrite edges_create].
  change (node_at a (fun n => run n = Ended) (create k o s)).
  by apply node_at_create_old.
Qed.

Lemma released_update a b g s :
  keeps g -> released a s -> released a (update b g s).
Proof.
  intros Hg [Hn He]. split; [|by rewrite edges_update].
  change (node_at a (fun n => run n = Ended) (update b g s)).
  apply node_at_update_stable; [|done].
  intros n <-. apply Hg.
Qed.

Lemma released_start a b t s :
  b <> a -> released a s -> released a (update b (starter t) s).
Proof.
  intros Hne [Hn He]. split; [|by rewrite edges_update].
  change (node_at a (fun n => run n = Ended) (update b (starter t) s)).
  by apply node_at_update_other.
Qed.

Lemma released_connect a x y i s :
  x <> a -> released a s -> released a (connect x y i s).
Proof.
  intros Hne [Hn He]. split; [done|]. intros e. rewrite edges_connect.
  rewrite elem_of_app, list_elem_of_singleton. intros [H| ->]; [by apply He|done].
Qed.

Lemma released_try_stop a b s :
  released a s -> released a (try_stop_disconnect b s).
Proof.
  intros [Hn He].
  destruct (try_stop_disconnect_cases b s) as [[-> _]|[-> _]]; [done|].
  split.
  - change (node_at a (fun n => run n = Ended) (update b (set_run Ended) s)).
    apply node_at_update_stable; [|done]. done.
  - intros e. rewrite edges_disconnect, edges_update, list_elem_of_filter.
    intros [_ H]. by apply He.
Qed.

Lemma released_try_stop_self a s :
  node_at a (fun n => run n <> Idle) s ->
  released a (try_stop_disconnect a s).
Proof.
  intros (n & Hn & Hr).
  destruct (try_stop_disconnect_cases a s) as [[_ Hidle]|[-> _]].
  - by destruct Hr; apply Hidle.
  - split.
    + change (node_at a (fun n => run n = Ended) (update a (set_run Ended) s)).
      apply node_at_update_same. by exists n.
    + intros e. rewrite edges_disconnect, list_elem_of_filter. by intros [? _].
Qed.

Lemma node_at_try_stop_stable a b (P : node -> Prop) s :
  (forall n, P n -> P (set_run Ended n)) ->
  node_at a P s -> node_at a P (try_stop_disconnect b s).
Proof.
  intros HP H.
  destruct (try_stop_disconnect_cases b s) as [[-> _]|[-> _]]; [done|].
  eapply (node_at_weaken a P P); [done|].
  destruct H as (n & Hn & Hp). unfold node_at.
  change (nodes (disconnect b ?x)) with (nodes x).
  rewrite lookup_update, Hn. case_decide; simpl; eauto.
Qed.

(** The source a field holds is playing, hence not idle. *)
Lemma live_not_idle f a s :
  typed s -> live f s -> refs s f = Some a ->
  node_at a (fun n => run n <> Idle) s.
Proof.
  intros Ht Hl Ha. destruct (Ht f a Ha) as (n & Hn & _).
  exists n. split; [done|]. by rewrite (Hl a n Ha Hn).
Qed.

Lemma ref_lt f a s : typed s -> refs s f = Some a -> a < next_id s.
Proof. intros Ht Ha. eapply node_at_lt, Ht, Ha. Qed.

(** The ids the method gave out, counted from the state it started in. *)
Ltac id_facts :=
  repeat match goal with
  | x := next_id ?S |- _ =>
      lazymatch goal with
      | _ : x = _ |- _ => fail
      | _ => idtac
      end;
      let H := fresh "Hid" in
      assert (H : x = next_id S) by reflexivity;
      autorewrite with eng in H
  end.

Ltac released_back :=
  lazymatch goal with
  | |- released _ (create _ _ _) => apply released_create
  | |- released _ (update _ (starter _) _) => apply released_start; [lia|]
  | |- released _ (update _ _ _) => apply released_update; [solve_keeps|]
  | |- released _ (connect _ _ _ _) => apply released_connect; [lia|]
  | |- released _ (set_ref ?f ?v ?s) =>
      eapply released_ext; [apply nodes_set_ref|apply edges_set_ref|]
  | |- released ?a (try_stop_disconnect ?a _) =>
      apply released_try_stop_self
  | |- released _ (try_stop_disconnect _ _) => apply released_try_stop
  end.

Lemma released_stopNoise a s :
  inv s -> refs s noiseSource = Some a -> released a (stopNoise s).
Proof.
  inv_intro. intros Ha. cbv beta delta [stopNoise]. simp_state; simplify_eq.
  repeat released_back. by apply (live_not_idle noiseSource).
Qed.

Lemma node_at_ext a P s s' :
  nodes s' = nodes s -> node_at a P s -> node_at a P s'.
Proof. unfold node_at. by intros ->. Qed.

(** A fact about one node, stepped back to where the node was created or
    last written. *)
Ltac node_back :=
  lazymatch goal with
  | |- node_at ?a _ (update ?b _ _) =>
      first [ constr_eq a b; apply node_at_update_same
            | apply node_at_update_other; [lia|] ]
  | |- node_at ?a _ (create _ _ ?s) =>
      first [ is_next_id a s; apply node_at_create_new
            | apply node_at_create_old ]
  | |- node_at _ _ (connect _ _ _ _) =>
      eapply node_at_ext; [apply nodes_connect|]
  | |- node_at _ _ (set_ref _ _ _) =>
      eapply node_at_ext; [apply nodes_set_ref|]
  | |- node_at _ _ (set_baseNoiseVolume _ _) =>
      eapply node_at_ext; [apply nodes_set_baseNoiseVolume|]
  end.

(** The hypotheses about fields, read in the state the method started in. *)
Ltac norm_refs :=
  autorewrite with eng in *; simplify_eq.

Ltac no_ctx :=
  match goal with
  | H : refs (initContext ?s) ctx = None |- _ =>
      by destruct (initContext_ctx s)
  end.

Lemma released_startNoise type volume s :
  inv s -> prior_released noiseSource s (startNoise type volume s).
Proof.
  unfold prior_released. destruct (refs s noiseSource) as [a|] eqn:Ha; [|done].
  rewrite <- (refs_initContext noiseSource) in Ha by done.
  inv_intro_ctx. pose proof (ref_lt _ _ _ Ht' Ha).
  cbv beta delta [startNoise stopNoise].
  cbv beta delta [start stop_at setTargetAtTime connect_ref].
  simp_state; try no_ctx; norm_refs; id_facts; repeat released_back;
    node_back; by apply (live_not_idle noiseSource).
Qed.

Lemma released_startBinaural c b v s :
  inv s ->
  prior_released leftOsc s (startBinaural c b v s) /\
  prior_released rightOsc s (startBinaural c b v s).
Proof.
  inv_intro_ctx. unfold prior_released.
  rewrite <- (refs_initContext leftOsc s), <- (refs_initContext rightOsc s) by done.
  split.
  - destruct (refs (initContext s) leftOsc) as [a|] eqn:Ha; [|done].
    pose proof (ref_lt _ _ _ Ht' Ha).
    cbv beta delta [startBinaural stopBinaural].
    cbv beta delta [start stop_at setTargetAtTime connect_ref].
    simp_state; try no_ctx; norm_refs; id_facts; repeat released_back;
      by apply (live_not_idle leftOsc).
  - destruct (refs (initContext s) rightOsc) as [a|] eqn:Ha; [|done].
    pose proof (ref_lt _ _ _ Ht' Ha).
    cbv beta delta [startBinaural stopBinaural].
    cbv beta delta [start stop_at setTargetAtTime connect_ref].
    simp_state; try no_ctx; norm_refs; id_facts; repeat released_back;
      try (apply node_at_try_stop_stable; [done|]);
      by apply (live_not_idle rightOsc).
Qed.

(** ** The microphone reaches no audible node *)

Lemma mic_path s m x :
  mic_isolated s ->
  node_at m (fun n => origin n = micSource \/ origin n = micAnalyser) s ->
  path s m x -> x = m \/ born x micAnalyser s.
Proof.
  intros Hm Hn Hp. induction Hp as [a|a e b He Hsrc Hp IH]; [by left|].
  right. subst a. destruct Hn as (n & Hn & Ho).
  destruct (Hm e He) as (n' & Hn' & Hna & Hmic).
  assert (n' = n) as -> by congruence.
  destruct Ho as [Ho|Ho]; [|done].
  pose proof (Hmic Ho) as Hd.
  destruct IH as [->|]; [|done|done].
  eapply node_at_weaken; [|exact Hd]. simpl. auto.
Qed.

Lemma kinded_mic s a n :
  kinded s -> nodes s !! a = Some n -> kind n = MediaStreamSource ->
  origin n = micSource.
Proof.
  intros Hk Hn Hkind. rewrite (Hk a n Hn) in Hkind.
  by destruct (origin n).
Qed.

Lemma quiet_startNoise_OFF v s :
  inv s -> quiet noiseSource (startNoise OFF v s).
Proof.
  inv_intro_ctx. cbv beta delta [startNoise stopNoise].
  simp_state; try no_ctx; repeat back.
Qed.

Lemma startNoise_playing type v s :
  type <> OFF ->
  exists a,
    node_at a (fun n => origin n = noiseSource /\ run n = Playing)
      (startNoise type v s).
Proof.
  intros Hne. cbv beta delta [startNoise stopNoise].
  cbv beta delta [start stop_at setTargetAtTime connect_ref].
  simp_state; try no_ctx; try done;
    lazymatch goal with
    | |- exists a, node_at a _ (update ?b _ ?S) =>
        exists b; apply node_at_update_same;
        apply (node_at_weaken b (fun n => origin n = noiseSource));
          [ let m := fresh "m" in intros m ?; split; [assumption|reflexivity]
          | change (born b noiseSource S); solve_born ]
    end.
Qed.

Lemma elem_of_snoc_here {A} (l : list A) x : x ∈ l ++ [x].
Proof. apply elem_of_app. right. by left. Qed.

Lemma elem_of_snoc_before {A} (l : list A) x y : x ∈ l -> x ∈ l ++ [y].
Proof. intros. apply elem_of_app. by left. Qed.

(** Finds a connection among those a method made. *)
Ltac same_or_unify x y := first [is_evar x; unify x y | constr_eq x y].

Ltac find_edge :=
  autorewrite with eng;
  repeat lazymatch goal with
  | |- mkEdge ?a ?b ?i ∈ _ ++ [mkEdge ?a' ?b' ?i'] =>
      first [ same_or_unify a a'; same_or_unify b b'; constr_eq i i';
              apply elem_of_snoc_here
            | apply elem_of_snoc_before ]
  end.

End EngineFacts.

(** ** Pitch names *)

Section Pitch.

Import AudioEngine.

Variable pow_approx : JS.number -> JS.number -> JS.number.

Local Open Scope string_scope.

(** A name of [note_names] followed by one digit is converted by the
    equal-temperament formula. *)
Lemma getFrequency_valid (k d : nat) (key : string) :
  note_names !! k = Some key -> d < 10 ->
  getFrequency pow_approx (key ++ digit d) =
    (440 * JS.Math_pow pow_approx 2
             ((JS.of_Z (midi_number (Z.of_nat k) (Z.of_nat d)) - 69) / 12))%float.
Proof.
  intros Hk Hd.
  do 12 (destruct k as [|k];
           [ injection Hk as <-;
             do 10 (destruct d as [|d]; [vm_compute; reflexivity|]); lia
           | ]).
  done.
Qed.

(** A name whose key is not in [note_names] gets the fallback. *)
Lemma getFrequency_unknown_key (note : string) :
  JS.indexOf note_names (JS.slice note 0 (Some (-1)%Z)) = (-1)%Z ->
  getFrequency pow_approx note = 200%float.
Proof. intros H. unfold getFrequency. by rewrite H. Qed.

(** C4 (the code departs from the claim). A name whose key is in
    [note_names] but whose last character is not a digit, such as "C#" or
    "Gb", is not a pitch name, yet it passes the test [semitone === -1]:
    [parseInt] gives [NaN] for the octave and [getFrequency] returns [NaN],
    not the fallback of 200 Hz. A flat such as "Eb3" gets the fallback, and
    "A4" is 440 Hz. *)
Theorem getFrequency_without_octave :
  getFrequency pow_approx "C#" = nan /\
  getFrequency pow_approx "Gb" = nan /\
  getFrequency pow_approx "Eb3" = 200%float /\
  getFrequency pow_approx "A4" = 440%float.
Proof. repeat split; vm_compute; reflexivity. Qed.

(** The last code unit of a name is taken as the octave whatever it is:
    after a key of the table an accented letter gives [NaN] too, and of a
    character outside the basic plane only the second half is cut off, so
    that the key is unknown. *)
Example getFrequency_beyond_ascii :
  getFrequency pow_approx "Cé" = nan /\
  getFrequency pow_approx "C𝄞" = 200%float.
Proof. split; vm_compute; reflexivity. Qed.

End Pitch.

(** ** The composer's answers *)

Section Composer.

Import GeminiService.

Local Open Scope string_scope.

(** C6, as amended. When the request fails, when the text of the response
    is missing or empty, or when [JSON.parse] rejects it, [generateLullaby]
    resolves to [null] and does not throw. A text that parses to a value
    other than [null] is returned as parsed: no field is looked at. *)
Theorem generateLullaby_no_composition (mood : string)
    (previousContext : option string) (carrierFreq beatFreq : option JS.number)
    (a : answer) :
  (unusable a ->
   generateLullaby mood previousContext carrierFreq beatFreq a = None) /\
  (forall text v,
     a = Responds (Some text) -> text <> EmptyString ->
     JSON_parse text = Some v -> v <> JNull ->
     generateLullaby mood previousContext carrierFreq beatFreq a = Some v).
Proof.
  split.
  - destruct a as [|[text|]]; simpl; try done.
    intros [->|H]; [done|]. unfold generateLullaby. rewrite H.
    by destruct text.
  - intros text v -> Hne Hv Hnull. unfold generateLullaby. rewrite Hv.
    destruct text; [done|]. by destruct v.
Qed.

Lemma generateLullaby_no_composition_witness :
  generateLullaby "calm" None None None (Responds (Some "{notes")) = None /\
  generateLullaby "calm" None None None (Responds (Some "[1]"))
    = Some (JArray [JNumber 1 0]).
Proof.
  split.
  - apply (proj1 (generateLullaby_no_composition "calm" None None None _)).
    right. reflexivity.
  - apply (proj2 (generateLullaby_no_composition "calm" None None None _) "[1]");
      [reflexivity|discriminate|reflexivity|discriminate].
Defined.

(** C6 as stated fails: a response that parses but has no [notes] is
    returned, not replaced by [null]. *)
Lemma generateLullaby_unvalidated :
  exists v,
    generateLullaby "calm" None (Some 150%float) (Some 2.5%float)
      (Responds (Some without_notes)) = Some v /\
    has_field "notes" v = false.
Proof. eexists. split; vm_compute; reflexivity. Qed.

Example JSON_parse_without_notes :
  JSON_parse without_notes =
    Some (JObject [("name", JString "x"); ("bpm", JNumber 60 0);
                   ("description", JString "d")]).
Proof. vm_compute. reflexivity. Qed.

End Composer.

(** ** The segment scheduler *)

Section Scheduler.

Import App.

Variable pow_approx : JS.number -> JS.number -> JS.number.

Local Open Scope string_scope.

(** [playComposition] returns when there is no note to play. *)
Lemma playComposition_no_notes (eng : AudioEngine.engine) :
  AudioEngine.returned (AudioEngine.playComposition pow_approx [] eng) = true.
Proof.
  unfold AudioEngine.playComposition. cbv zeta.
  by destruct (AudioEngine.refs (AudioEngine.initContext eng) AudioEngine.ctx).
Qed.

(** With notes, the next tick is armed after the largest
    [startTime + duration], in milliseconds, unless that is zero. *)
Lemma loopTimeMs_max (track : Composition) :
  JS.truthy (JS.Math_max (map (fun n => (startTime n + duration n)%float)
                            (notes track))) = true ->
  loopTimeMs track =
    (JS.Math_max (map (fun n => (startTime n + duration n)%float) (notes track))
     * 1000)%float.
Proof. intros H. unfold loopTimeMs, maxDuration, JS.or_else. by rewrite H. Qed.

Lemma playMusicLoop_arms (eng : AudioEngine.engine) (st : state)
    (track : Composition) :
  isPlaying st = true -> nextComposition st = None -> current st = Some track ->
  AudioEngine.returned
    (AudioEngine.playComposition pow_approx (notes track) eng) = true ->
  armed (playMusicLoop pow_approx eng st) = [loopTimeMs track].
Proof.
  intros Hp Hn Hc Hr. unfold playMusicLoop. rewrite Hp, Hn, Hc, Hr. simpl.
  destruct (isGenerating st), (musicLoopRef st); reflexivity.
Qed.

(** The last note of [two_notes] ends at 12.5 s. *)
Example loopTimeMs_two_notes :
  armed (playMusicLoop JS.pow_sqrt AudioEngine.init playing) = [12500%float].
Proof. vm_compute. reflexivity. Qed.

(** C1 (the code departs from the claim). When the composition that is
    played has no notes, [Math.max()] is [-Infinity], which is truthy: the
    fallback [|| 15] is not taken and the next tick is armed with a delay of
    [-Infinity] milliseconds, not of 15 seconds. *)
Theorem playMusicLoop_empty_notes (station : Station) (vol : JS.number)
    (noise : NoiseType) (name description : string) (bpm : JS.number)
    (key : option string) (tags : option (list string))
    (generating : bool) (library : list SavedPreset) (show : bool)
    (timer : option nat) (eng : AudioEngine.engine) :
  let track := mkComposition name bpm key [] description tags in
  let st := mkState true station vol noise (Some track) None generating
              library show timer in
  armed (playMusicLoop pow_approx eng st) = [neg_infinity] /\
  loopTimeMs track <> 15000%float.
Proof.
  intros track st. split.
  - rewrite (playMusicLoop_arms eng st track);
      [reflexivity|done|done|done|apply playComposition_no_notes].
  - vm_compute. discriminate.
Qed.

(** C7 (the code departs from the claim). A tick that finds a prefetched
    [next] asks React to make it the current composition and to clear
    [next]; the request it fires is built from the state the callback
    captured, so its previous-track context is the name of the composition
    that was current before the promotion (or the empty string), not the
    name of [next]. *)
Theorem playMusicLoop_promotes (station : Station) (vol : JS.number)
    (noise : NoiseType) (previous : option Composition) (next : Composition)
    (generating : bool) (library : list SavedPreset) (show : bool)
    (timer : option nat) (eng : AudioEngine.engine) :
  let st := mkState true station vol noise previous (Some next) generating
              library show timer in
  let st' := render st (playMusicLoop pow_approx eng st) in
  current st' = Some next /\ nextComposition st' = None /\
  requested_contexts (playMusicLoop pow_approx eng st) =
    [match previous with Some c => name c | None => EmptyString end].
Proof.
  intros st st'. subst st st'. unfold playMusicLoop. simpl.
  destruct (AudioEngine.returned _), timer; repeat split; reflexivity.
Qed.

(** ** Presets *)








End Scheduler.

(** ** The audio engine *)

Section MethodFacts.

Import AudioEngine EngineFacts.

(** C2. After [startBinaural(carrier, beat, volume)] the oscillator whose
    gain feeds input 1 (right) of the merger has frequency [carrier + beat],
    and the one whose gain feeds input 0 (left) has frequency [carrier];
    both are playing. *)
Theorem startBinaural_frequencies (s : engine)
    (carrierFreq beatFreq volume : JS.number) :
  let s' := startBinaural carrierFreq beatFreq volume s in
  exists lo ro lg rg mr,
    refs s' leftOsc = Some lo /\ refs s' rightOsc = Some ro /\
    refs s' merger = Some mr /\
    node_at lo (fun n => kind n = Oscillator /\ run n = Playing /\
                         value n = carrierFreq) s' /\
    node_at ro (fun n => kind n = Oscillator /\ run n = Playing /\
                         value n = (carrierFreq + beatFreq)%float) s' /\
    mkEdge lo lg 0 ∈ edges s' /\ mkEdge lg mr 0 ∈ edges s' /\
    mkEdge ro rg 0 ∈ edges s' /\ mkEdge rg mr 1 ∈ edges s'.
Proof.
  lazymatch goal with
  | |- let s' := ?S in @?Q s' => set (post := Q); change (post S)
  end.
  cbv beta delta [startBinaural stopBinaural].
  cbv beta delta [start stop_at setTargetAtTime connect_ref].
  simp_state; try no_ctx; id_facts; subst post; cbv beta.
  all: do 5 eexists.
  all: (split; [autorewrite with eng; decide_slots; reflexivity|]).
  all: (split; [autorewrite with eng; decide_slots; reflexivity|]).
  all: (split; [autorewrite with eng; decide_slots; reflexivity|]).
  all: (split; [repeat node_back; repeat split; reflexivity|]).
  all: (split; [repeat node_back; repeat split; reflexivity|]).
  all: repeat split; find_edge.
Qed.

(** The delta station from a fresh engine: the right oscillator is node 11
    at 152.5 Hz, and its gain, node 12, feeds input 1 of the merger. *)
Example startBinaural_delta :
  let s := startBinaural 150 2.5 0.5 init in
  refs s leftOsc = Some 9 /\ refs s rightOsc = Some 11 /\
  refs s merger = Some 7 /\
  value <$> nodes s !! 9 = Some 150%float /\
  value <$> nodes s !! 11 = Some 152.5%float /\
  filter (fun e => dst e = 7) (edges s) = [mkEdge 10 7 0; mkEdge 12 7 1] /\
  filter (fun e => src e = 11) (edges s) = [mkEdge 11 12 0].
Proof. vm_compute. repeat split; reflexivity. Qed.

End MethodFacts.

Section ReachableStates.

Import AudioEngine EngineFacts.

Variable pow_approx : JS.number -> JS.number -> JS.number.

(** C5. For an average [a] in [0, 255] and a base volume [b], the boost is
    0 when [a <= 20] and [min((a - 20) / 200, 0.3)] otherwise, the target is
    [min(b + boost, 0.8)] and it is never above 0.8. In every state of the
    engine in which the interval runs, with adaptive noise on, the analyser
    and the noise gain present, the callback schedules that target on the
    noise gain node, at the current time with time constant 0.5, and
    changes nothing else in the graph. *)
Theorem adaptive_gain_target (evs : list event)
    (dataArray : list Byte.byte) (g : nat) (a b : JS.number) :
  let s := exec pow_approx evs in
  let s' := step pow_approx s (AdaptiveCallback dataArray) in
  (0 <=? a)%float = true -> (a <=? 255)%float = true ->
  average dataArray = a -> baseNoiseVolume s = b ->
  adaptiveInterval s <> None -> isAdaptive s = true ->
  refs s micAnalyser <> None -> refs s noiseGain = Some g ->
  refs s ctx <> None ->
  boost a =
    (if (a <=? 20)%float then 0%float
     else JS.Math_min [((a - 20) / 200)%float; 0.3%float]) /\
  targetVol b a = JS.Math_min [(b + boost a)%float; 0.8%float] /\
  (0.8 <? targetVol b a)%float = false /\
  (exists n,
     nodes s !! g = Some n /\ kind n = Gain /\
     nodes s' !! g =
       Some (schedule (SetTargetAtTime (targetVol b a) (currentTime s) 0.5) n)) /\
  (forall i, i <> g -> nodes s' !! i = nodes s !! i) /\
  edges s' = edges s.
Proof.
  intros s s' H0 H255 Hav Hbase Hint Had Han Hg Hctx.
  destruct (NumberFacts.leb_true_not_nan _ _ H0) as [_ Ha].
  split; [|split; [|split]].
  - unfold boost. rewrite (NumberFacts.leb_negb_ltb a 20 Ha eq_refl).
    by destruct (20 <? a)%float.
  - reflexivity.
  - apply NumberFacts.Math_min_cap.
  - assert (inv s) as (Hk & Ht & _)
      by (apply (inv_reachable pow_approx); by exists evs).
    destruct (Ht noiseGain g Hg) as (n & Hn & Ho).
    assert (s' = update g (schedule
                  (SetTargetAtTime (targetVol b a) (currentTime s) 0.5)) s)
      as ->.
    { subst s'. simpl. destruct (adaptiveInterval s); [|done].
      unfold adaptiveCallback. rewrite Had, Hg, Hav, Hbase.
      destruct (refs s micAnalyser); [|done].
      by destruct (refs s ctx). }
    split; [|split].
    + exists n. split; [done|]. split.
      * rewrite (Hk g n Hn), Ho. reflexivity.
      * rewrite lookup_update, Hn. by case_decide.
    + intros i Hi. rewrite lookup_update. by case_decide.
    + apply edges_update.
Qed.

(** C3, as amended. In every reachable state at most one noise source and
    at most one oscillator of each side of the binaural pair are playing; a
    start call stops and disconnects the source its field held; and after two
    calls of [startNoise] in a row exactly one noise source is playing when
    the type of the second call is not [OFF], none when it is. *)
Theorem one_source_per_role (evs : list event)
    (t1 t2 : NoiseType) (v1 v2 c b v : JS.number) :
  let s := exec pow_approx evs in
  (length (active noiseSource s) <= 1 /\
   length (active leftOsc s) <= 1 /\
   length (active rightOsc s) <= 1) /\
  prior_released noiseSource s (startNoise t1 v1 s) /\
  (prior_released leftOsc s (startBinaural c b v s) /\
   prior_released rightOsc s (startBinaural c b v s)) /\
  length (active noiseSource (startNoise t2 v2 (startNoise t1 v1 s))) =
    match t2 with OFF => 0 | _ => 1 end.
Proof.
  intros s.
  assert (inv s) as Hs by (apply (inv_reachable pow_approx); by exists evs).
  pose proof Hs as (_ & _ & _ & [Hn _] & [Hl _] & [Hr _]).
  split; [|split; [|split]].
  - auto using exclusive_active.
  - by apply released_startNoise.
  - by apply released_startBinaural.
  - pose proof (inv_startNoise t1 v1 s Hs) as Hs1.
    pose proof (inv_startNoise t2 v2 _ Hs1) as (_ & _ & _ & [Hex _] & _).
    assert (t2 = OFF \/ t2 <> OFF) as [->|Hne]
      by (destruct t2; [by left|by right..]).
    + rewrite quiet_active; [done|by apply quiet_startNoise_OFF].
    + destruct (startNoise_playing t2 v2 (startNoise t1 v1 s) Hne) as [a Ha].
      rewrite (playing_active _ a _ Hex Ha). by destruct t2.
Qed.

(** C3 as stated fails when the second call passes [OFF]: the first source
    is stopped and none is created. *)
Lemma startNoise_twice_OFF :
  length (active noiseSource (startNoise WHITE 0.15 init)) = 1 /\
  length (active noiseSource
            (startNoise OFF 0.15 (startNoise WHITE 0.15 init))) = 0.
Proof. split; vm_compute; reflexivity. Qed.

(** C10. In every reachable state, [startNoise(OFF, v)] stops and
    disconnects the noise source the engine held, stores [v] as the base
    volume, creates no buffer source, and leaves no noise source playing. *)
Theorem startNoise_OFF (evs : list event) (v : JS.number) :
  let s := exec pow_approx evs in
  let s' := startNoise OFF v s in
  prior_released noiseSource s s' /\
  baseNoiseVolume s' = v /\
  refs s' noiseSource = None /\
  count_kind BufferSource s' = count_kind BufferSource s /\
  active noiseSource s' = [].
Proof.
  intros s s'.
  assert (inv s) as Hs by (apply (inv_reachable pow_approx); by exists evs).
  split; [by apply released_startNoise|].
  split; [|split; [|split]]; subst s'.
  - cbv beta delta [startNoise stopNoise]. simp_state; try no_ctx;
      by autorewrite with eng.
  - cbv beta delta [startNoise stopNoise]. simp_state; try no_ctx;
      autorewrite with eng; by decide_slots.
  - cbv beta delta [startNoise stopNoise]. simp_state; try no_ctx;
      rewrite (count_kind_ext _ _ _ (nodes_set_ref _ _ _)),
        ?count_kind_try_stop,
        (count_kind_ext _ _ _ (nodes_set_baseNoiseVolume _ _));
      apply count_kind_initContext.
  - by apply quiet_active, quiet_startNoise_OFF.
Qed.

(** C8. In every reachable state, the connections of a microphone source
    end in analysers, and every node that can be reached from it is the
    source itself or an analyser: neither the master gain nor the
    destination of the context. *)
Theorem microphone_isolated (evs : list event) (m : nat) (n : node) :
  let s := exec pow_approx evs in
  nodes s !! m = Some n -> kind n = MediaStreamSource ->
  (forall e, e ∈ edges s -> src e = m ->
     node_at (dst e) (fun d => kind d = Analyser) s) /\
  (forall x, path s m x ->
     node_at x (fun d => kind d = MediaStreamSource \/ kind d = Analyser) s /\
     refs s masterGain <> Some x /\
     refs s ctx <> Some x).
Proof.
  intros s Hn Hkind.
  assert (inv s) as (Hk & Ht & Hm & _)
    by (apply (inv_reachable pow_approx); by exists evs).
  pose proof (kinded_mic s m n Hk Hn Hkind) as Ho.
  assert (forall x, born x micAnalyser s ->
            node_at x (fun d => kind d = Analyser) s) as Han.
  { intros x (d & Hd & Hod). exists d. split; [done|].
    by rewrite (Hk x d Hd), Hod. }
  assert (forall x, path s m x -> x = m \/ born x micAnalyser s) as Hpath.
  { intros x. apply mic_path; [done|]. exists n. auto. }
  split.
  - intros e He Hsrc. apply Han.
    destruct (Hpath (dst e)) as [Hd|]; [|..|done].
    { eapply path_edge; [done..|apply path_here]. }
    destruct (Hm e He) as (n' & Hn' & _ & Hmic).
    rewrite Hsrc in Hn'. assert (n' = n) as -> by congruence. auto.
  - intros x Hx.
    assert (node_at x (fun d => origin d = micSource \/ origin d = micAnalyser) s)
      as (d & Hd & Hod).
    { destruct (Hpath x Hx) as [->|Hb]; [exists n; auto|].
      eapply node_at_weaken; [|exact Hb]. simpl. auto. }
    split; [|split].
    + exists d. split; [done|]. rewrite (Hk x d Hd). by destruct Hod as [->| ->]; [left|right].
    + intros Hg. destruct (Ht _ _ Hg) as (d' & Hd' & Hod').
      assert (d' = d) as -> by congruence. destruct Hod; congruence.
    + intros Hg. destruct (Ht _ _ Hg) as (d' & Hd' & Hod').
      assert (d' = d) as -> by congruence. destruct Hod; congruence.
Qed.

End ReachableStates.

Section Sessions.

Import AudioEngine EngineFacts.

(** In [adaptive_session] the microphone source is node 7 and its analyser
    node 8; the master gain is another node. *)
Lemma microphone_isolated_witness :
  node_at 8 (fun d => kind d = MediaStreamSource \/ kind d = Analyser)
    (exec JS.pow_sqrt adaptive_session) /\
  refs (exec JS.pow_sqrt adaptive_session) masterGain <> Some 8.
Proof.
  assert (nodes (exec JS.pow_sqrt adaptive_session) !! 7
          = Some (fresh MediaStreamSource micSource)) as Hn
    by (vm_compute; reflexivity).
  destruct (microphone_isolated JS.pow_sqrt adaptive_session 7 _ Hn eq_refl)
    as [_ Hp].
  destruct (Hp 8) as (H1 & H2 & _); [|by split].
  apply (path_edge _ 7 (mkEdge 7 8 0) 8); [|reflexivity|apply path_here].
  apply list_elem_of_In. vm_compute. tauto.
Defined.

(** In [adaptive_session] the noise gain is node 11; the analyser reads
    220 in both of its bins. *)
Lemma adaptive_gain_target_witness :
  boost 220 = 0.3%float /\
  (0.8 <? targetVol 0.15 220)%float = false /\
  exists n,
    nodes (step JS.pow_sqrt (exec JS.pow_sqrt adaptive_session)
             (AdaptiveCallback [Byte.xdc; Byte.xdc])) !! 11
    = Some (schedule (SetTargetAtTime (targetVol 0.15 220) 0 0.5) n).
Proof.
  destruct (adaptive_gain_target JS.pow_sqrt adaptive_session
              [Byte.xdc; Byte.xdc] 11 220 0.15 eq_refl eq_refl eq_refl
              eq_refl ltac:(discriminate) eq_refl ltac:(discriminate)
              eq_refl ltac:(discriminate))
    as (Hb & _ & Hc & (n & _ & _ & Hn) & _).
  split; [exact Hb|]. split; [exact Hc|]. exists n. exact Hn.
Defined.

End Sessions.

(** ** The routing of the engine *)

Module RoutingFacts.

Import AudioEngine EngineFacts Routing.

(** ** Paths *)

Lemma path_mono s s' a b :
  (forall e, e ∈ edges s -> e ∈ edges s') -> path s a b -> path s' a b.
Proof.
  intros H Hp. induction Hp as [a|a e b He Hs Hp IH]; [apply path_here|].
  eapply path_edge; [by apply H|done|done].
Qed.

Lemma path_ext s s' a b : edges s' = edges s -> path s a b -> path s' a b.
Proof. intros E. apply path_mono. by rewrite E. Qed.

Lemma path_disconnect a s i x :
  (forall e, e ∈ edges s -> dst e <> a) -> i <> a ->
  path s i x -> path (disconnect a s) i x.
Proof.
  intros Hin Hne Hp. induction Hp as [i|i e x He Hs Hp IH]; [apply path_here|].
  eapply path_edge; [|done|apply IH; by apply Hin].
  rewrite edges_disconnect, list_elem_of_filter. split; [congruence|done].
Qed.

Lemma path_step s a b c i :
  mkEdge a b i ∈ edges s -> path s b c -> path s a c.
Proof. intros He Hp. by apply (path_edge s a (mkEdge a b i) c). Qed.

Lemma next_id_length s : next_id s = length (nodes s).
Proof. reflexivity. Qed.

(** ** Two nodes created for different variables are different nodes *)

Lemma born_neq a b o o' s : born a o s -> born b o' s -> o <> o' -> a <> b.
Proof. intros (n & Hn & Ho) (m & Hm & Ho') Hne ->. congruence. Qed.

(** ** Connections *)

Lemma elem_of_edges_try_stop e a s :
  src e <> a -> e ∈ edges s -> e ∈ edges (try_stop_disconnect a s).
Proof.
  intros Hne He.
  destruct (try_stop_disconnect_cases a s) as [[-> _]|[-> _]]; [done|].
  rewrite edges_disconnect, edges_update, list_elem_of_filter. done.
Qed.

Lemma edges_try_stop_subseteq e a s :
  e ∈ edges (try_stop_disconnect a s) -> e ∈ edges s.
Proof.
  destruct (try_stop_disconnect_cases a s) as [[-> _]|[-> _]]; [done|].
  rewrite edges_disconnect, edges_update, list_elem_of_filter. tauto.
Qed.

(** ** [silent] *)

Lemma silent_create k o s : silent s -> silent (create k o s).
Proof.
  intros H i n. rewrite lookup_create. case_decide; [|by apply H].
  by intros [= <-].
Qed.

Lemma silent_update b g s : keeps g -> silent s -> silent (update b g s).
Proof.
  intros Hg H i n. rewrite lookup_update. case_decide; [|by apply H].
  destruct (nodes s !! i) as [m|] eqn:E; [|done]. intros [= <-].
  destruct (Hg m) as (_ & _ & ->). by apply (H i).
Qed.

Lemma silent_try_stop b s : silent s -> silent (try_stop_disconnect b s).
Proof.
  intros H. destruct (try_stop_disconnect_cases b s) as [[-> _]|[-> _]]; [done|].
  intros i n. rewrite nodes_disconnect, lookup_update. case_decide; [|by apply H].
  destruct (nodes s !! i) as [m|]; [|done]. by intros [= <-].
Qed.

Lemma silent_ext s s' : nodes s' = nodes s -> silent s -> silent s'.
Proof. unfold silent. by intros ->. Qed.

Lemma silent_routed d s : silent s -> routed d s.
Proof. intros H i n Hn Hr. by destruct (H i n Hn). Qed.

(** ** [routed] *)

Lemma routed_ext d s s' :
  nodes s' = nodes s -> edges s' = edges s -> routed d s -> routed d s'.
Proof.
  intros En Ee H i n. rewrite En. intros Hn Hr.
  eapply path_ext; [done|]. by apply (H i n).
Qed.

Lemma routed_create d k o s : routed d s -> routed d (create k o s).
Proof.
  intros H i n. rewrite lookup_create. case_decide.
  - by intros [= <-].
  - intros Hn Hr. eapply path_ext; [apply edges_create|]. by apply (H i n).
Qed.

Lemma routed_update d b g s : keeps g -> routed d s -> routed d (update b g s).
Proof.
  intros Hg H i n. rewrite lookup_update. intros Hn Hr.
  eapply path_ext; [apply edges_update|].
  case_decide; [|by apply (H i n)].
  destruct (nodes s !! i) as [m|] eqn:E; [|done]. injection Hn as <-.
  destruct (Hg m) as (_ & _ & Hrun). rewrite Hrun in Hr. by apply (H i m).
Qed.

Lemma routed_start d b t s :
  path s b d -> routed d s -> routed d (update b (starter t) s).
Proof.
  intros Hp H i n. rewrite lookup_update. intros Hn Hr.
  eapply path_ext; [apply edges_update|].
  case_decide; [by subst|by apply (H i n)].
Qed.

Lemma routed_connect d a b i s : routed d s -> routed d (connect a b i s).
Proof.
  intros H j n. rewrite nodes_connect. intros Hn Hr.
  eapply path_mono; [|by apply (H j n)].
  intros e He. rewrite edges_connect. apply elem_of_app. by left.
Qed.

Lemma no_input_dst a o s e :
  no_input s -> born a o s -> startable o = true -> e ∈ edges s -> dst e <> a.
Proof.
  intros Hi (n & Hn & Ho) Hs He Heq. destruct (Hi e He) as (m & Hm & Hf).
  subst a. assert (m = n) as -> by congruence. congruence.
Qed.

Lemma routed_try_stop d a o s :
  no_input s -> born a o s -> startable o = true ->
  routed d s -> routed d (try_stop_disconnect a s).
Proof.
  intros Hi Hb Hs H.
  destruct (try_stop_disconnect_cases a s) as [[-> _]|[-> _]]; [done|].
  intros i n. rewrite nodes_disconnect, lookup_update. intros Hn Hr.
  case_decide as E.
  - destruct (nodes s !! i) as [m|]; [|done]. by injection Hn as <-.
  - apply path_disconnect; [|done|].
    + intros e. rewrite edges_update. by apply (no_input_dst a o).
    + eapply path_ext; [apply edges_update|]. by apply (H i n).
Qed.

(** ** [no_input] *)

Lemma no_input_ext s s' :
  nodes s' = nodes s -> edges s' = edges s -> no_input s -> no_input s'.
Proof. unfold no_input, node_at. by intros -> ->. Qed.

Lemma no_input_create k o s : no_input s -> no_input (create k o s).
Proof.
  intros H e. rewrite edges_create. intros He.
  apply node_at_create_old. by apply H.
Qed.

Lemma no_input_update b g s :
  keeps_kind g -> no_input s -> no_input (update b g s).
Proof.
  intros Hg H e. rewrite edges_update. intros He.
  apply node_at_update_stable; [|by apply H].
  intros n Hn. by destruct (Hg n) as [_ ->].
Qed.

Lemma no_input_connect a b i o s :
  born b o s -> startable o = false -> no_input s -> no_input (connect a b i s).
Proof.
  intros Hb Ho H e. rewrite edges_connect, elem_of_app, list_elem_of_singleton.
  intros [He| ->].
  - eapply node_at_ext; [apply nodes_connect|]. by apply H.
  - eapply node_at_ext; [apply nodes_connect|]. simpl.
    eapply node_at_weaken; [|exact Hb]. simpl. by intros n ->.
Qed.

Lemma no_input_disconnect a s : no_input s -> no_input (disconnect a s).
Proof.
  intros H e. rewrite edges_disconnect, list_elem_of_filter. intros [_ He].
  eapply node_at_ext; [apply nodes_disconnect|]. by apply H.
Qed.

Lemma no_input_try_stop a s : no_input s -> no_input (try_stop_disconnect a s).
Proof.
  intros H. destruct (try_stop_disconnect_cases a s) as [[-> _]|[-> _]]; [done|].
  apply no_input_disconnect.
  by apply (no_input_update a (set_run Ended) s keeps_kind_ended).
Qed.

(** ** [unchanged] *)

Lemma unchanged_refl o s : unchanged o s s.
Proof. by intros i n _. Qed.

Lemma unchanged_trans o s1 s2 s3 :
  unchanged o s1 s2 -> unchanged o s2 s3 -> unchanged o s1 s3.
Proof. intros H1 H2 i n Ho. by rewrite (H2 i n Ho), (H1 i n Ho). Qed.

Lemma unchanged_ext o s s1 s2 :
  nodes s2 = nodes s1 -> unchanged o s s1 -> unchanged o s s2.
Proof. unfold unchanged. by intros ->. Qed.

Lemma unchanged_create o s k o' s' :
  o' <> o -> unchanged o s s' -> unchanged o s (create k o' s').
Proof.
  intros Hne H i n Ho. rewrite lookup_create, <- (H i n Ho).
  case_decide as E; [|done]. subst i. split.
  - intros [= <-]. done.
  - intros Hn. apply lookup_lt_Some in Hn.
    rewrite next_id_length in Hn. lia.
Qed.

Lemma unchanged_update o s b g o' s' :
  born b o' s' -> o' <> o -> keeps_kind g ->
  unchanged o s s' -> unchanged o s (update b g s').
Proof.
  intros (m & Hm & Hom) Hne Hg H i n Ho.
  rewrite lookup_update, <- (H i n Ho).
  case_decide as E; [|done]. subst i. rewrite Hm. simpl. split.
  - intros [= <-]. destruct (Hg m) as [_ Hgo]. congruence.
  - intros [= <-]. congruence.
Qed.

Lemma unchanged_update_absent o s b g s' :
  next_id s' <= b -> unchanged o s s' -> unchanged o s (update b g s').
Proof.
  intros Hb H i n Ho. rewrite lookup_update, <- (H i n Ho).
  case_decide as E; [|done]. subst i.
  rewrite next_id_length in Hb.
  rewrite (lookup_ge_None_2 (nodes s') b) by done. done.
Qed.

Lemma unchanged_try_stop o s b o' s' :
  born b o' s' -> o' <> o ->
  unchanged o s s' -> unchanged o s (try_stop_disconnect b s').
Proof.
  intros Hb Hne H.
  destruct (try_stop_disconnect_cases b s') as [[-> _]|[-> _]]; [done|].
  eapply unchanged_ext; [apply nodes_disconnect|].
  by apply (unchanged_update o s b (set_run Ended) o' s' Hb Hne keeps_kind_ended).
Qed.

(** The sources that play are those of the nodes created for them. *)
Lemma positions_agree {A} (p : A -> bool) (l l' : list A) i :
  (forall j x, p x = true -> (l' !! j = Some x <-> l !! j = Some x)) ->
  positions p i l' = positions p i l.
Proof.
  revert l i. induction l' as [|y l' IH]; intros l i H.
  - induction l as [|x l IHl] in i, H |- *; [done|]. simpl.
    destruct (p x) eqn:Hx.
    + by pose proof (proj2 (H 0 x Hx) eq_refl).
    + apply IHl. intros j z Hz. split; [done|]. intros Hj.
      by pose proof (proj2 (H (S j) z Hz) Hj).
  - destruct l as [|x l]; simpl.
    + destruct (p y) eqn:Hy.
      * by pose proof (proj1 (H 0 y Hy) eq_refl).
      * apply (IH [] (S i)). intros j z Hz. split; [|done]. intros Hj.
        by pose proof (proj1 (H (S j) z Hz) Hj).
    + assert (positions p (S i) l' = positions p (S i) l) as ->.
      { apply IH. intros j z Hz. apply (H (S j) z Hz). }
      destruct (p y) eqn:Hy.
      * pose proof (proj1 (H 0 y Hy) eq_refl) as [= ->]. by rewrite Hy.
      * destruct (p x) eqn:Hx; [|done].
        pose proof (proj2 (H 0 x Hx) eq_refl) as [= ->]. congruence.
Qed.

Lemma unchanged_active o s s' : unchanged o s s' -> active o s' = active o s.
Proof.
  intros H. apply positions_agree. intros j x Hx. apply H.
  unfold is_active in Hx. apply andb_true_iff in Hx as [Hx _].
  by apply bool_decide_eq_true in Hx.
Qed.

End RoutingFacts.

Module RoutingSteps.

Import AudioEngine EngineFacts Routing RoutingFacts.

(** ** The fields, the ids and the connections after a field update *)

Lemma refs_set_micStream v s : refs (set_micStream v s) = refs s.
Proof. reflexivity. Qed.
Lemma refs_set_adaptiveInterval v s : refs (set_adaptiveInterval v s) = refs s.
Proof. reflexivity. Qed.
Lemma refs_set_isAdaptive v s : refs (set_isAdaptive v s) = refs s.
Proof. reflexivity. Qed.
Lemma refs_set_currentTime v s : refs (set_currentTime v s) = refs s.
Proof. reflexivity. Qed.
Lemma refs_set_micRequests v s : refs (set_micRequests v s) = refs s.
Proof. reflexivity. Qed.
Lemma refs_set_streams v s : refs (set_streams v s) = refs s.
Proof. reflexivity. Qed.
Lemma refs_set_timers v s : refs (set_timers v s) = refs s.
Proof. reflexivity. Qed.
Lemma refs_set_restores v s : refs (set_restores v s) = refs s.
Proof. reflexivity. Qed.

Lemma next_id_set_micStream v s : next_id (set_micStream v s) = next_id s.
Proof. reflexivity. Qed.
Lemma next_id_set_adaptiveInterval v s :
  next_id (set_adaptiveInterval v s) = next_id s.
Proof. reflexivity. Qed.
Lemma next_id_set_isAdaptive v s : next_id (set_isAdaptive v s) = next_id s.
Proof. reflexivity. Qed.
Lemma next_id_set_currentTime v s : next_id (set_currentTime v s) = next_id s.
Proof. reflexivity. Qed.
Lemma next_id_set_micRequests v s : next_id (set_micRequests v s) = next_id s.
Proof. reflexivity. Qed.
Lemma next_id_set_streams v s : next_id (set_streams v s) = next_id s.
Proof. reflexivity. Qed.
Lemma next_id_set_timers v s : next_id (set_timers v s) = next_id s.
Proof. reflexivity. Qed.
Lemma next_id_set_restores v s : next_id (set_restores v s) = next_id s.
Proof. reflexivity. Qed.

Lemma edges_set_micStream v s : edges (set_micStream v s) = edges s.
Proof. reflexivity. Qed.
Lemma edges_set_adaptiveInterval v s :
  edges (set_adaptiveInterval v s) = edges s.
Proof. reflexivity. Qed.
Lemma edges_set_isAdaptive v s : edges (set_isAdaptive v s) = edges s.
Proof. reflexivity. Qed.
Lemma edges_set_currentTime v s : edges (set_currentTime v s) = edges s.
Proof. reflexivity. Qed.
Lemma edges_set_micRequests v s : edges (set_micRequests v s) = edges s.
Proof. reflexivity. Qed.
Lemma edges_set_streams v s : edges (set_streams v s) = edges s.
Proof. reflexivity. Qed.
Lemma edges_set_timers v s : edges (set_timers v s) = edges s.
Proof. reflexivity. Qed.
Lemma edges_set_restores v s : edges (set_restores v s) = edges s.
Proof. reflexivity. Qed.

Lemma nodes_set_micStream v s : nodes (set_micStream v s) = nodes s.
Proof. reflexivity. Qed.
Lemma nodes_set_adaptiveInterval v s :
  nodes (set_adaptiveInterval v s) = nodes s.
Proof. reflexivity. Qed.
Lemma nodes_set_isAdaptive v s : nodes (set_isAdaptive v s) = nodes s.
Proof. reflexivity. Qed.
Lemma nodes_set_currentTime v s : nodes (set_currentTime v s) = nodes s.
Proof. reflexivity. Qed.
Lemma nodes_set_micRequests v s : nodes (set_micRequests v s) = nodes s.
Proof. reflexivity. Qed.
Lemma nodes_set_streams v s : nodes (set_streams v s) = nodes s.
Proof. reflexivity. Qed.
Lemma nodes_set_timers v s : nodes (set_timers v s) = nodes s.
Proof. reflexivity. Qed.
Lemma nodes_set_restores v s : nodes (set_restores v s) = nodes s.
Proof. reflexivity. Qed.

Create Rewrite HintDb fields.
#[export] Hint Rewrite refs_try_stop refs_connect_ref refs_create refs_update
  refs_connect refs_disconnect refs_set_ref refs_set_baseNoiseVolume
  refs_set_micStream refs_set_adaptiveInterval refs_set_isAdaptive
  refs_set_currentTime refs_set_micRequests refs_set_streams refs_set_timers
  refs_set_restores
  next_id_create next_id_update next_id_try_stop next_id_connect
  next_id_set_ref next_id_set_baseNoiseVolume
  next_id_set_micStream next_id_set_adaptiveInterval next_id_set_isAdaptive
  next_id_set_currentTime next_id_set_micRequests next_id_set_streams
  next_id_set_timers next_id_set_restores : fields.

Create Rewrite HintDb wires.
#[export] Hint Rewrite edges_create edges_update edges_set_ref
  edges_set_baseNoiseVolume edges_set_micStream edges_set_adaptiveInterval
  edges_set_isAdaptive edges_set_currentTime edges_set_micRequests
  edges_set_streams edges_set_timers edges_set_restores : wires.

End RoutingSteps.

Module RoutingInv.

Import AudioEngine EngineFacts Routing RoutingFacts RoutingSteps.

Lemma refs_at s s' f v : refs s' = refs s -> refs s f = v -> refs s' f = v.
Proof. by intros ->. Qed.

Lemma refs_set_ref_same f v s : refs (set_ref f v s) f = v.
Proof. rewrite refs_set_ref. by case_decide. Qed.

Lemma refs_set_ref_other f g v w s :
  g <> f -> refs s g = w -> refs (set_ref f v s) g = w.
Proof. intros Hne <-. rewrite refs_set_ref. by case_decide. Qed.

Lemma edge_create e k o s : e ∈ edges s -> e ∈ edges (create k o s).
Proof. by rewrite edges_create. Qed.
Lemma edge_update e b g s : e ∈ edges s -> e ∈ edges (update b g s).
Proof. by rewrite edges_update. Qed.
Lemma edge_connect_old e a b i s : e ∈ edges s -> e ∈ edges (connect a b i s).
Proof. rewrite edges_connect. apply elem_of_snoc_before. Qed.
Lemma edge_connect_new a b i s : mkEdge a b i ∈ edges (connect a b i s).
Proof. rewrite edges_connect. apply elem_of_snoc_here. Qed.
Lemma edge_ext e s s' : edges s' = edges s -> e ∈ edges s -> e ∈ edges s'.
Proof. by intros ->. Qed.

(** The nodes and the connections that an update of a field leaves. *)
Ltac same_nodes_edges S k :=
  lazymatch S with
  | set_ref ?f ?v ?s => k (nodes_set_ref f v s) (edges_set_ref f v s)
  | set_baseNoiseVolume ?v ?s =>
      k (nodes_set_baseNoiseVolume v s) (edges_set_baseNoiseVolume v s)
  | set_micStream ?v ?s => k (nodes_set_micStream v s) (edges_set_micStream v s)
  | set_adaptiveInterval ?v ?s =>
      k (nodes_set_adaptiveInterval v s) (edges_set_adaptiveInterval v s)
  | set_isAdaptive ?v ?s => k (nodes_set_isAdaptive v s) (edges_set_isAdaptive v s)
  | set_currentTime ?v ?s =>
      k (nodes_set_currentTime v s) (edges_set_currentTime v s)
  | set_micRequests ?v ?s =>
      k (nodes_set_micRequests v s) (edges_set_micRequests v s)
  | set_streams ?v ?s => k (nodes_set_streams v s) (edges_set_streams v s)
  | set_timers ?v ?s => k (nodes_set_timers v s) (edges_set_timers v s)
  | set_restores ?v ?s => k (nodes_set_restores v s) (edges_set_restores v s)
  end.

Ltac born_back :=
  repeat lazymatch goal with
  | |- born ?a _ (create _ _ ?s) =>
      first [is_next_id a s; apply born_create_new | apply born_create_old]
  | |- born _ _ (update _ _ _) => apply born_update; [solve_keeps|]
  | |- born _ _ (try_stop_disconnect _ _) => apply born_try_stop
  | |- born _ _ (connect _ _ _ _) => eapply born_ext; [apply nodes_connect|]
  | |- born _ _ (disconnect _ _) => eapply born_ext; [apply nodes_disconnect|]
  | |- born _ _ ?S =>
      first [ same_nodes_edges S ltac:(fun Hn He => eapply born_ext; [exact Hn|])
            | eassumption ]
  end.

Ltac decide_all :=
  repeat match goal with
  | |- context [decide (?a = ?b)] =>
      destruct (decide (a = b)) as [?|?]; [try discriminate | try congruence]
  | _ : context [decide (?a = ?b)] |- _ =>
      destruct (decide (a = b)) as [?|?]; [try discriminate | try congruence]
  end.

Ltac neq_nodes :=
  cbn [src dst];
  first [ lia | eapply born_neq; [eassumption | eassumption | discriminate] ].

(** A connection, stepped back to the operation that made it or to the
    state the method started in. *)
Ltac edge_back :=
  lazymatch goal with
  | |- _ ∈ edges (create _ _ _) => apply edge_create
  | |- _ ∈ edges (update _ _ _) => apply edge_update
  | |- mkEdge ?a _ _ ∈ edges (connect ?a' _ _ _) =>
      first [ constr_eq a a'; apply edge_connect_new | apply edge_connect_old ]
  | |- _ ∈ edges (try_stop_disconnect _ _) =>
      apply elem_of_edges_try_stop; [neq_nodes|]
  | |- _ ∈ edges ?S =>
      first [ same_nodes_edges S ltac:(fun Hn He => eapply edge_ext; [exact He|])
            | match goal with
              | H : linked _ _ _ S |- _ => solve [eapply H; eassumption]
              end
            | eassumption ]
  end.

Ltac route :=
  repeat (eapply path_step; [solve [repeat edge_back] | ]); apply path_here.

Ltac wire_back :=
  lazymatch goal with
  | |- routed _ (create _ _ _) => apply routed_create
  | |- routed _ (update _ (starter _) _) => apply routed_start; [route|]
  | |- routed _ (update _ _ _) => apply routed_update; [solve_keeps|]
  | |- routed _ (connect _ _ _ _) => apply routed_connect
  | |- routed _ (try_stop_disconnect _ _) =>
      eapply routed_try_stop; [ | solve [born_back] | reflexivity | ]
  | |- routed _ ?S =>
      first [ same_nodes_edges S
                ltac:(fun Hn He => eapply routed_ext; [exact Hn|exact He|])
            | assumption ]
  | |- silent (create _ _ _) => apply silent_create
  | |- silent (update _ _ _) => apply silent_update; [solve_keeps|]
  | |- silent (connect _ _ _ _) => eapply silent_ext; [apply nodes_connect|]
  | |- silent (try_stop_disconnect _ _) => apply silent_try_stop
  | |- silent ?S =>
      first [ same_nodes_edges S ltac:(fun Hn He => eapply silent_ext; [exact Hn|])
            | assumption ]
  | |- no_input (create _ _ _) => apply no_input_create
  | |- no_input (update _ _ _) => apply no_input_update; [solve_keeps|]
  | |- no_input (connect _ _ _ _) =>
      eapply no_input_connect; [solve [born_back] | reflexivity | ]
  | |- no_input (try_stop_disconnect _ _) => apply no_input_try_stop
  | |- no_input ?S =>
      first [ same_nodes_edges S
                ltac:(fun Hn He => eapply no_input_ext; [exact Hn|exact He|])
            | assumption ]
  | |- unchanged _ _ (create _ _ _) => apply unchanged_create; [discriminate|]
  | |- unchanged _ _ (update _ _ _) =>
      eapply unchanged_update; [solve [born_back] | discriminate | solve_keeps | ]
  | |- unchanged _ _ (connect _ _ _ _) =>
      eapply unchanged_ext; [apply nodes_connect|]
  | |- unchanged _ _ (try_stop_disconnect _ _) =>
      eapply unchanged_try_stop; [solve [born_back] | discriminate | ]
  | |- unchanged _ _ ?S =>
      first [ same_nodes_edges S
                ltac:(fun Hn He => eapply unchanged_ext; [exact Hn|])
            | apply unchanged_refl
            | assumption ]
  end.

(** The facts about the state [S] a method starts in: the nodes its fields
    hold and the ids it gives out. *)
Ltac born_facts S :=
  repeat match goal with
  | Ht : typed S, H : refs S ?f = Some ?a |- _ =>
      lazymatch goal with
      | _ : born a f S |- _ => fail
      | _ => pose proof (Ht f a H : born a f S)
      end
  end;
  repeat match goal with
  | H : born ?a ?f S |- _ =>
      lazymatch goal with
      | _ : a < next_id S |- _ => fail
      | _ => pose proof (node_at_lt a _ S H : a < next_id S)
      end
  end.

Ltac ids :=
  repeat match goal with
  | x := next_id ?S |- _ =>
      lazymatch goal with
      | _ : x = _ |- _ => fail
      | _ => idtac
      end;
      let H := fresh "Hid" in
      assert (H : x = next_id S) by reflexivity;
      autorewrite with fields in H
  end.

Lemma complete_Some s d :
  refs s ctx = Some d -> (forall f, f ∈ bus_fields -> refs s f <> None) ->
  complete s.
Proof. unfold complete. by intros ->. Qed.

Lemma complete_None s :
  refs s ctx = None -> (forall f, refs s f = None) -> complete s.
Proof. unfold complete. by intros ->. Qed.

Lemma audible_Some s d : refs s ctx = Some d -> routed d s -> audible s.
Proof. unfold audible. by intros ->. Qed.

Lemma audible_None s : refs s ctx = None -> silent s -> audible s.
Proof. unfold audible. by intros ->. Qed.

Lemma bus_cases (P : slot -> Prop) :
  P masterGain -> P reverbNode -> P reverbGain -> P delayNode -> P delayGain ->
  forall f, f ∈ bus_fields -> P f.
Proof.
  intros ????? f Hf. unfold bus_fields in Hf.
  repeat (apply elem_of_cons in Hf as [->|Hf]; [done|]).
  by apply elem_of_nil in Hf.
Qed.

(** What [sound] and [inv] say of a state with a context. *)
Lemma sound_Some s d :
  inv s -> sound s -> refs s ctx = Some d ->
  (typed s /\ routed d s /\ no_input s) /\
  (exists m rv rg dn dg,
     refs s masterGain = Some m /\ refs s reverbNode = Some rv /\
     refs s reverbGain = Some rg /\ refs s delayNode = Some dn /\
     refs s delayGain = Some dg) /\
  wired s.
Proof.
  intros (_ & Ht & _) (Hc & Hw & Hi & Ha) Hd.
  unfold complete, audible in *. rewrite Hd in *.
  split; [done|]. split; [|done].
  assert (forall f, f ∈ bus_fields -> exists a, refs s f = Some a) as H.
  { intros f Hf. specialize (Hc f Hf). destruct (refs s f); [eauto|done]. }
  unfold bus_fields in H.
  destruct (H masterGain) as [m ?]; [repeat constructor|].
  destruct (H reverbNode) as [rv ?]; [repeat constructor|].
  destruct (H reverbGain) as [rg ?]; [repeat constructor|].
  destruct (H delayNode) as [dn ?]; [repeat constructor|].
  destruct (H delayGain) as [dg ?]; [repeat constructor|].
  by exists m, rv, rg, dn, dg.
Qed.

Lemma sound_None s :
  sound s -> refs s ctx = None ->
  (forall f, refs s f = None) /\ silent s /\ no_input s.
Proof.
  intros (Hc & Hw & Hi & Ha) Hd. unfold complete, audible in *.
  rewrite Hd in *. done.
Qed.

Ltac with_ctx S d Hd Hinv Hs :=
  pose proof (sound_Some S d Hinv Hs Hd)
    as ((Ht & Hr & Hi) & (m & rv & rg & dn & dg & Hb1 & Hb2 & Hb3 & Hb4 & Hb5)
        & (Hw1 & Hw2 & Hw3 & Hw4 & Hw5 & Hw6 & Hw7 & Hw8)).

(** The fields of the state [F] a method ends in, read once: [F] is named
    [F'] and each field of the routing is rewritten to what the method
    left in it. *)
Ltac decide_in R :=
  repeat match type of R with
  | context [decide (?a = ?b)] =>
      destruct (decide (a = b)) as [?|?]; [try discriminate | try congruence]
  end.

Ltac same_refs S k :=
  lazymatch S with
  | create ?k' ?o ?s => k (refs_create k' o s)
  | update ?b ?g ?s => k (refs_update b g s)
  | connect ?a ?b ?i ?s => k (refs_connect a b i s)
  | disconnect ?a ?s => k (refs_disconnect a s)
  | try_stop_disconnect ?a ?s => k (refs_try_stop a s)
  | connect_ref ?a ?f ?i ?s => k (refs_connect_ref a f i s)
  | set_baseNoiseVolume ?v ?s => k (refs_set_baseNoiseVolume v s)
  | set_micStream ?v ?s => k (refs_set_micStream v s)
  | set_adaptiveInterval ?v ?s => k (refs_set_adaptiveInterval v s)
  | set_isAdaptive ?v ?s => k (refs_set_isAdaptive v s)
  | set_currentTime ?v ?s => k (refs_set_currentTime v s)
  | set_micRequests ?v ?s => k (refs_set_micRequests v s)
  | set_streams ?v ?s => k (refs_set_streams v s)
  | set_timers ?v ?s => k (refs_set_timers v s)
  | set_restores ?v ?s => k (refs_set_restores v s)
  end.

(** Reads the field of a goal [refs F f = ?v] through the operations
    of [F]. *)
Ltac read_refs :=
  lazymatch goal with
  | |- refs (set_ref ?f ?v ?s) ?g = _ =>
      first [ constr_eq f g; apply refs_set_ref_same
            | apply refs_set_ref_other; [discriminate|read_refs] ]
  | |- refs ?S ?f = _ =>
      first [ same_refs S ltac:(fun E => eapply (refs_at _ _ f _ E); read_refs)
            | match goal with H : refs S f = _ |- _ => exact H end
            | reflexivity ]
  end.

Ltac cache_ref F' F EF f :=
  let R := fresh "R" in
  eassert (R : refs F' f = _) by (rewrite EF; read_refs).

Ltac norm :=
  repeat match goal with
  | H : refs ?F ?f = _ |- _ =>
      tryif is_var F then fail else
      (let R := fresh "R" in
       eassert (R : refs F f = _) by read_refs; rewrite R in H; clear R)
  end;
  repeat match goal with
  | H : Some ?x = Some ?y |- _ =>
      first [constr_eq x y; clear H | injection H as <-]
  | H : None = Some _ |- _ => discriminate H
  | H : Some _ = None |- _ => discriminate H
  end;
  try congruence.

(** A field that the method set or left set. *)
Ltac field_set :=
  lazymatch goal with
  | |- refs ?F ?f <> None =>
      let R := fresh "R" in
      eassert (R : refs F f = _) by read_refs; rewrite R; congruence
  end.

Ltac cache_refs :=
  lazymatch goal with
  | |- sound ?F =>
      let F' := fresh "F" in let EF := fresh "EF" in
      remember F as F' eqn:EF;
      cache_ref F' F EF ctx; cache_ref F' F EF masterGain;
      cache_ref F' F EF reverbNode; cache_ref F' F EF reverbGain;
      cache_ref F' F EF delayNode; cache_ref F' F EF delayGain;
      cache_ref F' F EF musicGain
  end.

Ltac read_ref H :=
  lazymatch type of H with
  | refs ?F ?f = _ =>
      match goal with
      | R : refs F f = _ |- _ =>
          lazymatch R with
          | H => fail
          | _ => rewrite R in H
          end
      end
  end.

Ltac unfold_state :=
  lazymatch goal with
  | |- _ ∈ edges ?F' => match goal with EF : F' = _ |- _ => rewrite EF end
  | |- routed _ ?F' => match goal with EF : F' = _ |- _ => rewrite EF end
  | |- no_input ?F' => match goal with EF : F' = _ |- _ => rewrite EF end
  end.

(** Reads a hypothesis [refs _ f = Some a] of a goal about connections. *)
Ltac settle H :=
  lazymatch type of H with
  | Some _ = Some _ => injection H as <-
  | None = Some _ => discriminate H
  | refs ?S ?f = Some _ =>
      try match goal with
          | H' : refs S f = Some _ |- _ =>
              lazymatch H' with
              | H => fail
              | _ => rewrite H' in H; injection H as <-
              end
          end
  end.

Ltac link_solve S :=
  lazymatch goal with
  | |- linked _ _ _ _ =>
      let a := fresh "a" in let b := fresh "b" in
      let Ha := fresh "Ha" in let Hb := fresh "Hb" in
      intros a b Ha Hb; read_ref Ha; read_ref Hb;
      settle Ha; settle Hb; born_facts S; unfold_state; repeat edge_back
  | |- _ => try unfold_state
  end.

(** The goals of [sound] in a state whose context is [d]. *)
Ltac sound_goals S :=
  lazymatch goal with
  | H : refs S ctx = Some ?d |- _ =>
      cache_refs;
      unfold sound, wired; repeat apply conj;
      [ eapply (complete_Some _ d); [congruence | apply bus_cases; congruence]
      | ..
      | eapply (audible_Some _ d); [congruence|] ]
  end.

Ltac without_ctx S Hd Hs :=
  pose proof (sound_None S Hs Hd) as (Hblank & Hsil & Hi).

Ltac no_field :=
  match goal with
  | Hblank : forall f, refs ?S f = None, H : refs ?S _ = Some _ |- _ =>
      by rewrite Hblank in H
  end.

Ltac sound_goals_none :=
  unfold sound, wired; repeat apply conj;
  [ apply complete_None;
      [ autorewrite with fields; decide_all; assumption
      | let f := fresh "f" in
        intros f; autorewrite with fields; decide_all;
        first [reflexivity | match goal with H : forall f, _ = None |- _ => apply H end] ]
  | ..
  | apply audible_None; [autorewrite with fields; decide_all; assumption|] ].

Ltac link_none :=
  lazymatch goal with
  | |- linked _ _ _ _ =>
      let a := fresh "a" in let b := fresh "b" in
      let Ha := fresh "Ha" in let Hb := fresh "Hb" in
      intros a b Ha Hb; autorewrite with fields in Ha, Hb; decide_all;
      try no_field; settle Ha; settle Hb
  | |- _ => idtac
  end.

(** A method that does not call [initContext], from a state [s]. *)
Ltac sound_plain s Hinv Hs :=
  let d := fresh "d" in let Hd := fresh "Hd" in
  destruct (refs s ctx) as [d|] eqn:Hd;
  [ with_ctx s d Hd Hinv Hs;
    simp_state; try assumption;
    norm; born_facts s; ids; sound_goals s; link_solve s;
    repeat wire_back
  | without_ctx s Hd Hs;
    simp_state; try assumption;
    norm; try no_field; sound_goals_none; link_none;
    repeat wire_back ].

Lemma sound_same_graph s s' : same_graph s' s -> sound s -> sound s'.
Proof.
  intros (Hn & He & Hr).
  unfold sound, complete, wired, linked, no_input, audible, routed, silent,
    node_at.
  rewrite Hn, He, Hr. intros (Hc & Hw & Hi & Ha).
  repeat apply conj; try tauto.
  destruct (refs s ctx); [|done].
  intros j m Hj Hrun. eapply path_ext; [exact He|]. by apply (Ha j m).
Qed.

Lemma same_graph_stopAdaptiveLoop s : same_graph (stopAdaptiveLoop s) s.
Proof. unfold stopAdaptiveLoop. by destruct (adaptiveInterval s). Qed.

Lemma sound_stopNoise s : inv s -> sound s -> sound (stopNoise s).
Proof.
  intros Hinv Hs. cbv beta delta [stopNoise].
  sound_plain s Hinv Hs.
Qed.

Lemma sound_stopBinaural s : inv s -> sound s -> sound (stopBinaural s).
Proof.
  intros Hinv Hs. cbv beta delta [stopBinaural].
  sound_plain s Hinv Hs.
Qed.

(** The end of [stopAll]: the stream is dropped and the master gain fades. *)
Lemma inv_stopAll_end s :
  inv s ->
  inv (match micStream s with
       | Some _ => set_ref micSource None (set_micStream None s)
       | None => s
       end).
Proof. inv_intro. inv_solve. Qed.

Lemma sound_stopAll s : inv s -> sound s -> sound (stopAll s).
Proof.
  intros Hinv Hs.
  cbv beta delta [stopAll]. cbv zeta.
  assert (inv (stopAdaptiveLoop (stopNoise (stopBinaural s)))) as Hinv1.
  { eapply inv_same_graph; [apply same_graph_stopAdaptiveLoop|].
    by apply inv_stopNoise, inv_stopBinaural. }
  assert (sound (stopAdaptiveLoop (stopNoise (stopBinaural s)))) as Hs1.
  { eapply sound_same_graph; [apply same_graph_stopAdaptiveLoop|].
    apply sound_stopNoise; [by apply inv_stopBinaural|].
    by apply sound_stopBinaural. }
  revert Hinv1 Hs1. generalize (stopAdaptiveLoop (stopNoise (stopBinaural s))).
  clear Hinv Hs s. intros s Hinv Hs. cbv beta delta [setTargetAtTime].
  sound_plain s Hinv Hs.
Qed.

Lemma sound_setMusicVolume v s : inv s -> sound s -> sound (setMusicVolume v s).
Proof.
  intros Hinv Hs. cbv beta delta [setMusicVolume setTargetAtTime].
  sound_plain s Hinv Hs.
Qed.

Lemma sound_setReverbMix v s : inv s -> sound s -> sound (setReverbMix v s).
Proof.
  intros Hinv Hs. cbv beta delta [setReverbMix setTargetAtTime].
  sound_plain s Hinv Hs.
Qed.

Lemma sound_setDelayMix v s : inv s -> sound s -> sound (setDelayMix v s).
Proof.
  intros Hinv Hs. cbv beta delta [setDelayMix setTargetAtTime].
  sound_plain s Hinv Hs.
Qed.

Lemma sound_setBinauralVolume v s :
  inv s -> sound s -> sound (setBinauralVolume v s).
Proof.
  intros Hinv Hs. cbv beta delta [setBinauralVolume setTargetAtTime].
  sound_plain s Hinv Hs.
Qed.

Lemma sound_updateNoiseGain v s : inv s -> sound s -> sound (updateNoiseGain v s).
Proof.
  intros Hinv Hs. cbv beta delta [updateNoiseGain setTargetAtTime].
  sound_plain s Hinv Hs.
Qed.

Lemma sound_setNoiseVolume v s : inv s -> sound s -> sound (setNoiseVolume v s).
Proof.
  intros Hinv Hs. cbv beta delta [setNoiseVolume]. cbv zeta.
  assert (inv (set_baseNoiseVolume v s)) as Hinv1
    by (eapply inv_same_graph; [apply same_graph_baseNoiseVolume|done]).
  assert (sound (set_baseNoiseVolume v s)) as Hs1
    by (eapply sound_same_graph; [apply same_graph_baseNoiseVolume|done]).
  destruct (isAdaptive _); [done|]. by apply sound_updateNoiseGain.
Qed.

Lemma sound_adaptiveCallback data s :
  inv s -> sound s -> sound (adaptiveCallback data s).
Proof.
  intros Hinv Hs. cbv beta delta [adaptiveCallback setTargetAtTime].
  sound_plain s Hinv Hs.
Qed.

Lemma sound_restoreMaster s : inv s -> sound s -> sound (restoreMaster s).
Proof.
  intros Hinv Hs. cbv beta delta [restoreMaster].
  sound_plain s Hinv Hs.
Qed.

#[local] Transparent initContext.

Lemma sound_initContext s : inv s -> sound s -> sound (initContext s).
Proof.
  intros Hinv Hs. cbv beta delta [initContext].
  destruct (refs s ctx) eqn:Hd; [done|].
  without_ctx s Hd Hs. simp_state. ids.
  unfold sound, wired; repeat apply conj.
  1: { lazymatch goal with
       | d := next_id s |- _ => apply (complete_Some _ d)
       end;
         [ autorewrite with fields; decide_all; reflexivity
         | apply bus_cases; autorewrite with fields; decide_all; discriminate ]. }
  10: { lazymatch goal with
       | d := next_id s |- _ => apply (audible_Some _ d)
       end; [autorewrite with fields; decide_all; reflexivity|].
       apply silent_routed. repeat wire_back. }
  all: link_none; repeat edge_back; repeat wire_back.
Qed.

#[local] Opaque initContext.

(** A method that starts with [initContext]. *)
Ltac sound_ctx s Hinv Hs :=
  let S := fresh "S" in let d := fresh "d" in let Hd := fresh "Hd" in
  let Hinv' := fresh "Hinv" in let Hs' := fresh "Hs" in
  let Hctx := fresh "Hctx" in
  pose proof (inv_initContext s Hinv) as Hinv';
  pose proof (sound_initContext s Hinv Hs) as Hs';
  pose proof (initContext_ctx s) as Hctx;
  revert Hinv' Hs' Hctx; generalize (initContext s); clear Hinv Hs;
  intros S Hinv' Hs' Hctx;
  destruct (refs S ctx) as [d|] eqn:Hd; [|done];
  with_ctx S d Hd Hinv' Hs';
  simp_state; try assumption;
  norm; born_facts S; ids; sound_goals S; link_solve S;
  repeat wire_back.

Lemma sound_startNoise type v s : inv s -> sound s -> sound (startNoise type v s).
Proof.
  intros Hinv Hs. cbv beta delta [startNoise stopNoise].
  cbv beta delta [start connect_ref].
  sound_ctx s Hinv Hs.
Qed.

Lemma sound_startBinaural c b v s :
  inv s -> sound s -> sound (startBinaural c b v s).
Proof.
  intros Hinv Hs. cbv beta delta [startBinaural stopBinaural].
  cbv beta delta [start connect_ref].
  sound_ctx s Hinv Hs.
Qed.

Lemma sound_enableAdaptiveNoise_granted s :
  inv s -> sound s -> sound (enableAdaptiveNoise_granted s).
Proof.
  intros Hinv Hs.
  cbv beta delta [enableAdaptiveNoise_granted startAdaptiveLoop].
  sound_ctx s Hinv Hs.
Qed.

Lemma sound_enableAdaptiveNoise enable s :
  inv s -> sound s -> sound (enableAdaptiveNoise enable s).
Proof.
  intros Hinv Hs.
  assert (inv (set_isAdaptive enable s)) as Hinv1
    by (eapply inv_same_graph; [apply same_graph_isAdaptive|done]).
  assert (sound (set_isAdaptive enable s)) as Hs1
    by (eapply sound_same_graph; [apply same_graph_isAdaptive|done]).
  cbv beta delta [enableAdaptiveNoise]. cbv zeta. destruct enable.
  - destruct (micStream _).
    + by apply sound_enableAdaptiveNoise_granted.
    + eapply sound_same_graph; [apply same_graph_micRequests|done].
  - apply sound_updateNoiseGain.
    + eapply inv_same_graph; [apply same_graph_stopAdaptiveLoop|done].
    + eapply sound_same_graph; [apply same_graph_stopAdaptiveLoop|done].
Qed.

Lemma sound_micGranted s : inv s -> sound s -> sound (micGranted s).
Proof.
  intros Hinv Hs. unfold micGranted. destruct (micRequests s); [done|].
  cbv zeta. apply sound_enableAdaptiveNoise_granted.
  - eapply inv_same_graph; [apply same_graph_micStream|].
    eapply inv_same_graph; [apply same_graph_streams|].
    eapply inv_same_graph; [apply same_graph_micRequests|done].
  - eapply sound_same_graph; [apply same_graph_micStream|].
    eapply sound_same_graph; [apply same_graph_streams|].
    eapply sound_same_graph; [apply same_graph_micRequests|done].
Qed.

Lemma sound_micDenied s : inv s -> sound s -> sound (micDenied s).
Proof.
  intros Hinv Hs. unfold micDenied. destruct (micRequests s); [done|].
  eapply sound_same_graph; [apply same_graph_isAdaptive|].
  eapply sound_same_graph; [apply same_graph_micRequests|done].
Qed.

Section WithPow.

Variable pow_approx : JS.number -> JS.number -> JS.number.

Lemma refs_playNote now s n :
  refs (state_of (playNote pow_approx now s n)) = refs s.
Proof.
  cbv beta delta [playNote start stop_at].
  simp_state; by autorewrite with fields.
Qed.

Lemma sound_playNote now s n :
  inv s -> sound s -> refs s ctx <> None -> refs s musicGain <> None ->
  sound (state_of (playNote pow_approx now s n)).
Proof.
  intros Hinv Hs Hctx Hmg. cbv beta delta [playNote].
  cbv beta delta [start stop_at connect_ref].
  sound_plain s Hinv Hs.
Qed.

Lemma sound_playNotes now notes s :
  inv s -> sound s -> refs s ctx <> None -> refs s musicGain <> None ->
  sound (state_of (playNotes pow_approx now notes s)).
Proof.
  revert s. induction notes as [|n notes IH]; intros s Hinv Hs Hctx Hmg; [done|].
  simpl.
  pose proof (inv_playNote pow_approx now s n Hinv) as Hinv'.
  pose proof (sound_playNote now s n Hinv Hs Hctx Hmg) as Hs'.
  pose proof (refs_playNote now s n) as Hr.
  destruct (playNote pow_approx now s n) as [s1|s1]; simpl in *; [|done].
  apply IH; [done|done|by rewrite Hr|by rewrite Hr].
Qed.

Lemma sound_playComposition notes s :
  inv s -> sound s -> sound (state_of (playComposition pow_approx notes s)).
Proof.
  intros Hinv Hs. cbv beta delta [playComposition].
  cbv beta delta [connect_ref].
  pose proof (inv_initContext s Hinv) as Hinv'.
  pose proof (sound_initContext s Hinv Hs) as Hs'.
  pose proof (initContext_ctx s) as Hctx.
  revert Hinv' Hs' Hctx. generalize (initContext s). clear Hinv Hs s.
  intros S Hinv Hs Hctx.
  destruct (refs S ctx) as [d|] eqn:Hd; [|done].
  with_ctx S d Hd Hinv Hs.
  pose proof Hinv as (Hk & _ & Hm & [Hn1 Hn2] & [Hl1 Hl2] & [Hr1 Hr2]).
  simp_state; norm; born_facts S; ids;
    (apply sound_playNotes;
     [ first [assumption | unfold inv; repeat apply conj; repeat back]
     | first [assumption | sound_goals S; link_solve S; repeat wire_back]
     | field_set
     | field_set ]).
Qed.

Lemma sound_step s e : inv s -> sound s -> sound (step pow_approx s e).
Proof.
  intros Hinv Hs. destruct e; simpl.
  - by apply sound_initContext.
  - by apply sound_enableAdaptiveNoise.
  - by apply sound_micGranted.
  - by apply sound_micDenied.
  - destruct (adaptiveInterval s); [by apply sound_adaptiveCallback|done].
  - by apply sound_setNoiseVolume.
  - by apply sound_startNoise.
  - by apply sound_stopNoise.
  - by apply sound_setMusicVolume.
  - by apply sound_playComposition.
  - by apply sound_setReverbMix.
  - by apply sound_setDelayMix.
  - by apply sound_setBinauralVolume.
  - by apply sound_startBinaural.
  - by apply sound_stopBinaural.
  - by apply sound_stopAll.
  - by apply sound_restoreMaster.
  - eapply sound_same_graph; [apply same_graph_currentTime|done].
Qed.

Lemma sound_init : sound init.
Proof.
  unfold sound, complete, wired, linked, no_input, audible, silent. cbn.
  repeat apply conj; try done.
  intros e He. by apply elem_of_nil in He.
Qed.

Lemma sound_steps evs s :
  inv s -> sound s -> sound (fold_left (step pow_approx) evs s).
Proof.
  revert s. induction evs as [|e evs IH]; intros s Hinv Hs; [done|].
  simpl. apply IH; [by apply inv_step|by apply sound_step].
Qed.

Lemma sound_reachable s : reachable pow_approx s -> sound s.
Proof. intros [evs ->]. apply sound_steps; [apply inv_init|apply sound_init]. Qed.

End WithPow.

End RoutingInv.

(** ** What a call leaves alone *)

Module FrameFacts.

Import AudioEngine EngineFacts Routing RoutingFacts RoutingSteps RoutingInv.

Lemma unchanged_same_graph o s s' : same_graph s' s -> unchanged o s s'.
Proof. intros (Hn & _). unfold unchanged. by rewrite Hn. Qed.

(** The nodes of a source are stepped back through a method body, for each
    of the variables that hold a source. *)
Ltac frame_solve S :=
  simp_state; try apply unchanged_refl;
  norm; born_facts S; repeat wire_back.

Ltac by_source f Hf :=
  destruct f; try discriminate Hf.

#[local] Transparent initContext.

Lemma unchanged_initContext o s :
  startable o = true -> unchanged o s (initContext s).
Proof.
  intros Ho. cbv beta delta [initContext].
  destruct (refs s ctx); [apply unchanged_refl|].
  simp_state. by_source o Ho; repeat wire_back.
Qed.

#[local] Opaque initContext.

(** A method that starts with [initContext]. *)
Ltac frame_ctx s Hinv o Ho Hd :=
  let S := fresh "S" in let Hinv' := fresh "Hinv" in let Hu := fresh "Hu" in
  apply (unchanged_trans o s (initContext s));
    [by apply unchanged_initContext|];
  pose proof (inv_initContext s Hinv) as Hinv';
  revert Hinv'; generalize (initContext s); clear Hinv;
  intros S (_ & Ht & _);
  simp_state; try apply unchanged_refl;
  norm; born_facts S;
  by_source o Ho; try discriminate Hd; repeat wire_back.

Ltac frame_plain s Hinv o Ho Hd :=
  destruct Hinv as (_ & Ht & _);
  simp_state; try apply unchanged_refl;
  norm; born_facts s;
  by_source o Ho; try discriminate Hd; repeat wire_back.

Lemma unchanged_granted o s :
  inv s -> startable o = true -> unchanged o s (enableAdaptiveNoise_granted s).
Proof.
  intros Hinv Ho.
  cbv beta delta [enableAdaptiveNoise_granted startAdaptiveLoop].
  assert (true = true) as Hd by done.
  frame_ctx s Hinv o Ho Hd.
Qed.

Section WithPow.

Variable pow_approx : JS.number -> JS.number -> JS.number.

Lemma unchanged_playNote o now s n :
  inv s -> startable o = true -> drives (PlayComposition []) o = false ->
  unchanged o s (state_of (playNote pow_approx now s n)).
Proof.
  intros Hinv Ho Hd. cbv beta delta [playNote].
  cbv beta delta [start stop_at connect_ref].
  frame_plain s Hinv o Ho Hd.
Qed.

Lemma unchanged_playNotes o now notes s :
  inv s -> startable o = true -> drives (PlayComposition []) o = false ->
  unchanged o s (state_of (playNotes pow_approx now notes s)).
Proof.
  intros Hinv Ho Hd. revert s Hinv.
  induction notes as [|n notes IH]; intros s Hinv; [apply unchanged_refl|].
  simpl.
  pose proof (inv_playNote pow_approx now s n Hinv) as Hinv'.
  pose proof (unchanged_playNote o now s n Hinv Ho Hd) as Hu.
  destruct (playNote pow_approx now s n) as [s1|s1]; simpl in *; [|done].
  eapply unchanged_trans; [exact Hu|]. by apply IH.
Qed.

(** A call leaves alone the sources of the variables it does not drive. *)
Lemma unchanged_step s e o :
  inv s -> startable o = true -> drives e o = false ->
  unchanged o s (step pow_approx s e).
Proof.
  intros Hinv Ho Hd. destruct e; simpl step.
  - by apply unchanged_initContext.
  - cbv beta delta [enableAdaptiveNoise]. cbv zeta. destruct enable.
    + eapply unchanged_trans;
        [apply unchanged_same_graph, (same_graph_isAdaptive true)|].
      destruct (micStream _).
      * apply unchanged_granted; [|done].
        eapply inv_same_graph; [apply same_graph_isAdaptive|done].
      * apply unchanged_same_graph, same_graph_micRequests.
    + cbv beta delta [stopAdaptiveLoop updateNoiseGain setTargetAtTime].
      frame_plain s Hinv o Ho Hd.
  - unfold micGranted. destruct (micRequests s); [apply unchanged_refl|].
    cbv zeta.
    lazymatch goal with
    | |- unchanged _ _ (enableAdaptiveNoise_granted ?S) =>
        apply (unchanged_trans o s S);
          [ eapply unchanged_trans; [|apply unchanged_same_graph, same_graph_micStream];
            eapply unchanged_trans; [|apply unchanged_same_graph, same_graph_streams];
            apply unchanged_same_graph, same_graph_micRequests
          | apply unchanged_granted; [|done];
            eapply inv_same_graph; [apply same_graph_micStream|];
            eapply inv_same_graph; [apply same_graph_streams|];
            eapply inv_same_graph; [apply same_graph_micRequests|done] ]
    end.
  - unfold micDenied. destruct (micRequests s); [apply unchanged_refl|].
    eapply unchanged_trans; [apply unchanged_same_graph, same_graph_micRequests|].
    apply unchanged_same_graph, same_graph_isAdaptive.
  - destruct (adaptiveInterval s); [|apply unchanged_refl].
    cbv beta delta [adaptiveCallback setTargetAtTime].
    frame_plain s Hinv o Ho Hd.
  - cbv beta delta [setNoiseVolume updateNoiseGain setTargetAtTime].
    frame_plain s Hinv o Ho Hd.
  - cbv beta delta [startNoise stopNoise]. cbv beta delta [start connect_ref].
    frame_ctx s Hinv o Ho Hd.
  - cbv beta delta [stopNoise]. frame_plain s Hinv o Ho Hd.
  - cbv beta delta [setMusicVolume setTargetAtTime].
    frame_plain s Hinv o Ho Hd.
  - cbv beta delta [playComposition]. cbv beta delta [connect_ref].
    apply (unchanged_trans o s (initContext s));
      [by apply unchanged_initContext|].
    pose proof (inv_initContext s Hinv) as Hinv1.
    revert Hinv1. generalize (initContext s). clear Hinv s. intros S Hinv.
    pose proof Hinv as (Hk & Ht & Hm & [Hn1 Hn2] & [Hl1 Hl2] & [Hr1 Hr2]).
    simp_state; try apply unchanged_refl; norm; born_facts S;
      (eapply unchanged_trans;
       [|apply unchanged_playNotes;
         [ first [assumption | unfold inv; repeat apply conj; repeat back]
         | done | by destruct o ]]);
      by_source o Ho; try discriminate Hd; repeat wire_back.
  - cbv beta delta [setReverbMix setTargetAtTime].
    frame_plain s Hinv o Ho Hd.
  - cbv beta delta [setDelayMix setTargetAtTime].
    frame_plain s Hinv o Ho Hd.
  - cbv beta delta [setBinauralVolume setTargetAtTime].
    frame_plain s Hinv o Ho Hd.
  - cbv beta delta [startBinaural stopBinaural].
    cbv beta delta [start connect_ref].
    frame_ctx s Hinv o Ho Hd.
  - cbv beta delta [stopBinaural]. frame_plain s Hinv o Ho Hd.
  - cbv beta delta [stopAll stopBinaural stopNoise stopAdaptiveLoop].
    cbv beta delta [setTargetAtTime].
    frame_plain s Hinv o Ho Hd.
  - cbv beta delta [restoreMaster]. frame_plain s Hinv o Ho Hd.
  - apply unchanged_same_graph, same_graph_currentTime.
Qed.

End WithPow.

End FrameFacts.

Module SettingsFacts.

Import AudioEngine EngineFacts Routing RoutingFacts RoutingSteps RoutingInv
  FrameFacts.

Lemma refs_stopAll s f :
  source_slot f = true -> refs (stopAll s) f = None.
Proof.
  intros Hf.
  cbv beta delta [stopAll stopBinaural stopNoise stopAdaptiveLoop].
  cbv beta delta [setTargetAtTime].
  simp_state; destruct f; try discriminate Hf;
    lazymatch goal with
    | |- refs ?F ?f = None =>
        let R := fresh "R" in
        eassert (R : refs F f = _) by read_refs; exact R
    end.
Qed.

(** ** The settings *)

Lemma same_settings_refl s : same_settings s s.
Proof. by repeat split. Qed.

Lemma same_settings_trans s1 s2 s3 :
  same_settings s3 s2 -> same_settings s2 s1 -> same_settings s3 s1.
Proof.
  intros (?&?&?&?&?&?&?&?&?) (?&?&?&?&?&?&?&?&?).
  repeat split; congruence.
Qed.

Lemma same_settings_try_stop a s : same_settings (try_stop_disconnect a s) s.
Proof.
  destruct (try_stop_disconnect_cases a s) as [[-> _]|[-> _]];
    by repeat split.
Qed.

Lemma same_settings_stopNoise s : same_settings (stopNoise s) s.
Proof.
  unfold stopNoise. cbv zeta. destruct (refs s noiseSource) as [a|].
  - apply (same_settings_trans s (try_stop_disconnect a s));
      [by repeat split|apply same_settings_try_stop].
  - by repeat split.
Qed.

Lemma same_settings_stopBinaural s : same_settings (stopBinaural s) s.
Proof.
  unfold stopBinaural. cbv zeta.
  set (S1 := match refs s leftOsc with
             | Some a => try_stop_disconnect a s
             | None => s
             end).
  assert (same_settings S1 s) as H1.
  { subst S1. destruct (refs s leftOsc);
      [apply same_settings_try_stop|apply same_settings_refl]. }
  set (S2 := match refs S1 rightOsc with
             | Some a => try_stop_disconnect a S1
             | None => S1
             end).
  assert (same_settings S2 S1) as H2.
  { subst S2. destruct (refs S1 rightOsc);
      [apply same_settings_try_stop|apply same_settings_refl]. }
  apply (same_settings_trans s S1); [|done].
  apply (same_settings_trans S1 S2); [|done].
  by repeat split.
Qed.

#[local] Transparent initContext.

Lemma same_settings_initContext s : same_settings (initContext s) s.
Proof. unfold initContext. destruct (refs s ctx); by repeat split. Qed.

#[local] Opaque initContext.

Lemma settings_stopAll s :
  adaptiveInterval (stopAll s) = None /\ micStream (stopAll s) = None /\
  isAdaptive (stopAll s) = isAdaptive s /\
  baseNoiseVolume (stopAll s) = baseNoiseVolume s.
Proof.
  pose proof (same_settings_trans _ _ _ (same_settings_stopNoise _)
                (same_settings_stopBinaural s)) as (Hb & _ & _ & Hi & _).
  cbv beta delta [stopAll stopAdaptiveLoop setTargetAtTime]. cbv zeta.
  revert Hb Hi. generalize (stopNoise (stopBinaural s)). intros S Hb Hi.
  destruct (adaptiveInterval S) eqn:Ha; destruct (micStream _) eqn:Hm;
    destruct (refs _ masterGain); try destruct (refs _ ctx);
    repeat split; first [assumption | reflexivity].
Qed.

End SettingsFacts.

(** ** The notes of [playComposition] *)

Module NoteFacts.

Import AudioEngine EngineFacts Routing RoutingFacts RoutingSteps RoutingInv
  FrameFacts SettingsFacts.

Lemma nodes_connect_ref a f i s : nodes (connect_ref a f i s) = nodes s.
Proof. unfold connect_ref. by destruct (refs s f). Qed.

Lemma next_id_connect_ref a f i s : next_id (connect_ref a f i s) = next_id s.
Proof. unfold connect_ref. by destruct (refs s f). Qed.

Lemma same_settings_create k o s : same_settings (create k o s) s.
Proof. by repeat split. Qed.

Lemma same_settings_update b g s : same_settings (update b g s) s.
Proof. by repeat split. Qed.

Lemma same_settings_connect a b i s : same_settings (connect a b i s) s.
Proof. by repeat split. Qed.

Lemma same_settings_set_ref f v s : same_settings (set_ref f v s) s.
Proof. by repeat split. Qed.

Lemma same_settings_connect_ref a f i s : same_settings (connect_ref a f i s) s.
Proof. unfold connect_ref. destruct (refs s f); by repeat split. Qed.



(** A fact about one node, stepped back through a method body that keeps
    [connect_ref] folded. *)
Ltac node_step :=
  lazymatch goal with
  | |- node_at ?a _ (update ?b _ _) =>
      first [ constr_eq a b; apply node_at_update_same
            | apply node_at_update_other; [lia|] ]
  | |- node_at ?a _ (create _ _ ?s) =>
      first [ is_next_id a s; apply node_at_create_new
            | apply node_at_create_old ]
  | |- node_at _ _ (connect _ _ _ _) =>
      eapply node_at_ext; [apply nodes_connect|]
  | |- node_at _ _ (connect_ref _ _ _ _) =>
      eapply node_at_ext; [apply nodes_connect_ref|]
  | |- node_at _ _ ?S =>
      same_nodes_edges S ltac:(fun Hn He => eapply node_at_ext; [exact Hn|])
  end.

(** Stepping the settings back through a method body. *)
Ltac settings_back :=
  repeat lazymatch goal with
  | |- same_settings (connect_ref ?a ?f ?i ?S) _ =>
      apply (same_settings_trans _ S); [apply same_settings_connect_ref|]
  | |- same_settings (update ?a ?g ?S) _ =>
      apply (same_settings_trans _ S); [apply same_settings_update|]
  | |- same_settings (create ?k ?o ?S) _ =>
      apply (same_settings_trans _ S); [apply same_settings_create|]
  | |- same_settings (connect ?a ?b ?i ?S) _ =>
      apply (same_settings_trans _ S); [apply same_settings_connect|]
  | |- same_settings (set_ref ?f ?v ?S) _ =>
      apply (same_settings_trans _ S); [apply same_settings_set_ref|]
  | |- same_settings (try_stop_disconnect ?a ?S) _ =>
      apply (same_settings_trans _ S); [apply same_settings_try_stop|]
  | |- same_settings (initContext ?S) _ =>
      apply (same_settings_trans _ S); [apply same_settings_initContext|]
  | |- same_settings ?S ?S => apply same_settings_refl
  end.

Section WithPow.

Variable pow_approx : JS.number -> JS.number -> JS.number.

Local Open Scope string_scope.

(** After [simp_state], what is left of a goal about how a call ends. *)
Ltac ended :=
  lazymatch goal with
  | |- ends ?Q _ (Returned ?S) => change (Q S); cbv beta
  | |- ends _ ?E (Threw ?S) => change (E S); cbv beta
  end.


Lemma next_id_playNote now s n :
  ends (fun s' => next_id s' = 5 + next_id s)
       (fun s' => next_id s <= next_id s' <= 5 + next_id s)
       (playNote pow_approx now s n).
Proof.
  cbv beta delta [playNote start stop_at]. simp_state; ended; ids;
    repeat first [progress autorewrite with fields | rewrite next_id_connect_ref];
    lia.
Qed.

Lemma next_id_playNote_le now s n :
  next_id s <= next_id (state_of (playNote pow_approx now s n))
  <= 5 + next_id s.
Proof.
  pose proof (next_id_playNote now s n) as H.
  destruct (playNote pow_approx now s n); simpl in *; lia.
Qed.

Lemma same_settings_playNote now s n :
  same_settings (state_of (playNote pow_approx now s n)) s.
Proof.
  cbv beta delta [playNote start stop_at]. simp_state.
  all: repeat lazymatch goal with
  | |- same_settings (connect_ref ?a ?f ?i ?S) _ =>
      apply (same_settings_trans _ S); [apply same_settings_connect_ref|]
  | |- same_settings (update ?a ?g ?S) _ =>
      apply (same_settings_trans _ S); [apply same_settings_update|]
  | |- same_settings (create ?k ?o ?S) _ =>
      apply (same_settings_trans _ S); [apply same_settings_create|]
  | |- same_settings (connect ?a ?b ?i ?S) _ =>
      apply (same_settings_trans _ S); [apply same_settings_connect|]
  end.
  all: apply same_settings_refl.
Qed.

(** [playNote] leaves the nodes that exist alone. *)
Lemma lookup_playNote_old now s n a :
  a < next_id s ->
  nodes (state_of (playNote pow_approx now s n)) !! a = nodes s !! a.
Proof.
  intros Ha. cbv beta delta [playNote start stop_at].
  simp_state; ids;
  repeat first
    [ rewrite lookup_update; case_decide; [lia|]
    | rewrite lookup_create; case_decide; [lia|]
    | rewrite nodes_connect
    | rewrite nodes_connect_ref ];
  done.
Qed.



(** The loop over the notes. *)
Lemma playNotes_cons now n notes s :
  playNotes pow_approx now (n :: notes) s
  = match playNote pow_approx now s n with
    | Returned s1 => playNotes pow_approx now notes s1
    | Threw s1 => Threw s1
    end.
Proof. reflexivity. Qed.

(** An invariant of the loop, whichever way it ends. *)
Lemma playNotes_ind (P : engine -> engine -> Prop) now :
  (forall s, P s s) ->
  (forall s1 s2 s3, P s1 s2 -> P s2 s3 -> P s1 s3) ->
  (forall s n, P s (state_of (playNote pow_approx now s n))) ->
  forall notes s, P s (state_of (playNotes pow_approx now notes s)).
Proof.
  intros Hrefl Htrans Hstep notes.
  induction notes as [|n notes IH]; intros s; [apply Hrefl|].
  rewrite playNotes_cons. pose proof (Hstep s n) as H.
  destruct (playNote pow_approx now s n) as [s1|s1]; simpl in *; [|done].
  by apply (Htrans s s1).
Qed.


Lemma next_id_playNotes_le now notes s :
  next_id s <= next_id (state_of (playNotes pow_approx now notes s)).
Proof.
  apply (playNotes_ind (fun s s' => next_id s <= next_id s')); try lia.
  intros s0 n. apply next_id_playNote_le.
Qed.

Lemma refs_playNotes now notes s :
  refs (state_of (playNotes pow_approx now notes s)) = refs s.
Proof.
  apply (playNotes_ind (fun s s' => refs s' = refs s)); try done.
  - by intros s1 s2 s3 -> ->.
  - intros s0 n. apply refs_playNote.
Qed.

Lemma same_settings_playNotes now notes s :
  same_settings (state_of (playNotes pow_approx now notes s)) s.
Proof.
  apply (playNotes_ind (fun s s' => same_settings s' s)).
  - apply same_settings_refl.
  - intros s1 s2 s3 H1 H2. by apply (same_settings_trans _ s2).
  - intros s0 n. apply same_settings_playNote.
Qed.

Lemma lookup_playNotes_old now notes s a :
  a < next_id s ->
  nodes (state_of (playNotes pow_approx now notes s)) !! a = nodes s !! a.
Proof.
  intros Ha.
  apply (playNotes_ind
           (fun s s' => next_id s <= next_id s' /\
                        forall a, a < next_id s ->
                                  nodes s' !! a = nodes s !! a)); try done.
  - intros s1 s2 s3 [L1 H1] [L2 H2]. split; [lia|].
    intros b Hb. rewrite H2 by lia. by apply H1.
  - intros s0 n. split; [apply next_id_playNote_le|].
    intros b Hb. by apply lookup_playNote_old.
Qed.

Lemma node_at_playNotes_old now notes s a P :
  a < next_id s -> node_at a P s ->
  node_at a P (state_of (playNotes pow_approx now notes s)).
Proof.
  intros Ha (x & Hx & HP). exists x. by rewrite lookup_playNotes_old.
Qed.







End WithPow.

End NoteFacts.
Module FirstPlayFacts.

Import AudioEngine EngineFacts Routing RoutingFacts RoutingSteps RoutingInv
  FrameFacts SettingsFacts NoteFacts.

#[local] Transparent initContext.

(** [initContext] writes the context and the buses only. *)
Lemma refs_initContext_other f s :
  f <> ctx -> f ∉ bus_fields -> refs (initContext s) f = refs s f.
Proof.
  intros Hc Hb. cbv beta delta [initContext].
  destruct (refs s ctx); [done|]. cbv zeta. autorewrite with fields.
  unfold bus_fields in Hb. rewrite !not_elem_of_cons in Hb.
  repeat case_decide; try done; subst; tauto.
Qed.

#[local] Opaque initContext.

Section WithPow.

Variable pow_approx : JS.number -> JS.number -> JS.number.

Local Open Scope string_scope.

Lemma playComposition_first notes s :
  refs s musicGain = None ->
  exists s1 mg,
    playComposition pow_approx notes s
    = playNotes pow_approx (currentTime s) notes s1 /\
    refs s1 musicGain = Some mg /\
    node_at mg (fun x => kind x = Gain /\ value x = 0.3%float /\ calls x = []) s1.
Proof.
  intros Hmg. rewrite <- (refs_initContext_other musicGain s) in Hmg;
    [|done|unfold bus_fields; rewrite !not_elem_of_cons, elem_of_nil; naive_solver].
  cbv beta delta [playComposition].
  pose proof (same_settings_initContext s) as Hset.
  pose proof (initContext_ctx s) as Hctx.
  revert Hmg Hset Hctx. generalize (initContext s). intros s0 Hmg Hset Hctx.
  simp_state; try congruence;
  lazymatch goal with
       | |- context [playNotes _ (currentTime ?F) _ ?F] =>
           exists F;
           lazymatch goal with
           | id := next_id s0 |- _ => exists id
           end;
           split;
             [ replace (currentTime F) with (currentTime s); [reflexivity|];
               symmetry;
               assert (same_settings F s) as (_&_&_&_&Hc&_);
                 [eapply same_settings_trans; [|exact Hset]; settings_back
                 |exact Hc]
             | split;
               [ eassert (R : refs F musicGain = _) by read_refs; exact R
               | repeat node_step; repeat split; reflexivity ] ]
       end.
Qed.

End WithPow.

End FirstPlayFacts.

Module SourceFacts.

Import AudioEngine EngineFacts Routing RoutingFacts RoutingSteps RoutingInv
  FrameFacts SettingsFacts NoteFacts FirstPlayFacts.

Local Open Scope string_scope.

Lemma active_singleton f a s :
  exclusive f s ->
  node_at a (fun n => origin n = f /\ run n = Playing) s ->
  active f s = [a].
Proof.
  intros He Ha. pose proof (playing_active f a s He Ha) as Hlen.
  apply elem_of_active in Ha.
  destruct (active f s) as [|x [|y l]]; simpl in Hlen; try lia.
  apply list_elem_of_singleton in Ha. by subst.
Qed.

(** The noise chain that [startNoise] builds. *)
Lemma startNoise_nodes type volume s :
  type <> OFF ->
  (exists m, refs (initContext s) masterGain = Some m) ->
  let s' := startNoise type volume s in
  exists ns nf ng m,
    (refs s' noiseSource = Some ns /\ refs s' noiseFilter = Some nf /\
     refs s' noiseGain = Some ng /\ refs s' masterGain = Some m) /\
    node_at ns (fun x => kind x = BufferSource /\ origin x = noiseSource /\
                         loop x = true /\ run x = Playing) s' /\
    node_at nf (fun x => kind x = BiquadFilter /\
                  (ntype x, value x, Q x) =
                    match type with
                    | GREY => ("lowpass", 500%float, 0.5%float)
                    | BROWN => ("lowpass", 150%float, 1%float)
                    | _ => ("allpass", 350%float, 1%float)
                    end) s' /\
    node_at ng (fun x => kind x = Gain /\ value x = volume) s' /\
    (mkEdge ns nf 0 ∈ edges s' /\ mkEdge nf ng 0 ∈ edges s' /\
     mkEdge ng m 0 ∈ edges s').
Proof.
  intros Hne [m Hm].
  lazymatch goal with
  | |- let s' := ?S in @?Q s' => set (post := Q); change (post S)
  end.
  cbv beta delta [startNoise stopNoise].
  cbv beta delta [start connect_ref].
  pose proof (initContext_ctx s) as Hctx.
  revert Hm Hctx. generalize (initContext s). intros s0 Hm Hctx.
  simp_state; try congruence; norm; ids; subst post; cbv beta.
  all: do 3 eexists; exists m.
  all: (split; [repeat split;
                lazymatch goal with
                | |- refs ?F ?f = _ =>
                    let R := fresh "R" in
                    eassert (R : refs F f = _) by read_refs; exact R
                end|]).
  all: (split; [repeat node_step; repeat split; reflexivity|]).
  all: (split; [repeat node_step; repeat split; reflexivity|]).
  all: (split; [repeat node_step; repeat split; reflexivity|]).
  all: repeat split; repeat edge_back.
Qed.

Lemma baseNoiseVolume_startNoise type volume s :
  baseNoiseVolume (startNoise type volume s) = volume.
Proof.
  cbv beta delta [startNoise stopNoise].
  cbv beta delta [start connect_ref].
  pose proof (initContext_ctx s) as Hctx.
  revert Hctx. generalize (initContext s). intros s0 Hctx.
  simp_state; try congruence;
  lazymatch goal with
  | |- baseNoiseVolume ?F = _ =>
      assert (same_settings F (set_baseNoiseVolume volume s0)) as (Hb & _);
        [settings_back|exact Hb]
  end.
Qed.

(** The binaural pair that [startBinaural] leaves. *)
Lemma startBinaural_nodes c b v s :
  let s' := startBinaural c b v s in
  exists lo ro,
    refs s' leftOsc = Some lo /\ refs s' rightOsc = Some ro /\
    node_at lo (fun x => (origin x = leftOsc /\ run x = Playing) /\
                         value x = c) s' /\
    node_at ro (fun x => (origin x = rightOsc /\ run x = Playing) /\
                         value x = (c + b)%float) s'.
Proof.
  lazymatch goal with
  | |- let s' := ?S in @?Q s' => set (post := Q); change (post S)
  end.
  cbv beta delta [startBinaural stopBinaural].
  cbv beta delta [start connect_ref].
  pose proof (initContext_ctx s) as Hctx.
  revert Hctx. generalize (initContext s). intros s0 Hctx.
  simp_state; try congruence; ids; subst post; cbv beta.
  all: do 2 eexists.
  all: (split; [lazymatch goal with
                | |- refs ?F ?f = _ =>
                    let R := fresh "R" in
                    eassert (R : refs F f = _) by read_refs; exact R
                end|]).
  all: (split; [lazymatch goal with
                | |- refs ?F ?f = _ =>
                    let R := fresh "R" in
                    eassert (R : refs F f = _) by read_refs; exact R
                end|]).
  all: split; repeat node_step; repeat split; reflexivity.
Qed.

End SourceFacts.

(** ** Adaptive noise *)

Module AdaptiveFacts.

Import AudioEngine EngineFacts Routing RoutingFacts RoutingSteps RoutingInv
  FrameFacts SettingsFacts NoteFacts FirstPlayFacts SourceFacts.

Lemma settings_granted s :
  let s' := enableAdaptiveNoise_granted s in
  isAdaptive s' = isAdaptive s /\ micStream s' = micStream s /\
  adaptiveInterval s' = Some (S (timers s)).
Proof.
  lazymatch goal with
  | |- let s' := ?S in @?Q s' => set (post := Q); change (post S)
  end.
  cbv beta delta [enableAdaptiveNoise_granted startAdaptiveLoop].
  pose proof (same_settings_initContext s) as Hset.
  revert Hset. generalize (initContext s). intros s0 Hset.
  simp_state; subst post; cbv beta;
  lazymatch goal with
  | |- isAdaptive (set_adaptiveInterval _ (set_timers _ ?F)) = _ /\ _ =>
      assert (same_settings F s) as (_ & Hm & _ & Ha & _ & _ & _ & Ht & _)
        by (eapply same_settings_trans; [|exact Hset]; settings_back);
      rewrite Ht; split; [exact Ha|split; [exact Hm|reflexivity]]
  end.
Qed.

End AdaptiveFacts.

(** ** The audio sync effect *)

Module SyncFacts.

Import AudioEngine EngineFacts Routing RoutingFacts RoutingSteps RoutingInv
  FrameFacts SettingsFacts NoteFacts FirstPlayFacts SourceFacts.

Local Open Scope string_scope.

Section WithPow.

Variable pow_approx : JS.number -> JS.number -> JS.number.

Lemma steps_cons e evs s :
  fold_left (step pow_approx) (e :: evs) s
  = fold_left (step pow_approx) evs (step pow_approx s e).
Proof. reflexivity. Qed.

(** A run of calls leaves alone the sources of the variables that none of
    them drives. *)
Lemma unchanged_steps evs s o :
  inv s -> startable o = true ->
  Forall (fun e => drives e o = false) evs ->
  unchanged o s (fold_left (step pow_approx) evs s).
Proof.
  intros Hinv Ho. revert s Hinv.
  induction evs as [|e evs IH]; intros s Hinv Hall; [apply unchanged_refl|].
  apply Forall_cons in Hall as [He Hall]. simpl.
  eapply unchanged_trans; [by apply unchanged_step|].
  apply IH; [by apply inv_step|done].
Qed.

Lemma node_at_unchanged o a P s s' :
  unchanged o s s' ->
  node_at a (fun n => origin n = o /\ P n) s ->
  node_at a (fun n => origin n = o /\ P n) s'.
Proof.
  intros Hu (n & Hn & Ho & HP). exists n. split; [|done].
  by apply (Hu a n Ho).
Qed.

Lemma engine_calls_drive effs o :
  o <> osc1 -> o <> osc2 ->
  Forall (fun e => drives e o = false) (Playback.engine_calls effs).
Proof.
  intros H1 H2. unfold Playback.engine_calls.
  induction effs as [|e effs IH]; [constructor|].
  destruct e; simpl; try done.
  constructor; [|done]. by destruct o.
Qed.

Lemma masterGain_initContext s :
  inv s -> sound s -> exists m, refs (initContext s) masterGain = Some m.
Proof.
  intros Hinv Hs.
  pose proof (sound_initContext s Hinv Hs) as Hs'.
  pose proof (inv_initContext s Hinv) as Hinv'.
  pose proof (initContext_ctx s) as Hctx.
  destruct (refs (initContext s) ctx) as [d|] eqn:Hd; [|done].
  destruct (sound_Some _ d Hinv' Hs' Hd) as (_ & (m & _ & _ & _ & _ & Hm & _) & _).
  by exists m.
Qed.

End WithPow.

End SyncFacts.

Module MusicGainFacts.

Import AudioEngine EngineFacts Routing RoutingFacts RoutingSteps RoutingInv
  FrameFacts SettingsFacts NoteFacts FirstPlayFacts SourceFacts SyncFacts.

Local Open Scope string_scope.

Lemma refs_initContext_musicGain s :
  refs (initContext s) musicGain = refs s musicGain.
Proof.
  apply refs_initContext_other; [done|].
  unfold bus_fields. rewrite !not_elem_of_cons, elem_of_nil. naive_solver.
Qed.

(** Reads [this.musicGain] through a method body. *)
Ltac kept :=
  simp_state;
  lazymatch goal with
  | |- refs ?F ?f = _ =>
      let R := fresh "R" in
      eassert (R : refs F f = _) by read_refs; exact R
  end.

Ltac kept_ctx s :=
  transitivity (refs (initContext s) musicGain);
    [|apply refs_initContext_musicGain];
  generalize (initContext s); intros ?; kept.

Lemma refs_musicGain_granted s :
  refs (enableAdaptiveNoise_granted s) musicGain = refs s musicGain.
Proof.
  cbv beta delta [enableAdaptiveNoise_granted startAdaptiveLoop]. kept_ctx s.
Qed.

Section WithPow.

Variable pow_approx : JS.number -> JS.number -> JS.number.

(** Only [playComposition] sets [this.musicGain]. *)
Lemma refs_musicGain_step s e :
  (forall notes, e <> PlayComposition notes) ->
  refs (step pow_approx s e) musicGain = refs s musicGain.
Proof.
  intros He. destruct e; simpl step.
  - apply refs_initContext_musicGain.
  - cbv beta delta [enableAdaptiveNoise]. cbv zeta. destruct enable.
    + destruct (micStream _).
      * by rewrite refs_musicGain_granted, refs_set_isAdaptive.
      * by rewrite refs_set_micRequests, refs_set_isAdaptive.
    + cbv beta delta [stopAdaptiveLoop updateNoiseGain setTargetAtTime]. kept.
  - unfold micGranted. destruct (micRequests s); [done|]. cbv zeta.
    rewrite refs_musicGain_granted.
    by rewrite refs_set_micStream, refs_set_streams, refs_set_micRequests.
  - unfold micDenied. destruct (micRequests s); [done|].
    by rewrite refs_set_isAdaptive, refs_set_micRequests.
  - destruct (adaptiveInterval s); [|done].
    cbv beta delta [adaptiveCallback setTargetAtTime]. kept.
  - cbv beta delta [setNoiseVolume updateNoiseGain setTargetAtTime]. kept.
  - cbv beta delta [startNoise stopNoise]. cbv beta delta [start connect_ref].
    kept_ctx s.
  - cbv beta delta [stopNoise]. kept.
  - cbv beta delta [setMusicVolume setTargetAtTime]. kept.
  - exfalso. by eapply He.
  - cbv beta delta [setReverbMix setTargetAtTime]. kept.
  - cbv beta delta [setDelayMix setTargetAtTime]. kept.
  - cbv beta delta [setBinauralVolume setTargetAtTime]. kept.
  - cbv beta delta [startBinaural stopBinaural].
    cbv beta delta [start connect_ref]. kept_ctx s.
  - cbv beta delta [stopBinaural]. kept.
  - cbv beta delta [stopAll stopBinaural stopNoise stopAdaptiveLoop].
    cbv beta delta [setTargetAtTime]. kept.
  - cbv beta delta [restoreMaster]. kept.
  - by rewrite refs_set_currentTime.
Qed.

Lemma refs_musicGain_steps evs s :
  Forall (fun e => forall notes, e <> PlayComposition notes) evs ->
  refs (fold_left (step pow_approx) evs s) musicGain = refs s musicGain.
Proof.
  revert s. induction evs as [|e evs IH]; intros s Hall; [done|].
  apply Forall_cons in Hall as [He Hall]. simpl.
  rewrite IH by done. by apply refs_musicGain_step.
Qed.

End WithPow.

End MusicGainFacts.

(** ** The player *)

Module OrderFacts.

Local Open Scope float_scope.

(** [<] on JavaScript numbers is transitive. *)
Lemma SFltb_trans x y z :
  SFltb x y = true -> SFltb y z = true -> SFltb x z = true.
Proof.
  unfold SFltb.
  destruct x as [sx|sx| |sx mx ex], y as [sy|sy| |sy my ey],
    z as [sz|sz| |sz mz ez]; simpl; try done;
    try (by destruct sx); try (by destruct sy); try (by destruct sz);
    try (by destruct sx, sy); try (by destruct sy, sz);
    try (by destruct sx, sz); try (by destruct sx, sy, sz).
  change (Pos.compare_cont Eq mx my) with (mx ?= my)%positive.
  change (Pos.compare_cont Eq my mz) with (my ?= mz)%positive.
  change (Pos.compare_cont Eq mx mz) with (mx ?= mz)%positive.
  destruct sx, sy, sz; try done;
    destruct (Z.compare_spec ex ey), (Z.compare_spec ey ez),
      (Z.compare_spec ex ez); try done; try lia;
    destruct (Pos.compare_spec mx my), (Pos.compare_spec my mz),
      (Pos.compare_spec mx mz); simpl; try done; try lia.
Qed.

Lemma ltb_trans x y z : (x <? y) = true -> (y <? z) = true -> (x <? z) = true.
Proof. rewrite !ltb_spec. apply SFltb_trans. Qed.

End OrderFacts.

Module PlayerFacts.

Import App Playback.

Local Open Scope string_scope.

Section WithPow.

Variable pow_approx : JS.number -> JS.number -> JS.number.

Lemma played_playMusicLoop eng st :
  isPlaying st = true ->
  played (playMusicLoop pow_approx eng st)
  = match track st with Some t => [notes t] | None => [] end.
Proof.
  destruct st as [p stn vn nt cur nx g lib sl ref]. simpl. intros ->.
  unfold playMusicLoop, track, generateNextSegment, played.
  destruct nx, cur, g, ref; simpl; try destruct (AudioEngine.returned _);
    reflexivity.
Qed.

Lemma engine_calls_playMusicLoop eng st :
  isPlaying st = true ->
  engine_calls (playMusicLoop pow_approx eng st)
  = match track st with
    | Some t => [AudioEngine.PlayComposition (notes t)]
    | None => []
    end.
Proof.
  destruct st as [p stn vn nt cur nx g lib sl ref]. simpl. intros ->.
  unfold playMusicLoop, track, generateNextSegment, engine_calls.
  destruct nx, cur, g, ref; simpl; try destruct (AudioEngine.returned _);
    reflexivity.
Qed.

End WithPow.

End PlayerFacts.
(** * Further properties of the engine and the player *)

(** ** The graph the engine keeps *)

Section Graph.

Import AudioEngine EngineFacts Routing RoutingFacts RoutingSteps RoutingInv
  FrameFacts SettingsFacts NoteFacts FirstPlayFacts SourceFacts AdaptiveFacts
  SyncFacts MusicGainFacts.

Variable pow_approx : JS.number -> JS.number -> JS.number.

Local Open Scope string_scope.

(** X1. After any sequence of calls the engine has either no context and
    no field set at all, or a context with the buses [initContext] builds:
    the master gain is connected to the destination, the reverb to its
    gain, the delay to its gain, and both gains to the master gain. *)
Theorem buses_wired (evs : list event) :
  let s := exec pow_approx evs in
  match refs s ctx with
  | None => forall f, refs s f = None
  | Some d =>
      exists m rv rg dn dg,
        refs s masterGain = Some m /\ refs s reverbNode = Some rv /\
        refs s reverbGain = Some rg /\ refs s delayNode = Some dn /\
        refs s delayGain = Some dg /\
        mkEdge m d 0 ∈ edges s /\
        mkEdge rv rg 0 ∈ edges s /\ mkEdge rg m 0 ∈ edges s /\
        mkEdge dn dg 0 ∈ edges s /\ mkEdge dg m 0 ∈ edges s
  end.
Proof.
  intros s.
  assert (reachable pow_approx s) as Hreach by (by exists evs).
  pose proof (inv_reachable pow_approx s Hreach) as Hinv.
  pose proof (sound_reachable pow_approx s Hreach) as Hs.
  destruct (refs s ctx) as [d|] eqn:Hd.
  - destruct (sound_Some s d Hinv Hs Hd)
      as (_ & (m & rv & rg & dn & dg & Hm & Hrv & Hrg & Hdn & Hdg)
          & (Hw1 & Hw2 & Hw3 & Hw4 & Hw5 & _)).
    exists m, rv, rg, dn, dg. repeat split; try done.
    + by apply Hw1. 
    + by apply Hw2.
    + by apply Hw3.
    + by apply Hw4.
    + by apply Hw5.
  - by destruct (sound_None s Hs Hd).
Qed.

(** X2. After any sequence of calls, every node that has been started and
    has not ended reaches the destination of the context through the
    connections of the graph; without a context nothing plays. *)
Theorem playing_nodes_routed (evs : list event) (i : nat) (n : node) :
  let s := exec pow_approx evs in
  nodes s !! i = Some n -> run n = Playing ->
  exists d, refs s ctx = Some d /\ path s i d.
Proof.
  intros s Hn Hrun.
  assert (reachable pow_approx s) as Hreach by (by exists evs).
  pose proof (inv_reachable pow_approx s Hreach) as Hinv.
  pose proof (sound_reachable pow_approx s Hreach) as Hs.
  destruct (refs s ctx) as [d|] eqn:Hd.
  - destruct (sound_Some s d Hinv Hs Hd) as ((_ & Hr & _) & _).
    exists d. split; [done|]. by apply (Hr i n).
  - destruct (sound_None s Hs Hd) as (_ & Hsil & _).
    by destruct (Hsil i n Hn).
Qed.

(** X3. Once [playComposition] has created the music gain, and after any
    calls that follow, it is connected to the master gain, to the reverb
    and to the delay. *)
Theorem music_gain_sends (evs : list event) (mg : nat) :
  let s := exec pow_approx evs in
  refs s musicGain = Some mg ->
  exists m rv dn,
    refs s masterGain = Some m /\ refs s reverbNode = Some rv /\
    refs s delayNode = Some dn /\
    mkEdge mg m 0 ∈ edges s /\ mkEdge mg rv 0 ∈ edges s /\
    mkEdge mg dn 0 ∈ edges s.
Proof.
  intros s Hmg.
  assert (reachable pow_approx s) as Hreach by (by exists evs).
  pose proof (inv_reachable pow_approx s Hreach) as Hinv.
  pose proof (sound_reachable pow_approx s Hreach) as Hs.
  destruct (refs s ctx) as [d|] eqn:Hd.
  - destruct (sound_Some s d Hinv Hs Hd)
      as (_ & (m & rv & rg & dn & dg & Hm & Hrv & Hrg & Hdn & Hdg)
          & (_ & _ & _ & _ & _ & Hw6 & Hw7 & Hw8)).
    exists m, rv, dn. repeat split; try done.
    + by apply Hw6.
    + by apply Hw7.
    + by apply Hw8.
  - destruct (sound_None s Hs Hd) as (Hblank & _). by rewrite Hblank in Hmg.
Qed.

(** X4. A call changes no node created for a source it does not drive:
    the noise source is only touched by [startNoise], [stopNoise] and
    [stopAll], the binaural oscillators by [startBinaural], [stopBinaural]
    and [stopAll], the oscillators of the notes by [playComposition]. In
    particular the sources of that variable that play are the same before
    and after. *)
Theorem other_sources_untouched (evs : list event) (e : event) (o : slot) :
  let s := exec pow_approx evs in
  startable o = true -> drives e o = false ->
  (forall i n, origin n = o ->
     nodes (step pow_approx s e) !! i = Some n <-> nodes s !! i = Some n) /\
  active o (step pow_approx s e) = active o s.
Proof.
  intros s Ho Hd.
  assert (inv s) as Hinv by (apply (inv_reachable pow_approx); by exists evs).
  pose proof (unchanged_step pow_approx s e o Hinv Ho Hd) as Hu.
  split; [exact Hu|by apply unchanged_active].
Qed.

(** X5. After [stopAll], in any state of the engine, no noise source and
    no binaural oscillator plays, the three fields are null, the adaptive
    interval is cleared and the microphone stream dropped; the oscillators
    of the notes that [playComposition] scheduled are left as they were. *)
Theorem stopAll_silences (evs : list event) :
  let s := exec pow_approx evs in
  let s' := stopAll s in
  (active noiseSource s' = [] /\ active leftOsc s' = [] /\
   active rightOsc s' = []) /\
  (refs s' noiseSource = None /\ refs s' leftOsc = None /\
   refs s' rightOsc = None) /\
  (adaptiveInterval s' = None /\ micStream s' = None) /\
  (forall i n, origin n = osc1 \/ origin n = osc2 ->
     nodes s' !! i = Some n <-> nodes s !! i = Some n).
Proof.
  intros s s'.
  assert (inv s) as Hinv by (apply (inv_reachable pow_approx); by exists evs).
  pose proof (inv_stopAll s Hinv) as (_ & _ & _ & [Hn _] & [Hl _] & [Hr _]).
  pose proof (refs_stopAll s noiseSource eq_refl) as Rn.
  pose proof (refs_stopAll s leftOsc eq_refl) as Rl.
  pose proof (refs_stopAll s rightOsc eq_refl) as Rr.
  destruct (settings_stopAll s) as (Ha & Hm & _).
  split; [|split; [done|split; [done|]]].
  - repeat split; apply quiet_active; by apply quiet_no_ref.
  - intros i n [Ho|Ho].
    + by apply (unchanged_step pow_approx s StopAll osc1).
    + by apply (unchanged_step pow_approx s StopAll osc2).
Qed.

(** X6. [startNoise] with a type other than OFF leaves exactly one noise
    source playing: a looping buffer source connected to a filter
    (low-pass at 500 Hz, Q 0.5 for GREY, low-pass at 150 Hz, Q 1 for BROWN,
    all-pass otherwise), the filter to a gain whose value is the volume,
    the gain to the master gain; the volume is also the base volume of
    adaptive noise. *)
Theorem startNoise_chain (evs : list event) (type : NoiseType)
    (volume : JS.number) :
  type <> OFF ->
  let s' := startNoise type volume (exec pow_approx evs) in
  exists ns nf ng m,
    (refs s' noiseSource = Some ns /\ refs s' noiseFilter = Some nf /\
     refs s' noiseGain = Some ng /\ refs s' masterGain = Some m) /\
    active noiseSource s' = [ns] /\
    node_at ns (fun x => kind x = BufferSource /\ loop x = true) s' /\
    node_at nf (fun x => kind x = BiquadFilter /\
                  (ntype x, value x, Q x) =
                    match type with
                    | GREY => ("lowpass", 500%float, 0.5%float)
                    | BROWN => ("lowpass", 150%float, 1%float)
                    | _ => ("allpass", 350%float, 1%float)
                    end) s' /\
    node_at ng (fun x => kind x = Gain /\ value x = volume) s' /\
    (mkEdge ns nf 0 ∈ edges s' /\ mkEdge nf ng 0 ∈ edges s' /\
     mkEdge ng m 0 ∈ edges s') /\
    baseNoiseVolume s' = volume.
Proof.
  intros Hne s'.
  assert (reachable pow_approx (exec pow_approx evs)) as Hreach
    by (by exists evs).
  pose proof (inv_reachable pow_approx _ Hreach) as Hinv.
  pose proof (sound_reachable pow_approx _ Hreach) as Hs.
  destruct (startNoise_nodes type volume _ Hne (masterGain_initContext _ Hinv Hs))
    as (ns & nf & ng & m & Hrefs & Hns & Hnf & Hng & Hedges).
  exists ns, nf, ng, m.
  split; [exact Hrefs|]. split.
  { pose proof (inv_startNoise type volume _ Hinv)
      as (_ & _ & _ & [Hex _] & _).
    apply active_singleton; [exact Hex|].
    destruct Hns as (x & Hx & _ & Ho & _ & Hr). by exists x. }
  split.
  { destruct Hns as (x & Hx & Hk & _ & Hl & _). by exists x. }
  split; [exact Hnf|]. split; [exact Hng|]. split; [exact Hedges|].
  apply baseNoiseVolume_startNoise.
Qed.


(** X8. Switching adaptive noise on without a stream only files a request
    for the microphone. Switching it off does not withdraw the request:
    when the request is granted afterwards the stream is kept and the
    interval is started although adaptive noise is off (its callback then
    changes nothing); when it is denied the engine stays as it was, with
    adaptive noise off. *)
Theorem adaptive_request_outlives_switch (s : engine) :
  micStream s = None ->
  let s1 := enableAdaptiveNoise true s in
  let s2 := enableAdaptiveNoise false s1 in
  (same_graph s1 s /\ adaptiveInterval s1 = adaptiveInterval s /\
   micRequests s1 = S (micRequests s)) /\
  (let s3 := micGranted s2 in
   isAdaptive s3 = false /\ micStream s3 <> None /\
   adaptiveInterval s3 <> None /\
   forall dataArray, adaptiveCallback dataArray s3 = s3) /\
  (let s3 := micDenied s2 in
   isAdaptive s3 = false /\ micStream s3 = None /\
   adaptiveInterval s3 = None /\ same_graph s3 s2).
Proof.
  intros Hmic s1 s2.
  assert (s1 = set_micRequests (S (micRequests s)) (set_isAdaptive true s)) as E1.
  { subst s1. unfold enableAdaptiveNoise. cbv zeta.
    change (micStream (set_isAdaptive true s)) with (micStream s).
    by rewrite Hmic. }
  assert (micRequests s2 = S (micRequests s) /\ isAdaptive s2 = false /\
          micStream s2 = None /\ adaptiveInterval s2 = None) as (Hr2 & Ha2 & Hm2 & Hi2).
  { subst s2. rewrite E1. unfold enableAdaptiveNoise, stopAdaptiveLoop,
      updateNoiseGain, setTargetAtTime. cbv zeta.
    repeat lazymatch goal with
    | |- context [match ?x with _ => _ end] => destruct x eqn:?
    end; repeat split; first [reflexivity | assumption]. }
  split; [|split].
  - rewrite E1. repeat split.
  - intros s3. subst s3. unfold micGranted. rewrite Hr2. cbv zeta.
    lazymatch goal with
    | |- isAdaptive (enableAdaptiveNoise_granted ?X) = _ /\ _ =>
        destruct (settings_granted X) as (Ha & Hm & Hi)
    end.
    rewrite Ha, Hm, Hi. repeat split; try done.
    intros dataArray. unfold adaptiveCallback. rewrite Ha.
    change (isAdaptive (set_micStream _ (set_streams _ (set_micRequests _ s2))))
      with (isAdaptive s2).
    rewrite Ha2. by destruct (refs _ micAnalyser).
  - intros s3. subst s3. unfold micDenied. rewrite Hr2.
    repeat split; assumption.
Qed.

(** X9. After the audio sync effect ran on any state of the engine: when
    the component is playing, exactly one left and one right binaural
    oscillator play, at the carrier of the station and at carrier + beat,
    and one noise source plays unless the noise type is OFF, in which case
    none does; when it is not playing, no binaural oscillator and no noise
    source plays. *)
Theorem audio_sync (evs : list event) (st : App.state) (m : Playback.mixer) :
  let s := exec pow_approx evs in
  let s' :=
    fold_left (step pow_approx) (Playback.audioSync pow_approx s st m) s in
  if App.isPlaying st then
    (exists lo ro,
       active leftOsc s' = [lo] /\ active rightOsc s' = [ro] /\
       node_at lo (fun x => value x = App.carrier (App.currentStation st)) s' /\
       node_at ro (fun x => value x =
                    (App.carrier (App.currentStation st)
                     + App.beat (App.currentStation st))%float) s') /\
    match App.noise st with
    | OFF => active noiseSource s' = []
    | _ => exists ns, active noiseSource s' = [ns]
    end
  else
    active leftOsc s' = [] /\ active rightOsc s' = [] /\
    active noiseSource s' = [].
Proof.
  intros s s'.
  assert (inv s) as Hinv by (apply (inv_reachable pow_approx); by exists evs).
  subst s'. unfold Playback.audioSync.
  destruct (App.isPlaying st).
  - cbv zeta. set (ec := Playback.engine_calls _).
    assert (forall o, o <> osc1 -> o <> osc2 ->
              Forall (fun e => drives e o = false) ec) as Hec
      by (intros o H1 H2; by apply engine_calls_drive).
    clearbody ec. cbn [app].
    rewrite 3!steps_cons.
    change (step pow_approx s Resume) with (initContext s).
    pose proof (inv_initContext s Hinv) as Hinv1.
    set (s1 := initContext s) in *.
    change (step pow_approx s1 (StartBinaural ?c ?b ?v))
      with (startBinaural c b v s1).
    pose proof (inv_startBinaural
                  (App.carrier (App.currentStation st))
                  (App.beat (App.currentStation st))
                  (Playback.volBinaural m) s1 Hinv1) as Hinv2.
    destruct (startBinaural_nodes
                (App.carrier (App.currentStation st))
                (App.beat (App.currentStation st))
                (Playback.volBinaural m) s1)
      as (lo & ro & _ & _ & Hlo & Hro).
    set (s2 := startBinaural _ _ _ s1) in *.
    change (step pow_approx s2 (StartNoise ?t ?v)) with (startNoise t v s2).
    pose proof (inv_startNoise (App.noise st) (App.volNoise st) s2 Hinv2)
      as Hinv3.
    set (s3 := startNoise _ _ s2) in *.
    set (rest := _ :: _ :: _ :: _ :: ec).
    assert (forall o, o <> osc1 -> o <> osc2 -> o <> noiseSource ->
              Forall (fun e => drives e o = false)
                (StartNoise (App.noise st) (App.volNoise st) :: rest)) as Hl.
    { intros o H1 H2 H3. constructor; [by destruct o|].
      subst rest. repeat (constructor; [by destruct o|]).
      by apply Hec. }
    assert (Forall (fun e => drives e noiseSource = false) rest) as Hn.
    { subst rest. repeat (constructor; [done|]).
      by apply Hec. }
    pose proof (unchanged_steps pow_approx _ s2 leftOsc Hinv2 eq_refl
                  (Hl leftOsc ltac:(done) ltac:(done) ltac:(done))) as Ul.
    pose proof (unchanged_steps pow_approx _ s2 rightOsc Hinv2 eq_refl
                  (Hl rightOsc ltac:(done) ltac:(done) ltac:(done))) as Ur.
    pose proof (unchanged_steps pow_approx _ s3 noiseSource Hinv3 eq_refl Hn) as Un.
    rewrite steps_cons in Ul, Ur.
    change (step pow_approx s2 (StartNoise ?t ?v)) with (startNoise t v s2)
      in Ul, Ur.
    fold s3 in Ul, Ur.
    pose proof Hinv2 as (_ & _ & _ & _ & [Hexl _] & [Hexr _]).
    split.
    + exists lo, ro.
      rewrite (unchanged_active _ _ _ Ul), (unchanged_active _ _ _ Ur).
      split; [apply active_singleton; [done|];
              destruct Hlo as (x & Hx & Hp & _); by exists x|].
      split; [apply active_singleton; [done|];
              destruct Hro as (x & Hx & Hp & _); by exists x|].
      split.
      * destruct Hlo as (x & Hx & [Ho _] & Hv). exists x. split; [|done].
        by apply (Ul lo x Ho).
      * destruct Hro as (x & Hx & [Ho _] & Hv). exists x. split; [|done].
        by apply (Ur ro x Ho).
    + rewrite (unchanged_active _ _ _ Un).
      destruct Hinv3 as (_ & _ & _ & [Hexn _] & _).
      assert (forall t, t <> OFF -> App.noise st = t ->
                exists ns, active noiseSource s3 = [ns]) as Hon.
      { intros t Ht Heq. subst s3.
        assert (App.noise st <> OFF) as Hne by (by rewrite Heq).
        destruct (startNoise_playing _ (App.volNoise st) s2 Hne) as (a & Ha).
        exists a. by apply active_singleton. }
      destruct (App.noise st) eqn:Hty.
      * apply quiet_active. subst s3. try rewrite Hty.
        by apply quiet_startNoise_OFF.
      * by apply (Hon WHITE).
      * by apply (Hon GREY).
      * by apply (Hon BROWN).
  - cbn [fold_left].
    change (step pow_approx s Resume) with (initContext s).
    pose proof (inv_initContext s Hinv) as Hinv1.
    change (step pow_approx ?x StopAll) with (stopAll x).
    pose proof (inv_stopAll _ Hinv1) as (_ & _ & _ & [Hn _] & [Hl _] & [Hr _]).
    pose proof (refs_stopAll (initContext s) noiseSource eq_refl) as Rn.
    pose proof (refs_stopAll (initContext s) leftOsc eq_refl) as Rl.
    pose proof (refs_stopAll (initContext s) rightOsc eq_refl) as Rr.
    repeat split; apply quiet_active; by apply quiet_no_ref.
Qed.

(** X10. On an engine that was never asked to play a composition there is
    no music gain, so the [setMusicVolume] of the audio sync effect does
    nothing: after the first effect that plays a track the music gain
    exists with the value 0.3 of [playComposition] and no scheduled
    change, whatever the music volume of the component is. *)
Theorem first_play_music_volume (evs : list event) (st : App.state)
    (m : Playback.mixer) (t : Composition) :
  Forall (fun e => forall notes, e <> PlayComposition notes) evs ->
  App.isPlaying st = true -> Playback.track st = Some t ->
  let s := exec pow_approx evs in
  let s' :=
    fold_left (step pow_approx) (Playback.audioSync pow_approx s st m) s in
  refs s musicGain = None /\
  exists mg,
    refs s' musicGain = Some mg /\
    node_at mg (fun x => kind x = Gain /\ value x = 0.3%float /\ calls x = []) s'.
Proof.
  intros Hevs Hp Ht s s'.
  assert (refs s musicGain = None) as Hnone.
  { subst s. unfold exec. by rewrite refs_musicGain_steps. }
  split; [done|]. subst s'. unfold Playback.audioSync.
  rewrite Hp. cbv zeta.
  rewrite (PlayerFacts.engine_calls_playMusicLoop pow_approx _ st Hp), Ht.
  cbn [app].
  lazymatch goal with
  | |- context [fold_left _ (?e0 :: ?e1 :: ?e2 :: ?e3 :: ?e4 :: ?e5 :: ?e6
                             :: [?p]) _] =>
      change (e0 :: e1 :: e2 :: e3 :: e4 :: e5 :: e6 :: [p])
        with (([e0; e1; e2; e3; e4; e5; e6] ++ [p])%list);
      set (pre := [e0; e1; e2; e3; e4; e5; e6])
  end.
  rewrite fold_left_app.
  assert (refs (fold_left (step pow_approx) pre s) musicGain = None) as Hpre.
  { rewrite refs_musicGain_steps; [done|].
    subst pre. repeat (constructor; [done|]). constructor. }
  revert Hpre. generalize (fold_left (step pow_approx) pre s). intros s6 Hpre.
  cbn [fold_left]. change (step pow_approx s6 (PlayComposition ?l))
    with (state_of (playComposition pow_approx l s6)).
  destruct (playComposition_first pow_approx (notes t) s6 Hpre)
    as (s1 & mg & -> & Hr & Hn).
  exists mg. split; [by rewrite refs_playNotes|].
  apply node_at_playNotes_old; [|done]. by apply (node_at_lt mg _ s1 Hn).
Qed.

End Graph.

(** Sessions of the engine on which the hypotheses above hold. *)

Section GraphSessions.

Import AudioEngine EngineFacts Routing.

Local Open Scope string_scope.

Lemma playing_nodes_routed_witness :
  exists d,
    refs (exec JS.pow_sqrt adaptive_session) ctx = Some d /\
    path (exec JS.pow_sqrt adaptive_session) 9 d.
Proof.
  eapply (playing_nodes_routed JS.pow_sqrt adaptive_session 9);
    [vm_compute; reflexivity|reflexivity].
Defined.

Lemma music_gain_sends_witness :
  exists mg m,
    refs (exec JS.pow_sqrt [PlayComposition (notes App.two_notes)]) musicGain
      = Some mg /\
    refs (exec JS.pow_sqrt [PlayComposition (notes App.two_notes)]) masterGain
      = Some m /\
    mkEdge mg m 0
      ∈ edges (exec JS.pow_sqrt [PlayComposition (notes App.two_notes)]).
Proof.
  eassert (refs (exec JS.pow_sqrt [PlayComposition (notes App.two_notes)])
             musicGain = Some _) as Hmg by (vm_compute; reflexivity).
  destruct (music_gain_sends JS.pow_sqrt _ _ Hmg)
    as (m & rv & dn & Hm & _ & _ & He & _).
  eexists. exists m. split; [exact Hmg|]. split; [exact Hm|exact He].
Defined.

Lemma other_sources_untouched_witness :
  active leftOsc
    (step JS.pow_sqrt (exec JS.pow_sqrt adaptive_session)
       (StartNoise BROWN 0.3))
  = active leftOsc (exec JS.pow_sqrt adaptive_session).
Proof.
  exact (proj2 (other_sources_untouched JS.pow_sqrt adaptive_session
                  (StartNoise BROWN 0.3) leftOsc eq_refl eq_refl)).
Defined.

Lemma startNoise_chain_witness :
  exists ns,
    active noiseSource (startNoise BROWN 0.15 (exec JS.pow_sqrt [])) = [ns] /\
    baseNoiseVolume (startNoise BROWN 0.15 (exec JS.pow_sqrt []))
    = 0.15%float.
Proof.
  destruct (startNoise_chain JS.pow_sqrt [] BROWN 0.15 ltac:(discriminate))
    as (ns & nf & ng & m & _ & Ha & _ & _ & _ & _ & Hb).
  exists ns. split; [exact Ha|exact Hb].
Defined.

(** A composition whose second note is "C#": the first note gets its five
    nodes (8 to 12, after the seven of [initContext] and the music gain),
    the call throws at the second note, for which an oscillator and a gain
    were created, and nothing exists for the third. *)
Example playComposition_sharp_without_octave :
  let r :=
    playComposition JS.pow_sqrt
      [mkNote "D3" 8 0 0.5; mkNote "C#" 4 2 0.5; mkNote "A3" 2 4 0.5] init in
  returned r = false /\ next_id (state_of r) = 15 /\
  node_at 8 (fun x => run x = Playing) (state_of r) /\
  node_at 13 (fun x => run x = Idle) (state_of r).
Proof.
  cbv zeta. split; [vm_compute; reflexivity|].
  split; [vm_compute; reflexivity|].
  split; eexists; (split; [vm_compute; reflexivity|reflexivity]).
Qed.

Lemma adaptive_request_outlives_switch_witness :
  isAdaptive
    (micGranted (enableAdaptiveNoise false (enableAdaptiveNoise true init)))
  = false /\
  micStream
    (micGranted (enableAdaptiveNoise false (enableAdaptiveNoise true init)))
  <> None.
Proof.
  destruct (adaptive_request_outlives_switch init eq_refl)
    as (_ & (Ha & Hm & _) & _).
  split; [exact Ha|exact Hm].
Defined.

Lemma first_play_music_volume_witness :
  exists mg,
    refs (fold_left (step JS.pow_sqrt)
            (Playback.audioSync JS.pow_sqrt (exec JS.pow_sqrt adaptive_session)
               App.playing Playback.default_mixer)
            (exec JS.pow_sqrt adaptive_session)) musicGain = Some mg /\
    node_at mg (fun x => value x = 0.3%float)
      (fold_left (step JS.pow_sqrt)
         (Playback.audioSync JS.pow_sqrt (exec JS.pow_sqrt adaptive_session)
            App.playing Playback.default_mixer)
         (exec JS.pow_sqrt adaptive_session)).
Proof.
  destruct (first_play_music_volume JS.pow_sqrt adaptive_session App.playing
              Playback.default_mixer App.two_notes
              ltac:(repeat constructor; discriminate) eq_refl eq_refl)
    as (_ & mg & Hr & x & Hx & _ & Hv & _).
  exists mg. split; [exact Hr|]. exists x. split; [exact Hx|exact Hv].
Defined.

End GraphSessions.

(** ** The player *)

Section Player.

Import App Playback PlayerFacts.

Variable pow_approx : JS.number -> JS.number -> JS.number.

Local Open Scope string_scope.


(** X12. The ticks of the timer run the [playMusicLoop] that armed them,
    on the state that one captured: whatever the component holds by then,
    whatever timer is pending and whatever state the engine is in, a tick
    plays the same track and asks the composer with the same context as
    the first call. A segment that arrived in the meantime is not played:
    when the first call promoted a prefetched segment, each tick promotes
    that one again and clears the one that arrived; when there was none
    to promote, each tick leaves the composition and the segment that
    arrived as they are. *)
Theorem timer_chain_replays (eng eng' : AudioEngine.engine) (st now : state)
    (timer : option nat) :
  isPlaying st = true ->
  let effs := timer_tick pow_approx eng' timer st in
  played effs = played (playMusicLoop pow_approx eng st) /\
  requested_contexts effs
  = requested_contexts (playMusicLoop pow_approx eng st) /\
  match nextComposition st with
  | Some b =>
      current (render now effs) = Some b /\
      nextComposition (render now effs) = None
  | None =>
      current (render now effs) = current now /\
      nextComposition (render now effs) = nextComposition now
  end.
Proof.
  destruct st as [p stn vn nt c n g lib sl ref]. simpl. intros ->.
  unfold timer_tick, playMusicLoop, track, generateNextSegment, played,
    requested_contexts, render, with_musicLoopRef.
  cbn [isPlaying currentStation volNoise noise current nextComposition
       isGenerating library showLibrary musicLoopRef negb].
  destruct n as [n|]; [|destruct c as [c|]];
    repeat lazymatch goal with
    | |- context [AudioEngine.returned ?r] =>
        destruct (AudioEngine.returned r)
    end;
    destruct g, timer, ref; simpl; repeat split; reflexivity.
Qed.

(** X13. [loadPreset] changes the station, the noise type and the
    composition and closes the library; it keeps the noise volume of the
    component (the one saved in the preset is not restored) and the
    prefetched segment. So when a segment was prefetched and the component
    is playing, the next call of [playMusicLoop] plays that segment, not
    the loaded composition, and replaces the loaded composition by it. *)
Theorem loadPreset_keeps (preset : SavedPreset) (st : state)
    (eng : AudioEngine.engine) :
  let st' := loadPreset preset st in
  (volNoise st' = volNoise st /\ isPlaying st' = isPlaying st /\
   library st' = library st /\ isGenerating st' = isGenerating st /\
   nextComposition st' = nextComposition st /\ showLibrary st' = false) /\
  (forall n, isPlaying st = true -> nextComposition st = Some n ->
     played (playMusicLoop pow_approx eng st') = [notes n] /\
     current (render st' (playMusicLoop pow_approx eng st')) = Some n /\
     requested_contexts (playMusicLoop pow_approx eng st')
     = [name (composition preset)]).
Proof.
  destruct st as [p stn vn nt cur n g lib sl ref]; simpl.
  split; [done|]. intros n' -> ->.
  unfold playMusicLoop, track, generateNextSegment, played, armed,
    requested_contexts, render, loadPreset.
  cbn [isPlaying currentStation volNoise noise current nextComposition
       isGenerating library showLibrary musicLoopRef negb].
  destruct (AudioEngine.returned _), ref; simpl; repeat split; reflexivity.
Qed.


End Player.

(** States of the component on which the hypotheses above hold. *)

Section PlayerSessions.

Import App Playback.

Local Open Scope string_scope.

Lemma timer_chain_replays_witness :
  played (timer_tick JS.pow_sqrt AudioEngine.init (Some 1) prefetched)
  = [notes one_note] /\
  nextComposition
    (render (with_musicLoopRef (Some 2) playing)
       (timer_tick JS.pow_sqrt AudioEngine.init (Some 1) prefetched))
  = None.
Proof.
  destruct (timer_chain_replays JS.pow_sqrt AudioEngine.init AudioEngine.init
              prefetched (with_musicLoopRef (Some 2) playing) (Some 1)
              eq_refl)
    as (Hp & _ & _ & Hn).
  split; [exact Hp|exact Hn].
Defined.


(** A track with the note "Gb": the engine throws, no tick is armed. *)
Example playMusicLoop_flat_without_octave :
  let st :=
    mkState true delta_station 0.15 OFF
      (Some (mkComposition "Ebb" 40 None [mkNote "Gb" 4 0 0.5] "tide" None))
      None false [] false None in
  armed (playMusicLoop JS.pow_sqrt AudioEngine.init st) = [] /\
  uncaught (playMusicLoop JS.pow_sqrt AudioEngine.init st) = true.
Proof. cbv zeta. split; vm_compute; reflexivity. Qed.

End PlayerSessions.

(** ** The key named to the composer *)

Section Keys.

Import AudioEngine GeminiService OrderFacts.

Variable pow_approx : JS.number -> JS.number -> JS.number.

Local Open Scope string_scope.

(** X15. The key [getApproximateKey] names to the composer for a carrier
    is one the engine converts by the equal-temperament formula in
    octave 3, except for carriers from 155 Hz up to 165 Hz and from 208 Hz
    up to 220 Hz: their keys are the flats Eb3 and Ab3, which
    [getFrequency] does not know and plays at the fallback of 200 Hz. *)
Theorem approximate_key_pitch (hz : JS.number) :
  let key := getApproximateKey hz in
  if (negb (hz <? 155) && (hz <? 165) || negb (hz <? 208) && (hz <? 220))%float
  then (key = "Eb3" \/ key = "Ab3") /\ getFrequency pow_approx key = 200%float
  else
    exists k : nat,
      note_names !! k = Some (JS.slice key 0 (Some (-1)%Z)) /\
      getFrequency pow_approx key
      = (440 * JS.Math_pow pow_approx 2
               (((3 + 1) * 12 + JS.of_Z (Z.of_nat k) - 69) / 12))%float.
Proof.
  unfold getApproximateKey.
  assert (forall a b : JS.number, (a <? b)%float = true ->
            (hz <? a)%float = true -> (hz <? b)%float = true) as Hm
    by (intros a b Hab Ha; by apply (ltb_trans hz a b)).
  pose proof (Hm 155 165 eq_refl)%float as M1.
  pose proof (Hm 165 175 eq_refl)%float as M2.
  pose proof (Hm 175 185 eq_refl)%float as M3.
  pose proof (Hm 185 196 eq_refl)%float as M4.
  pose proof (Hm 196 208 eq_refl)%float as M5.
  pose proof (Hm 208 220 eq_refl)%float as M6.
  clear Hm.
  destruct (hz <? 155)%float eqn:H1; [specialize (M1 eq_refl)|clear M1];
  (destruct (hz <? 165)%float eqn:H2; [specialize (M2 eq_refl)|clear M2]);
  (destruct (hz <? 175)%float eqn:H3; [specialize (M3 eq_refl)|clear M3]);
  (destruct (hz <? 185)%float eqn:H4; [specialize (M4 eq_refl)|clear M4]);
  (destruct (hz <? 196)%float eqn:H5; [specialize (M5 eq_refl)|clear M5]);
  (destruct (hz <? 208)%float eqn:H6; [specialize (M6 eq_refl)|clear M6]);
  (destruct (hz <? 220)%float eqn:H7); try discriminate; cbn [negb andb orb].
  - exists 2. by vm_compute.
  - split; [by left|by vm_compute].
  - exists 4. by vm_compute.
  - exists 5. by vm_compute.
  - exists 6. by vm_compute.
  - exists 7. by vm_compute.
  - split; [by right|by vm_compute].
  - exists 9. by vm_compute.
Qed.

End Keys.
